(** * batch-image-renamer: template engine and transactional rename

    A shallow embedding of [changename3.py]: the template tokenizer and
    renderer, the planner loop of [main], the collision guard, the two-phase
    rename and the undo, over an explicit model of the directory.

    Modelling conventions.
    - Python [str] values are [string]s, a character being a code point
      below 256; the scanning loops of the tokenizer work on the list of
      characters of the template, the remaining input [tpl[i:]] standing for
      the index [i].  On these characters [str.isdigit] accepts ['0'..'9']
      and the superscripts two, three and one (178, 179, 185), which [int]
      refuses with a [ValueError]; [isdecimal] is the test for ['0'..'9'].
    - Python [int] is [Z].
    - A [pathlib.Path] is a directory string and a final component; paths
      are absolute and normalised and the directory holds no symbolic link,
      as for the children of [Path(dir).expanduser().resolve()], so that
      [resolve] is the identity and [Path(str(p)) = p].  [with_name]
      raises the [ValueError] of [pathlib] on a name that is empty, is a
      lone dot or holds a path separator; the final component of a
      candidate, a directory entry, is itself a valid name ([valid_path]).
    - The character tests ([isdigit], [isalpha], [isalnum], [isspace]) and
      [lower] are those of Python on the code points below 256.
    - The directory is a finite map from paths to files ([gmap]).  The
      [rename] system call is the POSIX one: it fails when the source is
      missing and silently replaces an existing target.  The limits of a
      file system, such as the length of a name, are not modelled: what is
      proved of a real run is proved of a run that completes.
    - [SystemExit] and uncaught exceptions are error results; the clock
      readings ([datetime.now()]) are arguments. *)

From Stdlib Require Import ZArith Ascii String DecimalString DecimalZ.
From stdpp Require Import gmap strings list fin_maps sorting.

Open Scope Z_scope.

(** ** Paths, errors and results *)

(** [pathlib.Path]: the directory part and the final component. *)
Record Path := mkPath { parent : string; name : string }.

#[global] Instance Path_eq_dec : EqDecision Path.
Proof. solve_decision. Defined.

#[global] Instance Path_countable : Countable Path :=
  inj_countable' (λ p, (parent p, name p)) (λ dn, mkPath dn.1 dn.2)
                 (λ p, match p with mkPath _ _ => eq_refl end).

Inductive Error :=
  | OutOfFuel
  | UnbalancedBracket
  | TemplateHasNoCounter
  | RenderIndexError
  | DuplicateTarget
  | TargetAlreadyExists (dst_name : string)
  | UndoSourceMissing (frm : Path)
  | UndoTargetExists (to : Path)
  | RenameSourceMissing (frm : Path)
  | LogUnreadable (log_file : Path)
  | InvalidLiteral (run : string)
  | InvalidName (n : string).

Inductive Result (A : Type) :=
  | Ok (a : A)
  | Err (e : Error).
Arguments Ok {A} a.
Arguments Err {A} e.

(** ** Template tokenization and rendering *)

Module Template.

Inductive Segment :=
  | Lit (text : string)
  | X (width : nat)
  | D (width : nat) (start_val : Z).

Definition is_x (c : ascii) : bool :=
  bool_decide (c = "x"%char) || bool_decide (c = "X"%char).

(** [str.isdecimal]: ['0'..'9'], the digits that [int] reads. *)
Definition isdecimal (c : ascii) : bool :=
  (48 <=? nat_of_ascii c)%nat && (nat_of_ascii c <=? 57)%nat.

(** [str.isdigit]: the decimal digits and the superscripts two, three and
    one. *)
Definition isdigit (c : ascii) : bool :=
  isdecimal c
  || (nat_of_ascii c =? 178)%nat || (nat_of_ascii c =? 179)%nat
  || (nat_of_ascii c =? 185)%nat.

(** The condition of the literal loop, line 132. *)
Definition is_plain (c : ascii) : bool :=
  negb (isdigit c) && negb (is_x c) && negb (bool_decide (c = "["%char)).

(** [while j < n and p(tpl[j]): j += 1], as the number of steps taken. *)
Fixpoint run_length (p : ascii → bool) (s : list ascii) : nat :=
  match s with
  | c :: s' => if p c then S (run_length p s') else O
  | [] => O
  end.

(** [tpl.find(c, i + 1)], relative to [i + 1]. *)
Definition find (c : ascii) (s : list ascii) : option nat :=
  fst <$> list_find (λ a, a = c) s.

(** The value of a run of decimal digits. *)
Definition int (run : list ascii) : Z :=
  foldl (λ acc c, 10 * acc + (Z.of_nat (nat_of_ascii c) - 48)) 0 run.

(** [int(run)] on a run of characters that [isdigit] accepts: the
    [ValueError] when one of them is not decimal. *)
Definition parse_int (run : list ascii) : Result Z :=
  if forallb isdecimal run then Ok (int run)
  else Err (InvalidLiteral (string_of_list_ascii run)).

(** [str(v)] for an integer. *)
Definition str (v : Z) : string := NilZero.string_of_int (Z.to_int v).

(** [segs.append(seg)] followed by the rest of the scan: an error raised
    later discards the segments collected so far. *)
Definition cons_seg (seg : Segment) (r : Result (list Segment))
  : Result (list Segment) :=
  match r with
  | Ok segs => Ok (seg :: segs)
  | Err e => Err e
  end.

(** [segs.append(("d", width, int(run)))] followed by the rest of the
    scan: the [ValueError] of [int] ends the scan at once. *)
Definition cons_digits (width : nat) (run : list ascii)
    (r : Result (list Segment)) : Result (list Segment) :=
  match parse_int run with
  | Ok start_val => cons_seg (D width start_val) r
  | Err e => Err e
  end.

(** The [while i < n] loop of [tokenize_template] on [s = tpl[i:]].  Every
    iteration consumes at least one character, so [length tpl] iterations
    are enough and [OutOfFuel] never comes out of [tokenize_template]. *)
Fixpoint tokenize_from (fuel : nat) (s : list ascii) : Result (list Segment) :=
  match s with
  | [] => Ok []
  | ch :: s' =>
    match fuel with
    | O => Err OutOfFuel
    | S fuel' =>
      if bool_decide (ch = "["%char) then
        match find "]"%char s' with
        | None => Err UnbalancedBracket
        | Some k =>
          cons_seg (Lit (string_of_list_ascii (take k s')))
                   (tokenize_from fuel' (drop (S k) s'))
        end
      else if is_x ch then
        let width := run_length is_x s in
        cons_seg (X width) (tokenize_from fuel' (drop width s))
      else if isdigit ch then
        let width := run_length isdigit s in
        cons_digits width (take width s) (tokenize_from fuel' (drop width s))
      else
        let j := S (run_length is_plain s') in
        cons_seg (Lit (string_of_list_ascii (take j s)))
                 (tokenize_from fuel' (drop j s))
    end
  end.

Definition tokenize_chars (s : list ascii) : Result (list Segment) :=
  tokenize_from (length s) s.

Definition tokenize_template (tpl : string) : Result (list Segment) :=
  tokenize_chars (list_ascii_of_string tpl).

Definition is_sign (c : ascii) : bool :=
  bool_decide (c = "+"%char) || bool_decide (c = "-"%char).

(** [s.zfill(width)]: left-fill with ['0'], after a leading sign if any. *)
Definition zfill (width : nat) (s : string) : string :=
  if (width <=? String.length s)%nat then s
  else
    let pad :=
      string_of_list_ascii (replicate (width - String.length s) "0"%char) in
    match s with
    | String c s' =>
      if is_sign c then String c (pad +:+ s')
      else pad +:+ s
    | EmptyString => pad
    end.

(** The loop of [render_from_segments]; [None] is the [IndexError] of
    [d_vals[d_idx]]. *)
Fixpoint render_loop (segs : list Segment) (x_val : Z) (d_vals : list Z)
    (d_idx : nat) : option string :=
  match segs with
  | [] => Some EmptyString
  | Lit text :: segs' =>
    (λ out, text +:+ out) <$> render_loop segs' x_val d_vals d_idx
  | X width :: segs' =>
    (λ out, (if (1 <? width)%nat then zfill width (str x_val)
             else str x_val) +:+ out)
      <$> render_loop segs' x_val d_vals d_idx
  | D width _ :: segs' =>
    cur ← d_vals !! d_idx;
    (λ out, (if (1 <? width)%nat then zfill width (str cur)
             else str cur) +:+ out)
      <$> render_loop segs' x_val d_vals (S d_idx)
  end.

Definition render_from_segments (segs : list Segment) (x_val : Z)
    (d_vals : list Z) : option string :=
  render_loop segs x_val d_vals 0.

Definition is_d (s : Segment) : bool :=
  match s with D _ _ => true | _ => false end.

Definition is_X (s : Segment) : bool :=
  match s with X _ => true | _ => false end.

Definition count_d_segments (segs : list Segment) : nat :=
  length (filter (λ s, is_d s = true) segs).

Definition has_x_segment (segs : list Segment) : bool :=
  existsb is_X segs.

Definition init_d_counters (segs : list Segment) : list Z :=
  omap (λ s, match s with D _ start_val => Some start_val | _ => None end) segs.

Definition zeros (n : nat) : string :=
  string_of_list_ascii (replicate n "0"%char).

(** The width rule in the words of the specification: no padding for a
    width of at most one, zero-padding to the width otherwise, and never a
    truncation. *)
Definition zero_padded (width : nat) (v : Z) (out : string) : Prop :=
  ((width ≤ 1)%nat → out = str v) ∧
  ((1 < width)%nat →
     String.length out = Nat.max width (String.length (str v)) ∧
     (0 ≤ v → out = zeros (width - String.length (str v)) +:+ str v)) ∧
  ((width ≤ String.length (str v))%nat → out = str v).

(** Text in which every character that [isdigit] accepts is decimal. *)
Definition decimal_digits (s : list ascii) : Prop :=
  Forall (λ c, isdigit c = true → isdecimal c = true) s.

(** The characters of the text of a counter: decimal digits and the minus
    sign. *)
Definition counter_char (c : ascii) : Prop :=
  isdecimal c = true ∨ c = "-"%char.

(** The segments of a prefix put in front of the result of the rest. *)
Definition prepend (segs : list Segment) (r : Result (list Segment))
  : Result (list Segment) :=
  match r with
  | Ok segs' => Ok (segs ++ segs')
  | Err e => Err e
  end.

(** Templates whose digits and counter letters all sit inside bracket
    spans: plain characters and closed bracket spans only. *)
Inductive AllBracketed : list ascii → Prop :=
  | AllBracketed_nil : AllBracketed []
  | AllBracketed_plain c s :
      is_plain c = true → AllBracketed s → AllBracketed (c :: s)
  | AllBracketed_span inner rest :
      "]"%char ∉ inner → AllBracketed rest →
      AllBracketed ("["%char :: inner ++ "]"%char :: rest).

Definition is_lit (s : Segment) : bool :=
  match s with Lit _ => true | _ => false end.

(** No counter-bearing segment: neither shared nor per-run. *)
Definition no_counter (segs : list Segment) : Prop :=
  Forall (λ g, is_lit g = true) segs.

End Template.

(** ** The planner loop of [main] *)

Module Planner.
Import Template.

(** [str.rfind(c)]. *)
Definition rfind (c : ascii) (s : list ascii) : option nat :=
  (λ k, (length s - 1 - k)%nat) <$> find c (reverse s).

(** [PurePath.suffix]: the last dot-extension of the final component,
    empty when the only dot leads or ends the name. *)
Definition suffix (p : Path) : string :=
  let l := list_ascii_of_string (name p) in
  match rfind "."%char l with
  | Some i =>
    if (0 <? i)%nat && (i <? length l - 1)%nat
    then string_of_list_ascii (drop i l)
    else EmptyString
  | None => EmptyString
  end.

(** The path next to [p] with the final component [n], unchecked. *)
Definition sibling (p : Path) (n : string) : Path := mkPath (parent p) n.

(** The final components that [with_name] accepts. *)
Definition valid_name (n : string) : bool :=
  negb (bool_decide (n = EmptyString))
  && negb (bool_decide ("/"%char ∈ list_ascii_of_string n))
  && negb (bool_decide (n = "."%string)).

(** [PurePath.with_name] on a path that has a name: the [ValueError] on an
    invalid name, which is an empty name, a lone dot or a name with a path
    separator.  (Before Python 3.12 a separator next to a dot component, as
    in [./a], is let through and gives a path that is not normalised; the
    theorems use [with_name] on names without separator and on [a/1.jpg]
    only, where all versions agree.) *)
Definition with_name (p : Path) (n : string) : Result Path :=
  if valid_name n then Ok (sibling p n) else Err (InvalidName n).

(** A directory entry: its final component is a valid name. *)
Definition valid_path (p : Path) : Prop := valid_name (name p) = true.

(** The [for p in candidates] loop, lines 374-381. *)
Fixpoint plan_loop (segs : list Segment) (use_x : bool) (d_count : nat)
    (candidates : list Path) (x_counter : Z) (d_counters : list Z)
  : Result (list (Path * Path)) :=
  match candidates with
  | [] => Ok []
  | p :: rest =>
    match render_from_segments segs x_counter d_counters with
    | None => Err RenderIndexError
    | Some base =>
      match with_name p (base +:+ suffix p) with
      | Err e => Err e
      | Ok dst =>
        let x_counter' := if use_x then x_counter + 1 else x_counter in
        let d_counters' :=
          if (0 <? d_count)%nat then (λ v, v + 1) <$> d_counters
          else d_counters in
        match plan_loop segs use_x d_count rest x_counter' d_counters' with
        | Ok pairs => Ok ((p, dst) :: pairs)
        | Err e => Err e
        end
      end
    end
  end.

(** Lines 365-381 of [main]: the counters, the guard and the loop. *)
Definition plan (segs : list Segment) (start : Z) (candidates : list Path)
  : Result (list (Path * Path)) :=
  let d_counters := init_d_counters segs in
  let x_counter := start in
  let use_x := has_x_segment segs in
  let d_count := count_d_segments segs in
  if negb use_x && (d_count =? 0)%nat then Err TemplateHasNoCounter
  else plan_loop segs use_x d_count candidates x_counter d_counters.

(** The counters with which the loop renders the [i]-th candidate. *)
Definition rendered (segs : list Segment) (use_x : bool) (x_counter : Z)
    (d_counters : list Z) (i : nat) : option string :=
  render_from_segments segs
    (if use_x then x_counter + Z.of_nat i else x_counter)
    ((λ v, v + Z.of_nat i) <$> d_counters).

(** Every name that the loop renders for the candidates is one that
    [with_name] accepts. *)
Definition names_valid (segs : list Segment) (start : Z)
    (candidates : list Path) : Prop :=
  ∀ (i : nat) p base,
    candidates !! i = Some p →
    rendered segs (has_x_segment segs) start (init_d_counters segs) i
    = Some base →
    valid_name (base +:+ suffix p) = true.

(** No literal segment holds a path separator. *)
Definition separator_free (segs : list Segment) : Prop :=
  ∀ text, Lit text ∈ segs → "/"%char ∉ list_ascii_of_string text.

End Planner.

(** ** The directory and the rename engine *)

Module Engine.
Import Template Planner.

(** One [{"src": ..., "dst": ...}] item of the log. *)
Record LogEntry := mkEntry { log_src : Path; log_dst : Path }.

(** A file is an opaque content with an identity, or a log document as
    written by [save_log]. *)
Inductive File :=
  | Blob (id : nat)
  | LogDoc (created_at : string) (pairs : list LogEntry).

Inductive Syscall :=
  | SysRename (frm to : Path)
  | SysWrite (p : Path).

(** The directory contents, and the system calls performed so far (ghost
    state, used to state the order of the mutations). *)
Record World := mkWorld { files : gmap Path File; trace : list Syscall }.

(** State and error monad: the world is kept when an error is raised. *)
Definition M (A : Type) : Type := World → World * Result A.

Definition ret {A} (a : A) : M A := λ w, (w, Ok a).

Definition raise {A} (e : Error) : M A := λ w, (w, Err e).

Definition bind {A B} (m : M A) (k : A → M B) : M B := λ w,
  match m w with
  | (w', Ok a) => k a w'
  | (w', Err e) => (w', Err e)
  end.

Definition get : M World := λ w, (w, Ok w).

Definition lift {A} (r : Result A) : M A := λ w, (w, r).

Notation "'let!' x ':=' m 'in' k" := (bind m (λ x, k))
  (at level 10, x name, m at level 100, k at level 200, only parsing).
Notation "m ';;;' k" := (bind m (λ _, k))
  (at level 100, k at level 200, right associativity, only parsing).

(** [for x in l: body(x)]. *)
Fixpoint for_ {A} (l : list A) (body : A → M unit) : M unit :=
  match l with
  | [] => ret tt
  | x :: l' => body x ;;; for_ l' body
  end.

(** [p.exists()]. *)
Definition exists_ (p : Path) (w : World) : bool :=
  bool_decide (is_Some (files w !! p)).

(** [p.resolve()]: the identity on normalised paths without links. *)
Definition resolve (p : Path) : Path := p.

(** [frm.rename(to)]. *)
Definition rename (frm to : Path) : M unit := λ w,
  match files w !! frm with
  | None => (w, Err (RenameSourceMissing frm))
  | Some f =>
    (mkWorld (<[to := f]> (delete frm (files w)))
             (trace w ++ [SysRename frm to]), Ok tt)
  end.

(** [p.write_text(doc)]. *)
Definition write_text (p : Path) (doc : File) : M unit := λ w,
  (mkWorld (<[p := doc]> (files w)) (trace w ++ [SysWrite p]), Ok tt).

Definition ensure_no_collisions (pairs : list (Path * Path)) : M unit :=
  let targets := (λ sd, name sd.2) <$> pairs in
  if bool_decide (size (list_to_set targets : gset string) ≠ length targets)
  then raise DuplicateTarget
  else
    let src_set : gset Path := list_to_set ((λ sd, resolve sd.1) <$> pairs) in
    for_ pairs (λ sd,
      let! w := get in
      if exists_ sd.2 w && bool_decide (resolve sd.2 ∉ src_set)
      then raise (TargetAlreadyExists (name sd.2))
      else ret tt).

Definition temp_suffix (stamp : string) : string :=
  ".__tmp_rename__" +:+ stamp +:+ "__".

(** [src.with_name(src.name + temp_suffix)]: the name of a directory entry
    followed by the suffix is a valid name again. *)
Definition temp_path (stamp : string) (src : Path) : Path :=
  sibling src (name src +:+ temp_suffix stamp).

Definition two_phase_rename (pairs : list (Path * Path)) (dry_run : bool)
    (stamp : string) : M (list LogEntry) :=
  let mapping := (λ sd, mkEntry sd.1 sd.2) <$> pairs in
  if dry_run then ret mapping
  else
    let phase1 := (λ sd, (sd.1, temp_path stamp sd.1)) <$> pairs in
    let phase2 := (λ sd, (temp_path stamp sd.1, sd.2)) <$> pairs in
    for_ phase1 (λ st, rename st.1 st.2);;;
    for_ phase2 (λ td, rename td.1 td.2);;;
    ret mapping.

Definition save_log (folder : string) (mapping : list LogEntry)
    (ts created_at : string) : M Path :=
  let log_path := mkPath folder ("rename_log_" +:+ ts +:+ ".json") in
  write_text log_path (LogDoc created_at mapping);;;
  ret log_path.

(** [json.loads(log_file.read_text())["pairs"]]. *)
Definition read_pairs (log_file : Path) : M (list LogEntry) := λ w,
  match files w !! log_file with
  | Some (LogDoc _ pairs) => (w, Ok pairs)
  | _ => (w, Err (LogUnreadable log_file))
  end.

(** The body of [undo] once the log is read, lines 213-227. *)
Definition undo_pairs (pairs : list LogEntry) (dry_run : bool) : M unit :=
  let ops := (λ item, (log_dst item, log_src item)) <$> reverse pairs in
  for_ ops (λ ft,
    let! w := get in
    if negb (exists_ ft.1 w) then raise (UndoSourceMissing ft.1)
    else if exists_ ft.2 w && bool_decide (ft.2 ≠ ft.1)
    then raise (UndoTargetExists ft.2)
    else ret tt);;;
  if dry_run then ret tt
  else for_ ops (λ ft, rename ft.1 ft.2).

Definition undo (log_file : Path) (dry_run : bool) : M unit :=
  let! pairs := read_pairs log_file in
  undo_pairs pairs dry_run.

(** [main] from the template parse on (lines 363-398), for the candidates
    selected in [folder]. *)
Definition main_rename (folder : string) (tpl : string) (start : Z)
    (candidates : list Path) (dry_run : bool) (stamp ts created_at : string)
  : M unit :=
  let! segs := lift (tokenize_template tpl) in
  let! pairs := lift (plan segs start candidates) in
  ensure_no_collisions pairs;;;
  let! mapping := two_phase_rename pairs dry_run stamp in
  if dry_run then ret tt
  else
    let! log_path := save_log folder mapping ts created_at in
    ret tt.

(** The system calls of the two phases, in the order of the plan. *)
Definition phase1_calls (stamp : string) (pairs : list (Path * Path))
  : list Syscall :=
  (λ sd, SysRename sd.1 (temp_path stamp sd.1)) <$> pairs.

Definition phase2_calls (stamp : string) (pairs : list (Path * Path))
  : list Syscall :=
  (λ sd, SysRename (temp_path stamp sd.1) sd.2) <$> pairs.

(** A list of moves none of which lands on an occupied path: distinct
    sources, distinct targets, every source present and every target free
    or equal to its own source. *)
Definition clean_moves (m : gmap Path File) (l : list (Path * Path)) : Prop :=
  NoDup l.*1 ∧ NoDup l.*2 ∧
  ∀ a b, (a, b) ∈ l → is_Some (m !! a) ∧ (is_Some (m !! b) → b = a).

(** The candidates are distinct files of the directory, as listed by
    [iterdir], and the temporary names of the run are unused. *)
Definition plan_ready (m : gmap Path File) (stamp : string)
    (pairs : list (Path * Path)) : Prop :=
  NoDup pairs.*1 ∧
  (∀ s, s ∈ pairs.*1 → is_Some (m !! s)) ∧
  (∀ s, s ∈ pairs.*1 →
     m !! temp_path stamp s = None ∧ temp_path stamp s ∉ pairs.*2).

(** Validity of a plan in the words of the specification: no two entries
    share a destination path, and a destination that exists is one of the
    sources of the plan. *)
Definition plan_valid (m : gmap Path File) (pairs : list (Path * Path))
  : Prop :=
  NoDup pairs.*2 ∧
  ∀ d, d ∈ pairs.*2 → is_Some (m !! d) → d ∈ pairs.*1.


(** The two pre-checks of [undo] on one item of the log. *)
Definition undo_check_ok (m : gmap Path File) (item : LogEntry) : Prop :=
  is_Some (m !! log_dst item) ∧
  (is_Some (m !! log_src item) → log_src item = log_dst item).

End Engine.

(** ** Sample inputs *)

Module Samples.
Import Template Planner Engine.

Definition img_a : Path := mkPath "/photos" "a.jpg".
Definition img_b : Path := mkPath "/photos" "b.jpg".
Definition img_c : Path := mkPath "/photos" "c.jpg".

(** A directory with two images. *)
Definition two_images : World :=
  mkWorld (<[img_a := Blob 1]> (<[img_b := Blob 2]> ∅)) [].

(** The swap of the two names. *)
Definition swap_plan : list (Path * Path) := [(img_a, img_b); (img_b, img_a)].


(** Two entries with the same destination. *)
Definition clash_plan : list (Path * Path) := [(img_a, img_c); (img_b, img_c)].

End Samples.

(** ** The selection of the candidates *)

Module Selection.
Import Template Planner Engine.


(** [str.lower()]: the capital letters are ['A'..'Z'] and, above 127, the
    codes 192 to 222 without the multiplication sign (215). *)
Definition lower_char (c : ascii) : ascii :=
  let n := nat_of_ascii c in
  if ((65 <=? n)%nat && (n <=? 90)%nat)
     || ((192 <=? n)%nat && (n <=? 214)%nat)
     || ((216 <=? n)%nat && (n <=? 222)%nat)
  then ascii_of_nat (n + 32) else c.

Definition lower (s : string) : string :=
  string_of_list_ascii (lower_char <$> list_ascii_of_string s).


(** [str.isalpha]: the letters ['A'..'Z'] and ['a'..'z'] and, above 127,
    the two ordinal indicators (170, 186), the micro sign (181) and the
    codes 192 to 255 without the multiplication and division signs (215,
    247). *)
Definition isalpha (c : ascii) : bool :=
  let n := nat_of_ascii c in
  ((65 <=? n)%nat && (n <=? 90)%nat) || ((97 <=? n)%nat && (n <=? 122)%nat)
  || (n =? 170)%nat || (n =? 181)%nat || (n =? 186)%nat
  || ((192 <=? n)%nat && (n <=? 214)%nat)
  || ((216 <=? n)%nat && (n <=? 246)%nat)
  || ((248 <=? n)%nat && (n <=? 255)%nat).

(** [str.isalnum]: a letter, a digit or one of the three fractions (188 to
    190), which are numeric. *)
Definition isalnum (c : ascii) : bool :=
  isalpha c || isdigit c
  || ((188 <=? nat_of_ascii c)%nat && (nat_of_ascii c <=? 190)%nat).

Definition weird_symbols : list ascii :=
  list_ascii_of_string "!*=+@#$%^&()[]{};,'`~<>|\".

Definition common_seps : list ascii := list_ascii_of_string "_-. ".

Definition is_messy_name (stem : string) : bool :=
  let s := list_ascii_of_string stem in
  if bool_decide (s = []) then false
  else if (24 <=? length s)%nat then true
  else if existsb (λ c, bool_decide (c ∈ weird_symbols)) s then true
  else
    let non_alnum :=
      length (filter (λ c, negb (isalnum c)
                           && negb (bool_decide (c ∈ common_seps)) = true) s) in
    if (3 <=? non_alnum)%nat then true
    else
      let has_sep := existsb (λ c, bool_decide (c ∈ s)) common_seps in
      if negb has_sep && (18 <=? length s)%nat then
        let has_digit := existsb isdigit s in
        let has_alpha := existsb isalpha s in
        if has_digit && has_alpha then true else false
      else false.

(** An alphanumeric character or one of the common separators. *)
Definition clean_char (c : ascii) : Prop :=
  isalnum c = true ∨ c ∈ common_seps.

(** [str.isspace], the characters that [str.strip()] removes: tab to
    carriage return, the four separators 28 to 31, the space, the next-line
    control (133) and the no-break space (160). *)
Definition isspace (c : ascii) : bool :=
  let n := nat_of_ascii c in
  ((9 <=? n)%nat && (n <=? 13)%nat) || ((28 <=? n)%nat && (n <=? 32)%nat)
  || (n =? 133)%nat || (n =? 160)%nat.

Fixpoint lstrip (s : list ascii) : list ascii :=
  match s with
  | c :: t => if isspace c then lstrip t else s
  | [] => []
  end.

Definition strip (s : list ascii) : list ascii :=
  reverse (lstrip (reverse (lstrip s))).

(** [s.split(sep)] for a separator of one character: the empty string gives
    one empty piece. *)
Fixpoint split (sep : ascii) (s : list ascii) : list (list ascii) :=
  match s with
  | [] => [[]]
  | c :: t =>
    if bool_decide (c = sep) then [] :: split sep t
    else match split sep t with
         | h :: r => (c :: h) :: r
         | [] => [[c]]
         end
  end.

Definition parse_prefixes (raw : string) : list string :=
  if bool_decide (raw = EmptyString) then []
  else
    (λ x, string_of_list_ascii (strip x)) <$>
      filter (λ x, strip x ≠ []) (split ","%char (list_ascii_of_string raw)).

(** [s.startswith(pref)]. *)
Definition startswith (s pref : string) : bool :=
  bool_decide (list_ascii_of_string pref `prefix_of` list_ascii_of_string s).

Definition match_any_prefix (stem : string) (prefixes : list string) : bool :=
  if bool_decide (prefixes = []) then true
  else existsb (startswith stem) prefixes.

(** [Counter(items)]: the counts of the items, in the order in which the
    items are first seen. *)
Fixpoint count_add (key : string) (c : list (string * nat))
  : list (string * nat) :=
  match c with
  | [] => [(key, 1%nat)]
  | (k', n) :: r =>
    if bool_decide (k' = key) then (k', S n) :: r
    else (k', n) :: count_add key r
  end.

Definition Counter (items : list string) : list (string * nat) :=
  foldl (λ c key, count_add key c) [] items.

(** [most_common(topn)]: the first [topn] entries of the stable sort by
    decreasing count; entries of equal count keep their order. *)
Fixpoint insert_desc (x : string * nat) (l : list (string * nat))
  : list (string * nat) :=
  match l with
  | [] => [x]
  | y :: r => if (y.2 <=? x.2)%nat then x :: l else y :: insert_desc x r
  end.

Definition most_common (topn : nat) (c : list (string * nat))
  : list (string * nat) :=
  take topn (foldr insert_desc [] c).

(** [s[:k]] for [0 <= k]. *)
Definition slice_to (k : nat) (s : string) : string :=
  string_of_list_ascii (take k (list_ascii_of_string s)).

(** [suggest_prefixes(stems, k, topn)], for the non-negative [k] and [topn]
    that [interactive_choose_prefix] passes. *)
Definition suggest_prefixes (stems : list string) (k topn : nat)
  : list (string * nat) :=
  most_common topn
    (Counter (slice_to k <$>
                filter (λ s, (k ≤ String.length s)%nat) stems)).

(** The number of the stems that start with [pfx]. *)
Definition matching (stems : list string) (pfx : string) : nat :=
  length (filter (λ s, startswith s pfx = true) stems).

(** The count recorded for a key, [0] for a key that is absent. *)
Fixpoint lookup_count (key : string) (c : list (string * nat)) : nat :=
  match c with
  | [] => 0%nat
  | (k', n) :: r => if bool_decide (k' = key) then n else lookup_count key r
  end.

(** Counts in decreasing order. *)
Definition by_count (a b : string * nat) : Prop := (b.2 ≤ a.2)%nat.

(** [PurePath.stem]: the final component without its last extension. *)
Definition stem (p : Path) : string :=
  let l := list_ascii_of_string (name p) in
  match rfind "."%char l with
  | Some i =>
    if (0 <? i)%nat && (i <? length l - 1)%nat
    then string_of_list_ascii (take i l)
    else name p
  | None => name p
  end.

(** [s.strip()] and [s.isdigit()] on strings. *)
Definition strip_str (s : string) : string :=
  string_of_list_ascii (strip (list_ascii_of_string s)).

Definition isdigit_str (s : string) : bool :=
  let l := list_ascii_of_string s in
  negb (bool_decide (l = [])) && forallb isdigit l.

(** The outcomes of the dialogue: a confirmed prefix, [None], the
    [EOFError] of [input()] when the lines run out, the [ValueError] of
    [int(choice)] and the [IndexError] of [suggestions[idx - 1]]. *)
Inductive Answer :=
  | Chosen (pref : string)
  | NoChoice
  | EndOfInput
  | ValueError
  | IndexError.

(** [len([... if p.stem.startswith(cand)][:5]) = 0]. *)
Definition no_example (stems : list string) (cand : string) : bool :=
  bool_decide (filter (λ s, startswith s cand = true) stems = []).

(** The [while True] loop of [interactive_choose_prefix], lines 254 to
    294, over the lines that [input()] delivers; what is printed is left
    out.  Every turn of the loop reads at least one line. *)
Fixpoint ask (stems : list string) (suggestions : list (string * nat))
    (best_pref : string) (inputs : list string) : Answer :=
  match inputs with
  | [] => EndOfInput
  | a :: rest =>
    let ans := lower (strip_str a) in
    if bool_decide (ans = "y"%string) then Chosen best_pref
    else if bool_decide (ans = "n"%string) then
      match rest with
      | [] => EndOfInput
      | c :: rest1 =>
        let choice := strip_str c in
        if bool_decide (lower choice = "q"%string) then NoChoice
        else if isdigit_str choice then
          match parse_int (list_ascii_of_string choice) with
          | Err _ => ValueError
          | Ok idx =>
            if (1 <=? idx) && (idx <=? Z.of_nat (length suggestions)) then
              match suggestions !! Z.to_nat (idx - 1) with
              | None => IndexError
              | Some (cand, _) =>
                match rest1 with
                | [] => EndOfInput
                | y :: rest2 =>
                  if bool_decide (lower (strip_str y) = "y"%string)
                  then Chosen cand
                  else ask stems suggestions best_pref rest2
                end
              end
            else ask stems suggestions best_pref rest1
          end
        else
          let cand := choice in
          if bool_decide (cand = EmptyString)
          then ask stems suggestions best_pref rest1
          else if no_example stems cand
          then ask stems suggestions best_pref rest1
          else
            match rest1 with
            | [] => EndOfInput
            | y :: rest2 =>
              if bool_decide (lower (strip_str y) = "y"%string)
              then Chosen cand
              else ask stems suggestions best_pref rest2
            end
      end
    else ask stems suggestions best_pref rest
  end.

(** [interactive_choose_prefix(messy_files, k)], for the [k] that [main]
    passes, [max(1, args.prefix_len)]. *)
Definition interactive_choose_prefix (messy_files : list Path) (k : nat)
    (inputs : list string) : Answer :=
  let stems := stem <$> messy_files in
  if bool_decide (stems = []) then NoChoice
  else
    let suggestions := suggest_prefixes stems k 10 in
    match suggestions with
    | [] => NoChoice
    | (best_pref, _) :: _ => ask stems suggestions best_pref inputs
    end.

(** The candidates of the interactive mode, line 358. *)
Definition chosen_candidates (messy : list Path) (chosen : string)
  : list Path :=
  filter (λ p, startswith (stem p) chosen = true) messy.

(** A prefix as [parse_prefixes] returns them: not empty, without a comma,
    no white space at either end. *)
Definition tidy (p : string) : Prop :=
  let s := list_ascii_of_string p in
  ","%char ∉ s ∧
  ∃ a b, head s = Some a ∧ last s = Some b ∧
         isspace a = false ∧ isspace b = false.

End Selection.

(** ** Shapes of segments and of digit runs *)

Module Shape.
Import Template.

(** What the scanner guarantees of each segment: a counter has a width of
    at least one, and the initial value of a per-run counter is the
    natural number that fits its width. *)
Definition seg_wf (g : Segment) : Prop :=
  match g with
  | Lit _ => True
  | X width => (1 ≤ width)%nat
  | D width start_val => (1 ≤ width)%nat ∧ 0 ≤ start_val < 10 ^ Z.of_nat width
  end.

(** No character of the template starts a shared counter or a bracket. *)
Definition plain_or_digit (c : ascii) : Prop :=
  is_x c = false ∧ c ≠ "["%char.

(** The decimal numeral spelled by a run of digits. *)
Definition digit_uint (c : ascii) (d : Decimal.uint) : Decimal.uint :=
  match (nat_of_ascii c - 48)%nat with
  | 0%nat => Decimal.D0 d
  | 1%nat => Decimal.D1 d
  | 2%nat => Decimal.D2 d
  | 3%nat => Decimal.D3 d
  | 4%nat => Decimal.D4 d
  | 5%nat => Decimal.D5 d
  | 6%nat => Decimal.D6 d
  | 7%nat => Decimal.D7 d
  | 8%nat => Decimal.D8 d
  | _ => Decimal.D9 d
  end.

Definition uint_of_digits (run : list ascii) : Decimal.uint :=
  foldr digit_uint Decimal.Nil run.

End Shape.

(** ** Further sample inputs *)

Module Scenarios.
Import Template Planner Engine.


(** A plan whose second source is not in the directory. *)
Definition gap_plan : list (Path * Path) :=
  [(Samples.img_a, mkPath "/photos" "001.jpg");
   (Samples.img_c, mkPath "/photos" "002.jpg")].

(** The record of [Samples.fresh_plan]. *)
Definition fresh_record : list LogEntry :=
  [mkEntry Samples.img_a (mkPath "/photos" "001.jpg");
   mkEntry Samples.img_b (mkPath "/photos" "002.jpg")].

(** The log file written by [save_log] in [folder] at the time [ts]. *)
Definition log_path (folder ts : string) : Path :=
  mkPath folder ("rename_log_" +:+ ts +:+ ".json").

End Scenarios.

Import Template Planner Engine.

(** * Properties *)

(** ** The tokenizer *)

Section Tokenizer.

Lemma list_length_ind {A} (P : list A → Prop) :
  (∀ l, (∀ l', (length l' < length l)%nat → P l') → P l) → ∀ l, P l.
Proof.
  intros step l. remember (length l) as n eqn:Hn.
  revert l Hn. induction n as [n IH] using lt_wf_ind.
  intros l ->. apply step. intros l' Hlt. by apply (IH (length l')).
Qed.

Lemma run_length_le p s : (run_length p s ≤ length s)%nat.
Proof. induction s as [|c s IH]; simpl; [lia|]. destruct (p c); simpl; lia. Qed.

Lemma run_length_app_stop p l1 c l2 :
  p c = false → run_length p (l1 ++ c :: l2) = run_length p l1.
Proof.
  intros Hc. induction l1 as [|a l1 IH]; simpl.
  - by rewrite Hc.
  - destruct (p a); [by rewrite IH | done].
Qed.

Lemma run_length_all p l :
  Forall (λ c, p c = true) l → run_length p l = length l.
Proof. induction 1 as [|c l Hc _ IH]; simpl; [done|]. by rewrite Hc, IH. Qed.

Lemma find_None c s : find c s = None ↔ c ∉ s.
Proof.
  unfold find. rewrite fmap_None, list_find_None, Forall_forall.
  split; [intros H Hin; by apply (H c) | intros H x Hx ->; done].
Qed.

Lemma find_Some c s k :
  find c s = Some k → (k < length s)%nat ∧ s !! k = Some c ∧ c ∉ take k s.
Proof.
  unfold find. intros H. apply fmap_Some in H as ([i x] & Hf & ->). simpl.
  apply list_find_Some in Hf as (Hl & -> & Hmin).
  split_and!; [by eapply lookup_lt_Some | done |].
  intros Hin. apply list_elem_of_lookup in Hin as [j Hj].
  apply lookup_take_Some in Hj as [Hj Hlt]. by eapply Hmin.
Qed.

Lemma find_app_first c inner rest :
  c ∉ inner → find c (inner ++ c :: rest) = Some (length inner).
Proof.
  intros Hni. unfold find.
  assert (list_find (λ a, a = c) inner = None) as Hn.
  { apply list_find_None, Forall_forall. intros x Hx ->. done. }
  rewrite list_find_app_r by done. simpl.
  rewrite decide_True by done. done.
Qed.

Lemma find_app_l c l1 l2 k :
  find c l1 = Some k → find c (l1 ++ l2) = Some k.
Proof.
  unfold find. intros H. apply fmap_Some in H as ([i x] & Hf & ->).
  by rewrite (list_find_app_l _ _ _ _ _ Hf).
Qed.

Lemma find_app_r_None c l1 l2 k :
  c ∉ l2 → find c (l1 ++ l2) = Some k → find c l1 = Some k.
Proof.
  unfold find. intros Hni H. apply fmap_Some in H as ([i x] & Hf & ->).
  apply list_find_app_Some in Hf as [Hf | (_ & _ & Hf)].
  - by rewrite Hf.
  - apply list_find_Some in Hf as (Hl & -> & _).
    apply list_elem_of_lookup_2 in Hl. done.
Qed.

Lemma tokenize_from_fuel f1 f2 s :
  (length s ≤ f1)%nat → (length s ≤ f2)%nat →
  tokenize_from f1 s = tokenize_from f2 s.
Proof.
  revert f2 s. induction f1 as [|f1 IH]; intros f2 s H1 H2.
  - destruct s; simpl in *; [by destruct f2 | lia].
  - destruct s as [|ch s']; [by destruct f2|].
    destruct f2 as [|f2]; simpl in H1, H2; [lia|].
    assert (∀ n, (length (drop n s') ≤ f1)%nat
                 ∧ (length (drop n s') ≤ f2)%nat) as Hd.
    { intros n. rewrite length_drop. lia. }
    cbn [tokenize_from].
    case_bool_decide.
    { destruct (find "]"%char s') as [k|]; [|done].
      f_equal. apply IH; apply Hd. }
    destruct (is_x ch) eqn:Hx.
    { cbn [run_length]. rewrite Hx. cbn [drop]. f_equal. apply IH; apply Hd. }
    destruct (isdigit ch) eqn:Hdg.
    { cbn [run_length]. rewrite Hdg. cbn [drop]. f_equal. apply IH; apply Hd. }
    cbn [drop]. f_equal. apply IH; apply Hd.
Qed.

(** The loop body, with the recursive call on the remaining input. *)
Lemma tokenize_chars_cons ch s' :
  tokenize_chars (ch :: s') =
    if bool_decide (ch = "["%char) then
      match find "]"%char s' with
      | None => Err UnbalancedBracket
      | Some k =>
        cons_seg (Lit (string_of_list_ascii (take k s')))
                 (tokenize_chars (drop (S k) s'))
      end
    else if is_x ch then
      cons_seg (X (S (run_length is_x s')))
               (tokenize_chars (drop (run_length is_x s') s'))
    else if isdigit ch then
      cons_digits (S (run_length isdigit s'))
                  (ch :: take (run_length isdigit s') s')
                  (tokenize_chars (drop (run_length isdigit s') s'))
    else
      cons_seg (Lit (String ch (string_of_list_ascii
                                  (take (run_length is_plain s') s'))))
               (tokenize_chars (drop (run_length is_plain s') s')).
Proof.
  unfold tokenize_chars. cbn [length tokenize_from].
  assert (∀ n, tokenize_from (length s') (drop n s')
               = tokenize_from (length (drop n s')) (drop n s')) as Hd.
  { intros n. apply tokenize_from_fuel; rewrite ?length_drop; lia. }
  case_bool_decide.
  { destruct (find "]"%char s') as [k|]; [|done]. by rewrite Hd. }
  destruct (is_x ch) eqn:Hx.
  { cbn [run_length]. rewrite Hx. cbn [drop]. by rewrite Hd. }
  destruct (isdigit ch) eqn:Hdg.
  { cbn [run_length]. rewrite Hdg. cbn [drop take]. by rewrite Hd. }
  cbn [drop take string_of_list_ascii]. by rewrite Hd.
Qed.

Lemma tokenize_chars_nil : tokenize_chars [] = Ok [].
Proof. reflexivity. Qed.

Lemma cons_seg_fuel seg r : r ≠ Err OutOfFuel → cons_seg seg r ≠ Err OutOfFuel.
Proof. destruct r as [?|e]; simpl; [done|]. intros H; congruence. Qed.

Lemma forallb_Forall {A} (f : A → bool) l :
  forallb f l = true ↔ Forall (λ x, f x = true) l.
Proof.
  induction l as [|x l IH]; simpl; [by split; [constructor|]|].
  rewrite andb_true_iff, Forall_cons, IH. done.
Qed.

Lemma cons_digits_fuel width run r :
  r ≠ Err OutOfFuel → cons_digits width run r ≠ Err OutOfFuel.
Proof.
  unfold cons_digits, parse_int. destruct (forallb isdecimal run); [|done].
  apply cons_seg_fuel.
Qed.

Lemma cons_digits_decimal width run r :
  Forall (λ c, isdecimal c = true) run →
  cons_digits width run r = cons_seg (D width (int run)) r.
Proof.
  intros Hall. unfold cons_digits, parse_int.
  by rewrite (proj2 (forallb_Forall isdecimal run) Hall).
Qed.

Lemma cons_digits_Ok width run r segs :
  cons_digits width run r = Ok segs →
  Forall (λ c, isdecimal c = true) run ∧
  ∃ segs', r = Ok segs' ∧ segs = D width (int run) :: segs'.
Proof.
  unfold cons_digits, parse_int.
  destruct (forallb isdecimal run) eqn:Hall; [|done].
  apply forallb_Forall in Hall. destruct r; simpl; intros [= <-]; eauto.
Qed.

Lemma decimal_digit c : isdecimal c = true → isdigit c = true.
Proof. unfold isdigit. by intros ->. Qed.

Lemma run_length_take p l :
  Forall (λ c, p c = true) (take (run_length p l) l).
Proof.
  induction l as [|c l IH]; simpl; [constructor|].
  destruct (p c) eqn:Hc; simpl; [by constructor|constructor].
Qed.

(** The digit run at the head of a text whose digits are decimal. *)
Lemma decimal_run ch s' :
  decimal_digits (ch :: s') → isdigit ch = true →
  Forall (λ c, isdecimal c = true) (ch :: take (run_length isdigit s') s').
Proof.
  intros [Hch Hs']%Forall_cons Hd. constructor; [by apply Hch|].
  pose proof (run_length_take isdigit s') as Hrun.
  apply Forall_forall. intros c Hc.
  apply (proj1 (Forall_forall _ _) Hs').
  - eapply elem_of_sublist; [exact Hc|apply sublist_take].
  - by apply (proj1 (Forall_forall _ _) Hrun).
Qed.

(** The scan terminates within its fuel on every input. *)
Lemma tokenize_chars_total s : tokenize_chars s ≠ Err OutOfFuel.
Proof.
  induction s as [s IH] using list_length_ind.
  destruct s as [|ch s']; [done|].
  assert (∀ n, tokenize_chars (drop n s') ≠ Err OutOfFuel) as Hd.
  { intros n. apply IH. rewrite length_drop. simpl. lia. }
  rewrite tokenize_chars_cons.
  repeat case_match; try done;
    first [by apply cons_seg_fuel | by apply cons_digits_fuel].
Qed.

Lemma cons_seg_Ok seg r segs :
  cons_seg seg r = Ok segs → ∃ segs', r = Ok segs' ∧ segs = seg :: segs'.
Proof. destruct r; simpl; intros [= <-]; eauto. Qed.

Lemma bracket_not_x : is_x "["%char = false.
Proof. reflexivity. Qed.

Lemma bracket_not_digit : isdigit "["%char = false.
Proof. reflexivity. Qed.

Lemma bracket_not_plain : is_plain "["%char = false.
Proof. reflexivity. Qed.

(** A bracket span at the head of the input becomes one literal segment,
    whatever its text. *)
Lemma tokenize_bracket_span inner rest :
  "]"%char ∉ inner →
  tokenize_chars ("["%char :: inner ++ "]"%char :: rest)
  = cons_seg (Lit (string_of_list_ascii inner)) (tokenize_chars rest).
Proof.
  intros Hni. rewrite tokenize_chars_cons.
  rewrite bool_decide_eq_true_2 by done.
  rewrite find_app_first by done.
  rewrite take_app_length.
  replace (drop (S (length inner)) (inner ++ "]"%char :: rest)) with rest; [done|].
  rewrite (cons_middle "]"%char inner rest), app_assoc.
  symmetry. apply drop_app_length'. rewrite length_app. simpl. lia.
Qed.

Lemma prepend_cons_seg seg segs r :
  prepend (seg :: segs) r = cons_seg seg (prepend segs r).
Proof. by destruct r. Qed.

(** An opening bracket ends whatever run precedes it: the segments of a
    prefix that scans on its own are those it yields in front of a
    bracket. *)
Lemma tokenize_before_bracket pre segs t :
  tokenize_chars pre = Ok segs →
  tokenize_chars (pre ++ "["%char :: t)
  = prepend segs (tokenize_chars ("["%char :: t)).
Proof.
  revert segs. induction pre as [pre IH] using list_length_ind. intros segs H.
  destruct pre as [|ch pre'].
  { injection H as <-. simpl. by destruct (tokenize_chars _). }
  assert (∀ n segs', tokenize_chars (drop n pre') = Ok segs' →
            tokenize_chars (drop n pre' ++ "["%char :: t)
            = prepend segs' (tokenize_chars ("["%char :: t))) as IH'.
  { intros n segs'. apply IH. rewrite length_drop. simpl. lia. }
  rewrite <- app_comm_cons.
  rewrite tokenize_chars_cons in H. rewrite (tokenize_chars_cons ch).
  rewrite !run_length_app_stop by done.
  pose proof (run_length_le is_x pre').
  pose proof (run_length_le isdigit pre').
  pose proof (run_length_le is_plain pre').
  case_bool_decide.
  { destruct (find "]"%char pre') as [k|] eqn:Hf; [|done].
    rewrite (find_app_l _ _ _ _ Hf).
    apply find_Some in Hf as (Hk & _ & _).
    apply cons_seg_Ok in H as (segs' & H & ->).
    rewrite take_app_le, drop_app_le by lia.
    rewrite (IH' _ _ H). by rewrite prepend_cons_seg. }
  destruct (is_x ch).
  { apply cons_seg_Ok in H as (segs' & H & ->).
    rewrite drop_app_le by lia.
    rewrite (IH' _ _ H). by rewrite prepend_cons_seg. }
  destruct (isdigit ch).
  { apply cons_digits_Ok in H as (Hdec & segs' & H & ->).
    rewrite take_app_le, drop_app_le by lia.
    rewrite (IH' _ _ H), cons_digits_decimal by done.
    by rewrite prepend_cons_seg. }
  apply cons_seg_Ok in H as (segs' & H & ->).
  rewrite take_app_le, drop_app_le by lia.
  rewrite (IH' _ _ H). by rewrite prepend_cons_seg.
Qed.

(** An opening bracket with no closing bracket after it fails the scan,
    wherever it stands after a text whose digits are decimal. *)
Lemma tokenize_unbalanced pre post :
  decimal_digits pre →
  "]"%char ∉ post →
  tokenize_chars (pre ++ "["%char :: post) = Err UnbalancedBracket.
Proof.
  intros Hdec Hni. induction pre as [pre IH] using list_length_ind.
  destruct pre as [|ch pre'].
  { simpl. rewrite tokenize_chars_cons.
    rewrite bool_decide_eq_true_2 by done.
    by rewrite (proj2 (find_None _ _) Hni). }
  assert (∀ n, tokenize_chars (drop n pre' ++ "["%char :: post)
               = Err UnbalancedBracket) as IH'.
  { intros n. apply IH; [rewrite length_drop; simpl; lia|].
    apply Forall_drop. by apply Forall_cons in Hdec as [_ ?]. }
  rewrite <- app_comm_cons, tokenize_chars_cons.
  rewrite !run_length_app_stop by done.
  pose proof (run_length_le is_x pre').
  pose proof (run_length_le isdigit pre').
  pose proof (run_length_le is_plain pre').
  case_bool_decide.
  { destruct (find "]"%char (pre' ++ "["%char :: post)) as [k|] eqn:Hf; [|done].
    apply find_app_r_None in Hf.
    2:{ intros Hin. apply elem_of_cons in Hin as [Hin|Hin]; [done|by apply Hni]. }
    apply find_Some in Hf as (Hk & _ & _).
    rewrite drop_app_le by lia. by rewrite IH'. }
  destruct (is_x ch); [rewrite drop_app_le by lia; by rewrite IH'|].
  destruct (isdigit ch) eqn:Hd;
    rewrite ?take_app_le, drop_app_le by lia; rewrite IH'; [|done].
  by rewrite cons_digits_decimal by (by apply decimal_run).
Qed.

Lemma AllBracketed_drop_plain s :
  AllBracketed s → AllBracketed (drop (run_length is_plain s) s).
Proof.
  induction 1 as [|c s Hc _ IH|inner rest Hni Hr _]; simpl.
  - constructor.
  - by rewrite Hc.
  - by constructor.
Qed.

Lemma tokenize_all_bracketed s :
  AllBracketed s →
  ∃ segs, tokenize_chars s = Ok segs ∧ Forall (λ g, is_lit g = true) segs.
Proof.
  induction s as [s IH] using list_length_ind. intros Hs.
  inversion Hs as [|c s' Hc Hs' Heq|inner rest Hni Hr Heq]; subst.
  - exists []. by split.
  - rewrite tokenize_chars_cons.
    unfold is_plain in Hc.
    apply andb_true_iff in Hc as [Hc Hb]. apply andb_true_iff in Hc as [Hd Hx].
    apply negb_true_iff in Hb, Hd, Hx. rewrite Hb, Hx, Hd.
    destruct (IH (drop (run_length is_plain s') s')) as (segs & -> & Hall).
    { rewrite length_drop. simpl. lia. }
    { by apply AllBracketed_drop_plain. }
    simpl. eexists. split; [done|]. by constructor.
  - rewrite tokenize_bracket_span by done.
    destruct (IH rest) as (segs & -> & Hall); [|done|].
    { simpl. rewrite length_app. simpl. lia. }
    simpl. eexists. split; [done|]. by constructor.
Qed.

Lemma digit_not_x c : isdigit c = true → is_x c = false.
Proof.
  intros Hd. unfold is_x.
  destruct (bool_decide_reflect (c = "x"%char)) as [->|]; [done|].
  destruct (bool_decide_reflect (c = "X"%char)) as [->|]; done.
Qed.

Lemma digit_not_bracket c : isdigit c = true → c ≠ "["%char.
Proof. by intros Hd ->. Qed.

Lemma digit_not_plain c : isdigit c = true → is_plain c = false.
Proof. intros Hd. unfold is_plain. by rewrite Hd. Qed.

(** A run of digits alone is one per-run counter: its width is the length
    of the run and its initial value the number written. *)
Lemma tokenize_digit_run digits :
  digits ≠ [] → Forall (λ c, isdecimal c = true) digits →
  tokenize_chars digits = Ok [D (length digits) (int digits)].
Proof.
  intros Hne Hall. destruct digits as [|ch s']; [done|].
  pose proof Hall as [Hch Hs']%Forall_cons.
  apply decimal_digit in Hch.
  assert (Forall (λ c, isdigit c = true) s') as Hs''.
  { eapply Forall_impl; [exact Hs'|]. intros c. apply decimal_digit. }
  rewrite tokenize_chars_cons.
  rewrite bool_decide_eq_false_2 by (by apply digit_not_bracket).
  rewrite (digit_not_x _ Hch), Hch, (run_length_all _ _ Hs'').
  rewrite firstn_all, drop_all. by rewrite cons_digits_decimal.
Qed.

End Tokenizer.

(** ** The renderer *)

Section Renderer.

Lemma append_cons c s t : String c s +:+ t = String c (s +:+ t).
Proof. reflexivity. Qed.

Lemma append_nil_l t : EmptyString +:+ t = t.
Proof. reflexivity. Qed.

Lemma append_nil_r s : s +:+ EmptyString = s.
Proof. induction s as [|c s IH]; [done|]. by rewrite append_cons, IH. Qed.

Lemma append_assoc s1 s2 s3 : (s1 +:+ s2) +:+ s3 = s1 +:+ (s2 +:+ s3).
Proof. induction s1 as [|c s1 IH]; [done|]. by rewrite !append_cons, IH. Qed.

Lemma length_append s1 s2 :
  String.length (s1 +:+ s2) = (String.length s1 + String.length s2)%nat.
Proof.
  induction s1 as [|c s1 IH]; [done|]. rewrite append_cons. simpl. by rewrite IH.
Qed.

Lemma length_zeros n : String.length (zeros n) = n.
Proof. unfold zeros. induction n as [|n IH]; simpl; [done|by rewrite IH]. Qed.

Lemma zfill_short width s :
  (width ≤ String.length s)%nat → zfill width s = s.
Proof.
  intros H. unfold zfill.
  by rewrite (proj2 (Nat.leb_le _ _) H).
Qed.

Lemma zfill_length width s :
  String.length (zfill width s) = Nat.max width (String.length s).
Proof.
  unfold zfill. destruct (Nat.leb_spec width (String.length s)) as [H|H].
  { lia. }
  fold (zeros (width - String.length s)).
  destruct s as [|c s'].
  { rewrite length_zeros. simpl. lia. }
  fold (is_sign c). simpl in H.
  destruct (is_sign c); simpl; rewrite length_append, length_zeros; simpl; lia.
Qed.

Lemma zfill_unsigned width c s' :
  is_sign c = false → (String.length (String c s') < width)%nat →
  zfill width (String c s')
  = zeros (width - String.length (String c s')) +:+ String c s'.
Proof.
  intros Hc H. unfold zfill.
  rewrite (proj2 (Nat.leb_gt _ _) H). by rewrite Hc.
Qed.

Lemma string_of_uint_head d :
  ∃ c s', NilZero.string_of_uint d = String c s' ∧ is_sign c = false.
Proof. destruct d; simpl; eauto. Qed.

Lemma str_nonneg_head v :
  0 ≤ v → ∃ c s', str v = String c s' ∧ is_sign c = false.
Proof.
  intros Hv. unfold str. destruct v as [|p|p]; simpl; [eauto| |lia].
  apply string_of_uint_head.
Qed.

(** The text of a counter segment obeys the width rule. *)
Lemma counter_text_padded width v :
  zero_padded width v
    (if (1 <? width)%nat then zfill width (str v) else str v).
Proof.
  unfold zero_padded. split_and!.
  - intros H. by rewrite (proj2 (Nat.ltb_ge _ _) H).
  - intros H. rewrite (proj2 (Nat.ltb_lt _ _) H). split.
    + apply zfill_length.
    + intros Hv. destruct (str_nonneg_head v Hv) as (c & s' & Hs & Hc).
      destruct (Nat.le_gt_cases width (String.length (str v))) as [Hle|Hgt].
      * rewrite zfill_short by done.
        replace (width - String.length (str v))%nat with 0%nat by lia.
        done.
      * rewrite Hs in *. by apply zfill_unsigned.
  - intros H. destruct (1 <? width)%nat; [by apply zfill_short|done].
Qed.

Lemma count_d_segments_cons seg segs :
  count_d_segments (seg :: segs)
  = ((if is_d seg then 1 else 0) + count_d_segments segs)%nat.
Proof.
  unfold count_d_segments. rewrite filter_cons.
  destruct (is_d seg); case_decide; done.
Qed.

Lemma count_d_segments_app segs1 segs2 :
  count_d_segments (segs1 ++ segs2)
  = (count_d_segments segs1 + count_d_segments segs2)%nat.
Proof.
  unfold count_d_segments. by rewrite filter_app, length_app.
Qed.

(** Rendering concatenates the segment outputs in order; the cursor into
    the per-run values moves by one for every digit segment passed. *)
Lemma render_loop_app segs1 segs2 x_val d_vals d_idx :
  render_loop (segs1 ++ segs2) x_val d_vals d_idx
  = o1 ← render_loop segs1 x_val d_vals d_idx;
    o2 ← render_loop segs2 x_val d_vals (d_idx + count_d_segments segs1);
    Some (o1 +:+ o2).
Proof.
  revert d_idx. induction segs1 as [|seg segs1 IH]; intros d_idx.
  - simpl. replace (d_idx + count_d_segments [])%nat with d_idx
      by (unfold count_d_segments; simpl; lia).
    by destruct (render_loop segs2 _ _ _).
  - rewrite <- app_comm_cons, count_d_segments_cons.
    destruct seg as [text|width|width start_val]; cbn [render_loop is_d].
    + rewrite IH. rewrite Nat.add_0_l.
      destruct (render_loop segs1 _ _ _) as [o1|]; simpl; [|done].
      destruct (render_loop segs2 _ _ _) as [o2|]; simpl; [|done].
      by rewrite append_assoc.
    + rewrite IH. rewrite Nat.add_0_l.
      destruct (render_loop segs1 _ _ _) as [o1|]; simpl; [|done].
      destruct (render_loop segs2 _ _ _) as [o2|]; simpl; [|done].
      by rewrite append_assoc.
    + destruct (d_vals !! d_idx) as [cur|]; simpl; [|done].
      rewrite IH.
      replace (S d_idx + count_d_segments segs1)%nat
        with (d_idx + (1 + count_d_segments segs1))%nat by lia.
      destruct (render_loop segs1 _ _ _) as [o1|]; simpl; [|done].
      destruct (render_loop segs2 _ _ _) as [o2|]; simpl; [|done].
      by rewrite append_assoc.
Qed.

(** The renderer succeeds when the per-run values cover the digit
    segments. *)
Lemma render_loop_total segs x_val d_vals d_idx :
  (d_idx + count_d_segments segs ≤ length d_vals)%nat →
  is_Some (render_loop segs x_val d_vals d_idx).
Proof.
  revert d_idx. induction segs as [|seg segs IH]; intros d_idx H.
  - by eexists.
  - rewrite count_d_segments_cons in H.
    destruct seg as [text|width|width start_val]; cbn [render_loop is_d] in *.
    + destruct (IH d_idx) as [o Ho]; [lia|]. rewrite Ho. by eexists.
    + destruct (IH d_idx) as [o Ho]; [lia|]. rewrite Ho. by eexists.
    + destruct (lookup_lt_is_Some_2 d_vals d_idx) as [cur Hcur]; [lia|].
      rewrite Hcur. simpl.
      destruct (IH (S d_idx)) as [o Ho]; [lia|]. rewrite Ho. by eexists.
Qed.

End Renderer.

(** ** The planner *)

Section PlannerFacts.

Lemma length_init_d_counters segs :
  length (init_d_counters segs) = count_d_segments segs.
Proof.
  induction segs as [|seg segs IH]; [done|].
  rewrite count_d_segments_cons. destruct seg; simpl; by rewrite IH.
Qed.

Lemma no_counter_spec segs :
  no_counter segs ↔ has_x_segment segs = false ∧ count_d_segments segs = 0%nat.
Proof.
  unfold no_counter, has_x_segment. induction segs as [|seg segs IH].
  { split; [done|constructor]. }
  rewrite Forall_cons, count_d_segments_cons, IH. cbn [existsb].
  rewrite orb_false_iff.
  destruct seg; simpl; split; intros H; destruct_and?; split_and?;
    done || lia.
Qed.

Lemma rendered_0 segs use_x x d :
  rendered segs use_x x d 0 = render_from_segments segs x d.
Proof.
  unfold rendered. f_equal.
  - destruct use_x; simpl; lia.
  - rewrite <- (list_fmap_id d) at 2. apply list_fmap_ext.
    intros _ v _. simpl. lia.
Qed.

Lemma rendered_S segs use_x x d i :
  rendered segs use_x (if use_x then x + 1 else x) ((λ v, v + 1) <$> d) i
  = rendered segs use_x x d (S i).
Proof.
  unfold rendered. f_equal.
  - destruct use_x; lia.
  - rewrite <- list_fmap_compose. apply list_fmap_ext.
    intros _ v _. simpl. lia.
Qed.

Lemma with_name_Ok p n dst :
  with_name p n = Ok dst ↔ valid_name n = true ∧ dst = sibling p n.
Proof.
  unfold with_name. destruct (valid_name n); split; try done.
  - by intros [= <-].
  - by intros [_ ->].
  - by intros [? _].
Qed.

Lemma d_counters_step (d_count : nat) (d : list Z) :
  length d = d_count →
  (if (0 <? d_count)%nat then (λ v, v + 1) <$> d else d) = (λ v, v + 1) <$> d.
Proof.
  intros Hlen. destruct (Nat.ltb_spec 0 d_count); [done|].
  destruct d; [done|simpl in *; lia].
Qed.

(** What the loop returns: the [i]-th candidate is rendered with every
    counter [i] steps past its initial value, the shared one moving only
    when in use, and the rendered name has passed [with_name]. *)
Lemma plan_loop_Ok segs use_x candidates x_counter d_counters pairs :
  length d_counters = count_d_segments segs →
  plan_loop segs use_x (count_d_segments segs) candidates x_counter d_counters
  = Ok pairs →
  pairs.*1 = candidates ∧
  ∀ (i : nat) p, candidates !! i = Some p →
    ∃ base,
      rendered segs use_x x_counter d_counters i = Some base ∧
      valid_name (base +:+ suffix p) = true ∧
      pairs !! i = Some (p, sibling p (base +:+ suffix p)).
Proof.
  revert x_counter d_counters pairs.
  induction candidates as [|p ps IH]; intros x d pairs Hlen Hp.
  { injection Hp as <-. by split. }
  cbn [plan_loop] in Hp.
  destruct (render_from_segments segs x d) as [base|] eqn:Hbase; [|done].
  destruct (with_name p (base +:+ suffix p)) as [dst|e] eqn:Hw; [|done].
  apply with_name_Ok in Hw as [Hv ->].
  rewrite d_counters_step in Hp by done.
  destruct (plan_loop _ _ _ ps _ _) as [rest|e] eqn:Hrest; [|done].
  injection Hp as <-.
  destruct (IH (if use_x then x + 1 else x) ((λ v, v + 1) <$> d) rest)
    as [Hfst Hi]; [by rewrite length_fmap|done|].
  split; [by rewrite fmap_cons, Hfst|].
  intros [|i] q Hq.
  - injection Hq as <-. exists base. by rewrite rendered_0.
  - destruct (Hi i q Hq) as (b & Hb & Hvb & Hpb). exists b.
    by rewrite <- rendered_S.
Qed.

(** The loop runs to the end when every rendered name is valid. *)
Lemma plan_loop_valid segs use_x candidates x_counter d_counters :
  length d_counters = count_d_segments segs →
  (∀ (i : nat) p base, candidates !! i = Some p →
     rendered segs use_x x_counter d_counters i = Some base →
     valid_name (base +:+ suffix p) = true) →
  ∃ pairs,
    plan_loop segs use_x (count_d_segments segs) candidates x_counter d_counters
    = Ok pairs.
Proof.
  revert x_counter d_counters.
  induction candidates as [|p ps IH]; intros x d Hlen Hvalid.
  { by exists []. }
  cbn [plan_loop].
  destruct (render_loop_total segs x d 0) as [base Hbase]; [simpl; lia|].
  fold (render_from_segments segs x d) in Hbase. rewrite Hbase.
  unfold with_name. rewrite (Hvalid 0%nat p base) by (by rewrite ?rendered_0).
  rewrite d_counters_step by done.
  destruct (IH (if use_x then x + 1 else x) ((λ v, v + 1) <$> d))
    as (pairs & ->).
  { by rewrite length_fmap. }
  { intros i q b Hq Hb. apply (Hvalid (S i) q b Hq). by rewrite <- rendered_S. }
  by eexists.
Qed.

Lemma plan_unfold segs start candidates :
  ¬ no_counter segs →
  plan segs start candidates
  = plan_loop segs (has_x_segment segs) (count_d_segments segs) candidates
              start (init_d_counters segs).
Proof.
  intros Hc. rewrite no_counter_spec in Hc. unfold plan.
  assert (negb (has_x_segment segs) && (count_d_segments segs =? 0)%nat = false)
    as ->; [|done].
  destruct (has_x_segment segs), (Nat.eqb_spec (count_d_segments segs) 0);
    naive_solver.
Qed.

Lemma plan_guard segs start candidates :
  plan segs start candidates = Err TemplateHasNoCounter ↔ no_counter segs.
Proof.
  split.
  - intros Hp.
    destruct (decide (Forall (λ g, is_lit g = true) segs)) as [|Hc]; [done|].
    change (¬ no_counter segs) in Hc.
    rewrite plan_unfold in Hp by done. exfalso. revert Hp.
    generalize (init_d_counters segs) as d, start as x.
    induction candidates as [|p ps IH]; intros d x; simpl; [done|].
    destruct (render_from_segments segs x d); [|done].
    unfold with_name. destruct (valid_name _); [|done].
    intros Hp. destruct (plan_loop _ _ _ ps _ _) eqn:E; [done|].
    injection Hp as ->. by eapply IH.
  - intros [Hx Hd]%no_counter_spec. unfold plan. by rewrite Hx, Hd.
Qed.

(** With a counter in the template, the plan is made when every rendered
    name is valid, and a plan that is made has one entry per candidate,
    each with the sibling of that name as its destination. *)
Lemma plan_spec segs start candidates :
  ¬ no_counter segs →
  (names_valid segs start candidates ↔
   ∃ pairs, plan segs start candidates = Ok pairs) ∧
  ∀ pairs, plan segs start candidates = Ok pairs →
    pairs.*1 = candidates ∧
    ∀ (i : nat) p, candidates !! i = Some p →
      ∃ base,
        rendered segs (has_x_segment segs) start (init_d_counters segs) i
        = Some base ∧
        pairs !! i = Some (p, sibling p (base +:+ suffix p)).
Proof.
  intros Hc. rewrite plan_unfold by done.
  pose proof (length_init_d_counters segs) as Hlen.
  split; [split|].
  - intros Hv. by apply plan_loop_valid.
  - intros (pairs & Hp) i p base Hi Hb.
    destruct (plan_loop_Ok _ _ _ _ _ _ Hlen Hp) as [_ Hall].
    destruct (Hall i p Hi) as (b & Hb' & Hv & _). congruence.
  - intros pairs Hp.
    destruct (plan_loop_Ok _ _ _ _ _ _ Hlen Hp) as [Hfst Hall].
    split; [done|]. intros i p Hi.
    destruct (Hall i p Hi) as (b & Hb & _ & Hpb). eauto.
Qed.

(** Every destination of a plan is a sibling of its source, so the
    destinations of candidates listed from one folder lie in that folder. *)
Lemma plan_parents segs start candidates pairs folder :
  plan segs start candidates = Ok pairs →
  Forall (λ p, parent p = folder) candidates →
  Forall (λ sd, parent sd.1 = folder ∧ parent sd.2 = folder) pairs.
Proof.
  unfold plan. destruct (_ && _); [done|].
  generalize (init_d_counters segs) as d, start as x. revert pairs.
  induction candidates as [|p ps IH]; intros pairs d x Hp Hall; simpl in Hp.
  { injection Hp as <-. constructor. }
  destruct (render_from_segments segs x d) as [base|]; [|done].
  destruct (with_name p _) as [dst|e] eqn:Hw; [|done].
  apply with_name_Ok in Hw as [_ ->].
  destruct (plan_loop _ _ _ ps _ _) as [rest|e] eqn:Hrest; [|done].
  injection Hp as <-. apply Forall_cons in Hall as [Hpar Hall].
  constructor; [done|]. by eapply IH.
Qed.

End PlannerFacts.

(** ** The rename engine *)

Section EngineFacts.

Lemma append_inj_r s1 s2 t : s1 +:+ t = s2 +:+ t → s1 = s2.
Proof.
  revert s2. induction s1 as [|c s1 IH]; intros [|c2 s2] H.
  - done.
  - apply (f_equal String.length) in H.
    rewrite append_cons, append_nil_l in H. simpl in H.
    rewrite length_append in H. lia.
  - apply (f_equal String.length) in H.
    rewrite append_cons, append_nil_l in H. simpl in H.
    rewrite length_append in H. lia.
  - rewrite !append_cons in H. injection H as -> H. f_equal. by apply IH.
Qed.

Lemma temp_path_inj stamp : Inj (=) (=) (temp_path stamp).
Proof.
  intros [d1 n1] [d2 n2]. unfold temp_path, sibling. simpl.
  intros [= -> H]. f_equal. by apply append_inj_r in H.
Qed.

Lemma bind_Ok {A B} (m : M A) (k : A → M B) w w' a :
  m w = (w', Ok a) → bind m k w = k a w'.
Proof. unfold bind. by intros ->. Qed.

Lemma bind_Err {A B} (m : M A) (k : A → M B) w w' e :
  m w = (w', Err e) → bind m k w = (w', Err e).
Proof. unfold bind. by intros ->. Qed.

Lemma for_cons {A} (x : A) l body w :
  for_ (x :: l) body w = bind (body x) (λ _, for_ l body) w.
Proof. reflexivity. Qed.

(** A loop of checks that only read the world: it passes when every
    element passes, and otherwise raises the error of the first element
    that fails; the world is the same in both cases. *)
Lemma for_readonly {A} (body : A → M unit) l w :
  (∀ x, x ∈ l → ∃ r, body x w = (w, r)) →
  (for_ l body w = (w, Ok tt) ∧ ∀ x, x ∈ l → body x w = (w, Ok tt))
  ∨ (∃ l1 x l2 e, l = l1 ++ x :: l2 ∧
       (∀ y, y ∈ l1 → body y w = (w, Ok tt)) ∧
       body x w = (w, Err e) ∧ for_ l body w = (w, Err e)).
Proof.
  induction l as [|x l IH]; intros Hro.
  { left. split; [done|]. intros x Hx. by apply elem_of_nil in Hx. }
  destruct (Hro x) as [[[]|e] Hx]; [by left| |].
  - destruct IH as [[Hall Hl]|(l1 & y & l2 & e & -> & Hl1 & Hy & Hf)].
    { intros y Hy. apply Hro. by right. }
    + left. split.
      * by rewrite for_cons, (bind_Ok _ _ _ _ _ Hx).
      * intros y [->|Hy]%elem_of_cons; [done|by apply Hl].
    + right. exists (x :: l1), y, l2, e. split_and!; [done| |done|].
      * intros z [->|Hz]%elem_of_cons; [done|by apply Hl1].
      * by rewrite for_cons, (bind_Ok _ _ _ _ _ Hx).
  - right. exists [], x, l, e. split_and!; [done| |done|].
    + intros y Hy. by apply elem_of_nil in Hy.
    + by rewrite for_cons, (bind_Err _ _ _ _ _ Hx).
Qed.

Lemma rename_Some frm to w f :
  files w !! frm = Some f →
  rename frm to w
  = (mkWorld (<[to := f]> (delete frm (files w)))
             (trace w ++ [SysRename frm to]), Ok tt).
Proof. unfold rename. by intros ->. Qed.

(** Sequential clean moves act as one simultaneous move. *)
Lemma for_rename_clean l w :
  clean_moves (files w) l →
  ∃ m',
    for_ l (λ st, rename st.1 st.2) w
    = (mkWorld m' (trace w ++ ((λ st, SysRename st.1 st.2) <$> l)), Ok tt) ∧
    (∀ a b, (a, b) ∈ l → m' !! b = files w !! a) ∧
    (∀ p, p ∈ l.*1 → p ∉ l.*2 → m' !! p = None) ∧
    (∀ p, p ∉ l.*1 → p ∉ l.*2 → m' !! p = files w !! p).
Proof.
  revert w. induction l as [|[a b] l IH]; intros [m tr] (Hn1 & Hn2 & Hl).
  { exists m. simpl. rewrite app_nil_r. split_and!; try done.
    intros a b Hin. by apply elem_of_nil in Hin. }
  simpl in Hn1, Hn2, Hl. cbn [files trace]. rewrite !fmap_cons. cbn [fst snd].
  apply NoDup_cons in Hn1 as [Ha Hn1]. apply NoDup_cons in Hn2 as [Hb Hn2].
  destruct (Hl a b) as [[f Hf] Hab]; [by left|].
  assert (∀ x y, (x, y) ∈ l → x ≠ a ∧ y ≠ b ∧ x ≠ b) as Hne.
  { intros x y Hxy.
    assert (x ∈ l.*1) as Hx1 by (apply list_elem_of_fmap; by exists (x, y)).
    assert (y ∈ l.*2) as Hy2 by (apply list_elem_of_fmap; by exists (x, y)).
    split_and!; [by intros -> | by intros -> |].
    intros ->. destruct (Hl b y) as [Hsb _]; [by right|].
    apply Hab in Hsb as ->. done. }
  set (w1 := mkWorld (<[b := f]> (delete a m)) (tr ++ [SysRename a b])).
  destruct (IH w1) as (m' & Hrun & Hmv & Hsrc & Hoth).
  { split_and!; [done..|]. intros x y Hxy.
    destruct (Hne x y Hxy) as (Hxa & Hyb & Hxb).
    destruct (Hl x y) as [Hsx Hsy]; [by right|].
    subst w1; simpl. split.
    - by rewrite lookup_insert_ne, lookup_delete_ne.
    - rewrite lookup_insert_ne by done. intros Hs.
      destruct (decide (a = y)) as [<-|Hay].
      + rewrite lookup_delete_eq in Hs. by destruct Hs.
      + rewrite lookup_delete_ne in Hs by done. by apply Hsy. }
  exists m'. split_and!.
  - rewrite for_cons. cbn [fst snd].
    rewrite (bind_Ok _ _ _ w1 tt) by (by apply rename_Some).
    rewrite Hrun. subst w1; simpl. by rewrite <- app_assoc.
  - intros x y [[= -> ->]|Hxy]%elem_of_cons.
    + assert (b ∉ l.*1) as Hb1.
      { intros (xy & Heq & Hin)%list_elem_of_fmap. destruct xy as [x y].
        simpl in Heq. subst x. by destruct (Hne b y Hin) as (_ & _ & ?). }
      rewrite Hoth by done. subst w1; simpl.
      by rewrite lookup_insert_eq.
    + destruct (Hne x y Hxy) as (Hxa & Hyb & Hxb).
      rewrite (Hmv x y Hxy). subst w1; simpl.
      by rewrite lookup_insert_ne, lookup_delete_ne.
  - intros p Hp1 Hp2. apply not_elem_of_cons in Hp2 as [Hpb Hp2].
    apply elem_of_cons in Hp1 as [->|Hp1]; [|by apply Hsrc].
    rewrite Hoth by done. subst w1; simpl.
    by rewrite lookup_insert_ne, lookup_delete_eq.
  - intros p Hp1 Hp2. apply not_elem_of_cons in Hp1 as [Hpa Hp1].
    apply not_elem_of_cons in Hp2 as [Hpb Hp2].
    rewrite Hoth by done. subst w1; simpl.
    by rewrite lookup_insert_ne, lookup_delete_ne.
Qed.

(** *** The collision guard *)

Lemma size_list_to_set_le (l : list string) :
  (size (list_to_set l : gset string) ≤ length l)%nat.
Proof.
  induction l as [|x l IH]; simpl.
  - done.
  - destruct (decide (x ∈ l)) as [Hin|Hni].
    + replace ({[x]} ∪ list_to_set l : gset string)
        with (list_to_set l : gset string) by set_solver.
      lia.
    + rewrite size_union, size_singleton by set_solver. lia.
Qed.

(** [len(set(targets)) == len(targets)] holds exactly for lists without
    duplicates. *)
Lemma size_list_to_set_NoDup (l : list string) :
  size (list_to_set l : gset string) = length l ↔ NoDup l.
Proof.
  split; [|apply size_list_to_set].
  induction l as [|x l IH]; simpl; intros Hsz; [constructor|].
  destruct (decide (x ∈ l)) as [Hin|Hni].
  - exfalso. pose proof (size_list_to_set_le l).
    replace ({[x]} ∪ list_to_set l : gset string) with (list_to_set l : gset string)
      in Hsz by set_solver.
    lia.
  - rewrite size_union, size_singleton in Hsz by set_solver.
    constructor; [done|]. apply IH. lia.
Qed.

Lemma target_names pairs :
  (λ sd : Path * Path, name sd.2) <$> pairs = name <$> pairs.*2.
Proof. by rewrite <- list_fmap_compose. Qed.

Lemma ensure_no_collisions_dup pairs w :
  ¬ NoDup (name <$> pairs.*2) →
  ensure_no_collisions pairs w = (w, Err DuplicateTarget).
Proof.
  intros Hd. unfold ensure_no_collisions. rewrite target_names.
  rewrite bool_decide_eq_true_2; [done|].
  by rewrite size_list_to_set_NoDup.
Qed.

Lemma check_target_run (src_set : gset Path) (sd : Path * Path) w :
  bind get (λ w',
    if exists_ sd.2 w' && bool_decide (resolve sd.2 ∉ src_set)
    then raise (TargetAlreadyExists (name sd.2))
    else ret tt) w
  = (w, if exists_ sd.2 w && bool_decide (resolve sd.2 ∉ src_set)
        then Err (TargetAlreadyExists (name sd.2)) else Ok tt).
Proof. unfold bind, get. simpl. by destruct (_ && _). Qed.

(** The guard without duplicate names: the loop over the targets. *)
Lemma ensure_no_collisions_nodup pairs w :
  NoDup (name <$> pairs.*2) →
  (ensure_no_collisions pairs w = (w, Ok tt) ∧
   ∀ d, d ∈ pairs.*2 → is_Some (files w !! d) → d ∈ pairs.*1)
  ∨ (∃ d, d ∈ pairs.*2 ∧ is_Some (files w !! d) ∧ (d ∉ pairs.*1) ∧
       ensure_no_collisions pairs w
       = (w, Err (TargetAlreadyExists (name d)))).
Proof.
  intros Hn. unfold ensure_no_collisions. rewrite target_names.
  rewrite bool_decide_eq_false_2
    by (by intros H; apply H, size_list_to_set_NoDup).
  set (src_set := list_to_set ((λ sd : Path * Path, resolve sd.1) <$> pairs)
                  : gset Path).
  assert (∀ p, p ∈ src_set ↔ p ∈ pairs.*1) as Hsrc.
  { intros p. unfold src_set. by rewrite elem_of_list_to_set. }
  match goal with |- context [for_ pairs ?b w] => set (body := b) end.
  assert (∀ sd, body sd w
    = (w, if exists_ sd.2 w && bool_decide (resolve sd.2 ∉ src_set)
          then Err (TargetAlreadyExists (name sd.2)) else Ok tt)) as Hbody.
  { intros sd. apply check_target_run. }
  destruct (for_readonly body pairs w) as
    [[Hrun Hall]|(l1 & sd & l2 & e & Hl & _ & Hsd & Hrun)].
  { intros sd _. rewrite Hbody. by eexists. }
  - left. split; [done|]. intros d (sd & -> & Hin)%list_elem_of_fmap Hex.
    specialize (Hall sd Hin). rewrite Hbody in Hall.
    destruct (decide (sd.2 ∈ pairs.*1)) as [|Hni]; [done|exfalso].
    unfold exists_, resolve in Hall.
    rewrite bool_decide_eq_true_2 in Hall by done.
    rewrite bool_decide_eq_true_2 in Hall by (by rewrite Hsrc).
    simpl in Hall. congruence.
  - right. rewrite Hbody in Hsd. exists sd.2.
    unfold exists_, resolve in Hsd.
    destruct (bool_decide (is_Some (files w !! sd.2))) eqn:Hex;
      [|simpl in Hsd; congruence].
    destruct (bool_decide (sd.2 ∉ src_set)) eqn:Hni;
      [|simpl in Hsd; congruence].
    apply bool_decide_eq_true_1 in Hex, Hni. rewrite Hsrc in Hni.
    simpl in Hsd. injection Hsd as <-.
    split_and!; [|done..].
    apply list_elem_of_fmap. exists sd. split; [done|].
    rewrite Hl. apply elem_of_app. right. by left.
Qed.

(** The guard never changes the world. *)
Lemma ensure_no_collisions_readonly pairs w :
  (ensure_no_collisions pairs w).1 = w.
Proof.
  destruct (decide (NoDup (name <$> pairs.*2))) as [Hn|Hn].
  - destruct (ensure_no_collisions_nodup pairs w Hn)
      as [[-> _]|(d & _ & _ & _ & ->)]; done.
  - by rewrite ensure_no_collisions_dup.
Qed.

(** What an accepted plan guarantees. *)
Lemma ensure_no_collisions_Ok pairs w :
  ensure_no_collisions pairs w = (w, Ok tt) →
  NoDup (name <$> pairs.*2) ∧ plan_valid (files w) pairs.
Proof.
  intros Hok.
  destruct (decide (NoDup (name <$> pairs.*2))) as [Hn|Hn].
  - split; [done|]. split; [by eapply NoDup_fmap_1|].
    destruct (ensure_no_collisions_nodup pairs w Hn)
      as [[_ H]|(d & _ & _ & _ & Hr)]; [done|congruence].
  - rewrite ensure_no_collisions_dup in Hok by done. congruence.
Qed.

(** In one directory, equal names are equal paths. *)
Lemma same_parent_names (l : list Path) :
  (∀ d d', d ∈ l → d' ∈ l → parent d = parent d') →
  NoDup (name <$> l) ↔ NoDup l.
Proof.
  intros Hp. split; [apply NoDup_fmap_1|].
  apply NoDup_fmap_2_strong. intros [d1 n1] [d2 n2] H1 H2 Hn.
  specialize (Hp _ _ H1 H2). simpl in *. congruence.
Qed.

(** *** The two-phase rename *)

Lemma two_phase_rename_dry pairs stamp w :
  two_phase_rename pairs true stamp w
  = (w, Ok ((λ sd, mkEntry sd.1 sd.2) <$> pairs)).
Proof. reflexivity. Qed.

Lemma elem_of_temps stamp (l : list Path) p :
  p ∈ temp_path stamp <$> l ↔ ∃ s, p = temp_path stamp s ∧ s ∈ l.
Proof. apply list_elem_of_fmap. Qed.

Lemma elem_of_fsts (pairs : list (Path * Path)) s d :
  (s, d) ∈ pairs → s ∈ pairs.*1 ∧ d ∈ pairs.*2.
Proof. intros H. split; apply list_elem_of_fmap; by exists (s, d). Qed.

(** On a ready and valid plan both phases run to the end, and the files
    move from the sources to the destinations all at once. *)
Lemma two_phase_rename_run pairs stamp w :
  plan_ready (files w) stamp pairs → plan_valid (files w) pairs →
  ∃ m2,
    two_phase_rename pairs false stamp w
    = (mkWorld m2 (trace w ++ phase1_calls stamp pairs
                           ++ phase2_calls stamp pairs),
       Ok ((λ sd, mkEntry sd.1 sd.2) <$> pairs)) ∧
    (∀ s d, (s, d) ∈ pairs → m2 !! d = files w !! s) ∧
    (∀ p, p ∈ pairs.*1 → p ∉ pairs.*2 → m2 !! p = None) ∧
    (∀ p, p ∉ pairs.*1 → p ∉ pairs.*2 → m2 !! p = files w !! p).
Proof.
  intros (Hnd1 & Hex & Htmp) (Hnd2 & Hval).
  set (l1 := (λ sd : Path * Path, (sd.1, temp_path stamp sd.1)) <$> pairs).
  set (l2 := (λ sd : Path * Path, (temp_path stamp sd.1, sd.2)) <$> pairs).
  assert (l1.*1 = pairs.*1) as Hl11 by (unfold l1; by rewrite <- list_fmap_compose).
  assert (l1.*2 = temp_path stamp <$> pairs.*1) as Hl12
    by (unfold l1; by rewrite <- !list_fmap_compose).
  assert (l2.*1 = temp_path stamp <$> pairs.*1) as Hl21
    by (unfold l2; by rewrite <- !list_fmap_compose).
  assert (l2.*2 = pairs.*2) as Hl22 by (unfold l2; by rewrite <- list_fmap_compose).
  assert (NoDup (temp_path stamp <$> pairs.*1)) as Hndt.
  { apply NoDup_fmap_2; [apply temp_path_inj|done]. }
  assert (∀ s, s ∈ pairs.*1 → s ∉ temp_path stamp <$> pairs.*1) as Hst.
  { intros s Hs (s' & -> & Hs')%elem_of_temps.
    destruct (Htmp s' Hs') as [Hnone _]. destruct (Hex _ Hs) as [f Hf].
    congruence. }
  assert (∀ d, d ∈ pairs.*2 → d ∉ temp_path stamp <$> pairs.*1) as Hdt.
  { intros d Hd (s' & -> & Hs')%elem_of_temps.
    by destruct (Htmp s' Hs') as [_ Hni]. }
  destruct (for_rename_clean l1 w) as (m1 & Hrun1 & H1a & H1b & H1c).
  { split_and!; [by rewrite Hl11|by rewrite Hl12|].
    intros a b (sd & [= -> ->] & Hsd)%list_elem_of_fmap.
    assert (sd.1 ∈ pairs.*1) as Hs by (apply list_elem_of_fmap; eauto).
    split; [by apply Hex|]. intros [f Hf].
    destruct (Htmp _ Hs) as [Hnone _]. congruence. }
  rewrite Hl11, Hl12 in *.
  set (w1 := mkWorld m1 (trace w ++ ((λ st : Path * Path, SysRename st.1 st.2) <$> l1))) in *.
  assert (∀ s d, (s, d) ∈ pairs → m1 !! temp_path stamp s = files w !! s) as H1a'.
  { intros s d Hsd. apply H1a. apply list_elem_of_fmap. by exists (s, d). }
  assert (∀ d, d ∈ pairs.*2 → m1 !! d = None) as H1d.
  { intros d Hd. destruct (decide (d ∈ pairs.*1)) as [Hs|Hs].
    - apply H1b; [done|by apply Hst].
    - rewrite H1c; [|done|by apply Hdt].
      destruct (files w !! d) eqn:Hfd; [|done].
      exfalso. apply Hs, Hval; [done|by eexists]. }
  destruct (for_rename_clean l2 w1) as (m2 & Hrun2 & H2a & H2b & H2c).
  { split_and!; [by rewrite Hl21|by rewrite Hl22|].
    intros a b (sd & [= -> ->] & Hsd)%list_elem_of_fmap. destruct sd as [s d].
    destruct (elem_of_fsts _ _ _ Hsd) as [Hs Hd]. subst w1; simpl. split.
    - rewrite (H1a' s d Hsd). by apply Hex.
    - rewrite (H1d d Hd). by intros [? ?]. }
  rewrite Hl21, Hl22 in *.
  exists m2. split_and!.
  - unfold two_phase_rename. cbn [negb].
    fold l1 l2. rewrite (bind_Ok _ _ _ w1 tt) by done.
    rewrite (bind_Ok _ _ _ _ tt) by exact Hrun2.
    unfold ret, phase1_calls, phase2_calls. subst w1 l1 l2. simpl.
    by rewrite <- !list_fmap_compose, <- app_assoc.
  - intros s d Hsd. rewrite <- (H1a' s d Hsd).
    apply (H2a (temp_path stamp s) d).
    apply list_elem_of_fmap. by exists (s, d).
  - intros p Hs Hd. rewrite H2c; [|by apply Hst|done].
    subst w1; simpl. apply H1b; [done|by apply Hst].
  - intros p Hs Hd.
    destruct (decide (p ∈ temp_path stamp <$> pairs.*1)) as [Ht|Ht].
    + rewrite H2b by done. apply elem_of_temps in Ht as (s' & -> & Hs').
      by destruct (Htmp s' Hs') as [-> _].
    + rewrite H2c by done. subst w1; simpl. by apply H1c.
Qed.

(** Whatever happens, the renames performed are an initial part of phase
    one followed by phase two. *)
Lemma for_rename_trace l w :
  ∃ calls,
    trace (for_ l (λ st : Path * Path, rename st.1 st.2) w).1
    = trace w ++ calls ∧
    calls `prefix_of` ((λ st : Path * Path, SysRename st.1 st.2) <$> l) ∧
    ((for_ l (λ st, rename st.1 st.2) w).2 = Ok tt →
     calls = (λ st : Path * Path, SysRename st.1 st.2) <$> l).
Proof.
  revert w. induction l as [|[a b] l IH]; intros w.
  { exists []. simpl. by rewrite app_nil_r. }
  rewrite for_cons. cbn [fst snd]. unfold bind at 1 2.
  unfold rename at 1 3. destruct (files w !! a) as [f|] eqn:Hf.
  - match goal with |- context [for_ l _ ?w'] => destruct (IH w') as (calls & Htr & Hpre & Hok) end.
    exists (SysRename a b :: calls). rewrite Htr. simpl.
    split_and!; [by rewrite <- app_assoc|by apply prefix_cons|].
    intros H. by rewrite Hok.
  - exists []. simpl. rewrite app_nil_r. split_and!; [done|apply prefix_nil|done].
Qed.

Lemma two_phase_rename_trace pairs stamp w :
  ∃ calls,
    trace (two_phase_rename pairs false stamp w).1 = trace w ++ calls ∧
    calls `prefix_of` (phase1_calls stamp pairs ++ phase2_calls stamp pairs) ∧
    (∀ mapping, (two_phase_rename pairs false stamp w).2 = Ok mapping →
       calls = phase1_calls stamp pairs ++ phase2_calls stamp pairs ∧
       mapping = (λ sd, mkEntry sd.1 sd.2) <$> pairs).
Proof.
  unfold two_phase_rename. cbn [negb].
  set (l1 := (λ sd : Path * Path, (sd.1, temp_path stamp sd.1)) <$> pairs).
  set (l2 := (λ sd : Path * Path, (temp_path stamp sd.1, sd.2)) <$> pairs).
  assert ((λ st : Path * Path, SysRename st.1 st.2) <$> l1
          = phase1_calls stamp pairs) as Hc1
    by (unfold l1, phase1_calls; by rewrite <- list_fmap_compose).
  assert ((λ st : Path * Path, SysRename st.1 st.2) <$> l2
          = phase2_calls stamp pairs) as Hc2
    by (unfold l2, phase2_calls; by rewrite <- list_fmap_compose).
  destruct (for_rename_trace l1 w) as (c1 & Ht1 & Hp1 & Hok1).
  destruct (for_ l1 (λ st : Path * Path, rename st.1 st.2) w)
    as [w1 [[]|e]] eqn:E1; simpl in Ht1, Hok1.
  - rewrite (bind_Ok _ _ _ _ _ E1).
    specialize (Hok1 eq_refl). subst c1.
    destruct (for_rename_trace l2 w1) as (c2 & Ht2 & Hp2 & Hok2).
    destruct (for_ l2 (λ st : Path * Path, rename st.1 st.2) w1)
      as [w2 [[]|e]] eqn:E2; simpl in Ht2, Hok2.
    + rewrite (bind_Ok _ _ _ _ _ E2). unfold ret. simpl.
      specialize (Hok2 eq_refl). subst c2.
      exists (phase1_calls stamp pairs ++ phase2_calls stamp pairs).
      rewrite Ht2, Ht1, Hc1, Hc2, <- app_assoc.
      split_and!; [done..|]. by intros mapping [= <-].
    + rewrite (bind_Err _ _ _ _ _ E2). simpl.
      exists (phase1_calls stamp pairs ++ c2).
      rewrite Ht2, Ht1, Hc1, <- app_assoc.
      split_and!; [done| |done].
      rewrite <- Hc2. by apply prefix_app.
  - rewrite (bind_Err _ _ _ _ _ E1). simpl.
    exists c1. split_and!; [done| |done].
    rewrite <- Hc1. by apply prefix_app_r.
Qed.

(** A swap of two files goes through: each ends under the name of the
    other. *)
Lemma two_phase_rename_swap a b fa fb stamp w :
  a ≠ b → files w !! a = Some fa → files w !! b = Some fb →
  files w !! temp_path stamp a = None →
  files w !! temp_path stamp b = None →
  ∃ w',
    two_phase_rename [(a, b); (b, a)] false stamp w
    = (w', Ok [mkEntry a b; mkEntry b a]) ∧
    files w' = <[a := fb]> (<[b := fa]> (files w)).
Proof.
  intros Hab Ha Hb Hta Htb.
  destruct (two_phase_rename_run [(a, b); (b, a)] stamp w)
    as (m2 & Hrun & Hmv & Hsrc & Hoth).
  { split_and!.
    - simpl. repeat constructor; set_solver.
    - intros s Hs. simpl in Hs.
      apply elem_of_cons in Hs as [->|Hs]; [by eexists|].
      apply elem_of_cons in Hs as [->|Hs]; [by eexists|].
      by apply elem_of_nil in Hs.
    - intros s Hs. simpl in Hs.
      assert (s = a ∨ s = b) as [->| ->] by set_solver.
      + split; [done|]. simpl. intros Hin.
        assert (temp_path stamp a = b ∨ temp_path stamp a = a) as [He|He]
          by set_solver; congruence.
      + split; [done|]. simpl. intros Hin.
        assert (temp_path stamp b = b ∨ temp_path stamp b = a) as [He|He]
          by set_solver; congruence. }
  { split.
    - simpl. repeat constructor; set_solver.
    - intros d Hd _. simpl in *. set_solver. }
  eexists. split; [exact Hrun|]. simpl. apply map_eq. intros p.
  destruct (decide (p = a)) as [->|Hpa].
  { rewrite lookup_insert_eq, <- Hb. apply Hmv. set_solver. }
  rewrite lookup_insert_ne by done.
  destruct (decide (p = b)) as [->|Hpb].
  { rewrite lookup_insert_eq, <- Ha. apply Hmv. set_solver. }
  rewrite lookup_insert_ne by done.
  apply Hoth; simpl; set_solver.
Qed.

(** *** Undo *)


Lemma undo_check_run (ft : Path * Path) w :
  bind get (λ w',
    if negb (exists_ ft.1 w') then raise (UndoSourceMissing ft.1)
    else if exists_ ft.2 w' && bool_decide (ft.2 ≠ ft.1)
    then raise (UndoTargetExists ft.2)
    else ret tt) w
  = (w, if negb (exists_ ft.1 w) then Err (UndoSourceMissing ft.1)
        else if exists_ ft.2 w && bool_decide (ft.2 ≠ ft.1)
        then Err (UndoTargetExists ft.2) else Ok tt).
Proof. unfold bind, get. simpl. by repeat case_match. Qed.

Lemma undo_check_Ok item w :
  bind get (λ w',
    if negb (exists_ (log_dst item) w')
    then raise (UndoSourceMissing (log_dst item))
    else if exists_ (log_src item) w'
            && bool_decide (log_src item ≠ log_dst item)
    then raise (UndoTargetExists (log_src item))
    else ret tt) w = (w, Ok tt)
  ↔ undo_check_ok (files w) item.
Proof.
  rewrite (undo_check_run (log_dst item, log_src item)). cbn [fst snd].
  unfold undo_check_ok, exists_.
  destruct (decide (is_Some (files w !! log_dst item))) as [Hd|Hd].
  2:{ rewrite (bool_decide_eq_false_2 _ Hd). simpl. split; [done|]. by intros [? _]. }
  rewrite (bool_decide_eq_true_2 _ Hd). simpl.
  destruct (decide (is_Some (files w !! log_src item))) as [Hs|Hs].
  2:{ rewrite (bool_decide_eq_false_2 _ Hs). simpl. split; [|done].
      intros _. split; [done|]. by intros ?. }
  rewrite (bool_decide_eq_true_2 _ Hs). simpl.
  destruct (decide (log_src item = log_dst item)) as [He|He].
  - rewrite bool_decide_eq_false_2 by (intros H; by apply H). by split.
  - rewrite bool_decide_eq_true_2 by done. split; [done|].
    intros [_ H]. by apply H in Hs.
Qed.

Lemma undo_ops_elem (pairs : list LogEntry) ft :
  ft ∈ (λ item, (log_dst item, log_src item)) <$> reverse pairs ↔
  ∃ item, ft = (log_dst item, log_src item) ∧ item ∈ pairs.
Proof.
  rewrite list_elem_of_fmap. by setoid_rewrite elem_of_reverse.
Qed.

(** When every pre-check passes, [undo] goes on to the renames (or to the
    report of a dry run). *)
Lemma undo_pairs_checked pairs dry_run w :
  (∀ item, item ∈ pairs → undo_check_ok (files w) item) →
  undo_pairs pairs dry_run w
  = if dry_run then (w, Ok tt)
    else for_ ((λ item, (log_dst item, log_src item)) <$> reverse pairs)
              (λ ft, rename ft.1 ft.2) w.
Proof.
  intros Hall. unfold undo_pairs.
  match goal with |- bind (for_ ?l ?b) _ _ = _ =>
    destruct (for_readonly b l w) as
      [[Hrun _]|(l1 & ft & l2 & e & Hl & _ & Hft & _)] end.
  { intros ft _. rewrite undo_check_run. by eexists. }
  - rewrite (bind_Ok _ _ _ _ _ Hrun). by destruct dry_run.
  - exfalso.
    assert (ft ∈ (λ item, (log_dst item, log_src item)) <$> reverse pairs)
      as (item & -> & Hin)%undo_ops_elem.
    { rewrite Hl. apply elem_of_app. right. by left. }
    apply Hall, undo_check_Ok in Hin. cbn [fst snd] in Hft. congruence.
Qed.

(** When a pre-check fails, [undo] stops there: the world is untouched. *)
Lemma undo_pairs_rejected pairs dry_run w item :
  item ∈ pairs → ¬ undo_check_ok (files w) item →
  ∃ e bad,
    undo_pairs pairs dry_run w = (w, Err e) ∧
    bad ∈ pairs ∧ ¬ undo_check_ok (files w) bad ∧
    (e = UndoSourceMissing (log_dst bad) ∨ e = UndoTargetExists (log_src bad)).
Proof.
  intros Hin Hbad. unfold undo_pairs.
  match goal with |- context [bind (for_ ?l ?b) _ _] =>
    destruct (for_readonly b l w) as
      [[_ Hall]|(l1 & ft & l2 & e & Hl & _ & Hft & Hrun)] end.
  { intros ft _. rewrite undo_check_run. by eexists. }
  - exfalso. apply Hbad, undo_check_Ok.
    apply (Hall (log_dst item, log_src item)), undo_ops_elem. eauto.
  - assert (ft ∈ (λ item, (log_dst item, log_src item)) <$> reverse pairs)
      as (bad & -> & Hb)%undo_ops_elem.
    { rewrite Hl. apply elem_of_app. right. by left. }
    exists e, bad. rewrite (bind_Err _ _ _ _ _ Hrun).
    split_and!; [done..| |].
    + intros Hok%undo_check_Ok. cbn [fst snd] in Hft. congruence.
    + rewrite undo_check_run in Hft. cbn [fst snd] in Hft.
      repeat case_match; naive_solver.
Qed.


End EngineFacts.

(** ** [main] up to the first failure *)

Section MainFacts.

Lemma chars_append a b :
  list_ascii_of_string (a +:+ b)
  = list_ascii_of_string a ++ list_ascii_of_string b.
Proof.
  induction a as [|c a IH]; [done|]. rewrite append_cons. simpl. by rewrite IH.
Qed.

Lemma main_rename_tokenize_err folder tpl start candidates dry_run
    stamp ts created_at w e :
  tokenize_template tpl = Err e →
  main_rename folder tpl start candidates dry_run stamp ts created_at w
  = (w, Err e).
Proof. intros H. unfold main_rename, bind, lift. by rewrite H. Qed.

Lemma main_rename_plan_err folder tpl start candidates dry_run
    stamp ts created_at w segs e :
  tokenize_template tpl = Ok segs →
  plan segs start candidates = Err e →
  main_rename folder tpl start candidates dry_run stamp ts created_at w
  = (w, Err e).
Proof. intros H1 H2. unfold main_rename, bind, lift. by rewrite H1, H2. Qed.

Lemma main_rename_collision folder tpl start candidates dry_run
    stamp ts created_at w segs pairs e :
  tokenize_template tpl = Ok segs →
  plan segs start candidates = Ok pairs →
  (ensure_no_collisions pairs w).2 = Err e →
  main_rename folder tpl start candidates dry_run stamp ts created_at w
  = (w, Err e).
Proof.
  intros H1 H2 H3. pose proof (ensure_no_collisions_readonly pairs w) as Hro.
  unfold main_rename, bind, lift. rewrite H1, H2.
  destruct (ensure_no_collisions pairs w) as [w' r]. simpl in *. by subst.
Qed.

Lemma main_rename_dry folder tpl start candidates stamp ts created_at w :
  (main_rename folder tpl start candidates true stamp ts created_at w).1 = w.
Proof.
  unfold main_rename, bind, lift.
  destruct (tokenize_template tpl) as [segs|e]; [|done].
  destruct (plan segs start candidates) as [pairs|e]; [|done].
  pose proof (ensure_no_collisions_readonly pairs w) as Hro.
  destruct (ensure_no_collisions pairs w) as [w' [[]|e]]; simpl in *; by subst.
Qed.

Lemma suffix_chars p c :
  c ∈ list_ascii_of_string (suffix p) → c ∈ list_ascii_of_string (name p).
Proof.
  unfold suffix.
  destruct (rfind "."%char (list_ascii_of_string (name p))) as [i|];
    [|by intros ?%elem_of_nil].
  destruct (_ && _); [|by intros ?%elem_of_nil].
  rewrite list_ascii_of_string_of_list_ascii. intros Hc.
  eapply elem_of_sublist; [exact Hc|apply sublist_drop].
Qed.

Lemma valid_name_spec n :
  valid_name n = true ↔
  n ≠ EmptyString ∧ "/"%char ∉ list_ascii_of_string n ∧ n ≠ "."%string.
Proof.
  unfold valid_name. rewrite !andb_true_iff, !negb_true_iff.
  rewrite !bool_decide_eq_false. naive_solver.
Qed.

(** A base that starts with a character other than the dot and holds no
    separator makes a valid name with the extension of a directory entry. *)
Lemma valid_rendered_name p base c rest :
  valid_path p →
  base = String c rest → c ≠ "."%char →
  "/"%char ∉ list_ascii_of_string base →
  valid_name (base +:+ suffix p) = true.
Proof.
  intros Hp -> Hc Hsep. apply valid_name_spec. split_and!.
  - by rewrite append_cons.
  - rewrite chars_append. intros [Hin|Hin]%elem_of_app; [done|].
    apply suffix_chars in Hin.
    by apply valid_name_spec in Hp as (_ & Hp & _).
  - rewrite append_cons. intros [= -> _]. done.
Qed.

Lemma str_nonempty v : str v ≠ EmptyString.
Proof.
  unfold str. destruct v as [|q|q]; simpl; [done| |done].
  by destruct (string_of_uint_head (Pos.to_uint q)) as (c & s' & -> & _).
Qed.

Lemma counter_text_nonempty width v :
  (if (1 <? width)%nat then zfill width (str v) else str v) ≠ EmptyString.
Proof.
  pose proof (str_nonempty v) as Hs.
  destruct (1 <? width)%nat; [|done].
  intros He. pose proof (zfill_length width (str v)) as Hl.
  rewrite He in Hl. simpl in Hl.
  destruct (str v); [done|simpl in Hl; lia].
Qed.




Lemma string_of_uint_chars d c :
  c ∈ list_ascii_of_string (NilEmpty.string_of_uint d) → isdecimal c = true.
Proof.
  induction d as [|d IH|d IH|d IH|d IH|d IH|d IH|d IH|d IH|d IH|d IH]; simpl;
    intros H; [by apply elem_of_nil in H|..];
    (apply elem_of_cons in H as [->|H]; [reflexivity|by apply IH]).
Qed.

Lemma str_chars v c : c ∈ list_ascii_of_string (str v) → counter_char c.
Proof.
  assert (∀ d, c ∈ list_ascii_of_string (NilZero.string_of_uint d) →
               isdecimal c = true) as Hu.
  { intros d. destruct d; try apply string_of_uint_chars.
    simpl. intros H. apply list_elem_of_singleton in H as ->. reflexivity. }
  unfold str. destruct (Z.to_int v) as [d|d]; simpl.
  - intros H. left. by apply (Hu d).
  - intros H. apply elem_of_cons in H as [->|H]; [by right|left].
    by apply (Hu d).
Qed.

Lemma zfill_chars width s c :
  c ∈ list_ascii_of_string (zfill width s) →
  c = "0"%char ∨ c ∈ list_ascii_of_string s.
Proof.
  unfold zfill. destruct (width <=? String.length s)%nat; [by right|].
  assert (∀ n t, c ∈ list_ascii_of_string
                       (string_of_list_ascii (replicate n "0"%char) +:+ t) →
                 c = "0"%char ∨ c ∈ list_ascii_of_string t) as Hpad.
  { intros n t. rewrite chars_append, list_ascii_of_string_of_list_ascii.
    intros [H|H]%elem_of_app; [left|by right].
    by apply elem_of_replicate in H as [-> _]. }
  destruct s as [|a s'].
  - intros H. left. rewrite list_ascii_of_string_of_list_ascii in H.
    by apply elem_of_replicate in H as [-> _].
  - destruct (is_sign a).
    + simpl. intros [->|H]%elem_of_cons; [right; by left|].
      apply Hpad in H as [H|H]; [by left|right; by right].
    + apply Hpad.
Qed.

Lemma counter_text_chars width v c :
  c ∈ list_ascii_of_string
        (if (1 <? width)%nat then zfill width (str v) else str v) →
  counter_char c.
Proof.
  destruct (1 <? width)%nat; [|apply str_chars].
  intros [->|H]%zfill_chars; [by left|by apply str_chars in H].
Qed.

Lemma nonempty_has_char s : s ≠ EmptyString → ∃ c, c ∈ list_ascii_of_string s.
Proof. destruct s as [|c s]; [done|]. intros _. exists c. by left. Qed.

(** The characters of a rendered name come from the counters and from the
    literal segments. *)
Lemma render_loop_chars segs x_val d_vals d_idx base c :
  render_loop segs x_val d_vals d_idx = Some base →
  c ∈ list_ascii_of_string base →
  counter_char c ∨ ∃ text, Lit text ∈ segs ∧ c ∈ list_ascii_of_string text.
Proof.
  revert d_idx base. induction segs as [|seg segs IH]; intros d_idx base Hr Hc.
  { injection Hr as <-. by apply elem_of_nil in Hc. }
  assert (∀ i out, render_loop segs x_val d_vals i = Some out →
            c ∈ list_ascii_of_string out →
            counter_char c
            ∨ ∃ text, Lit text ∈ seg :: segs ∧ c ∈ list_ascii_of_string text)
    as IH'.
  { intros i out Ho Hin. destruct (IH i out Ho Hin) as [?|(text & ? & ?)];
      [by left|right]. exists text. split; [by right|done]. }
  destruct seg as [text|width|width start_val]; cbn [render_loop] in Hr.
  - apply fmap_Some in Hr as (out & Hout & ->).
    rewrite chars_append in Hc. apply elem_of_app in Hc as [Hc|Hc]; [|eauto].
    right. exists text. split; [by left|done].
  - apply fmap_Some in Hr as (out & Hout & ->).
    rewrite chars_append in Hc. apply elem_of_app in Hc as [Hc|Hc]; [|eauto].
    left. by apply counter_text_chars in Hc.
  - apply bind_Some in Hr as (cur & _ & Hr).
    apply fmap_Some in Hr as (out & Hout & ->).
    rewrite chars_append in Hc. apply elem_of_app in Hc as [Hc|Hc]; [|eauto].
    left. by apply counter_text_chars in Hc.
Qed.

(** A template with a counter renders a name that holds a character of a
    counter. *)
Lemma render_loop_counter segs x_val d_vals d_idx base :
  ¬ no_counter segs →
  render_loop segs x_val d_vals d_idx = Some base →
  ∃ c, c ∈ list_ascii_of_string base ∧ counter_char c.
Proof.
  revert d_idx base. induction segs as [|seg segs IH]; intros d_idx base Hc Hr.
  { destruct Hc. constructor. }
  destruct seg as [text|width|width start_val]; cbn [render_loop] in Hr.
  - apply fmap_Some in Hr as (out & Hout & ->).
    destruct (IH d_idx out) as (c & Hin & Hcc); [|done|].
    { intros Hn. apply Hc. by constructor. }
    exists c. split; [|done]. rewrite chars_append. apply elem_of_app. by right.
  - apply fmap_Some in Hr as (out & Hout & ->).
    destruct (nonempty_has_char _ (counter_text_nonempty width x_val))
      as [c Hin].
    exists c. split; [|by apply counter_text_chars in Hin].
    rewrite chars_append. apply elem_of_app. by left.
  - apply bind_Some in Hr as (cur & _ & Hr).
    apply fmap_Some in Hr as (out & Hout & ->).
    destruct (nonempty_has_char _ (counter_text_nonempty width cur))
      as [c Hin].
    exists c. split; [|by apply counter_text_chars in Hin].
    rewrite chars_append. apply elem_of_app. by left.
Qed.

(** The text of a literal segment is text of the template. *)
Lemma tokenize_literal_chars s segs text c :
  tokenize_chars s = Ok segs → Lit text ∈ segs →
  c ∈ list_ascii_of_string text → c ∈ s.
Proof.
  revert segs. induction s as [s IH] using list_length_ind.
  intros segs H Hlit Hc. destruct s as [|ch s'].
  { injection H as <-. by apply elem_of_nil in Hlit. }
  assert (∀ n segs', tokenize_chars (drop n s') = Ok segs' →
            Lit text ∈ segs' → c ∈ ch :: s') as IH'.
  { intros n segs' Hn Hin. right.
    eapply elem_of_sublist; [|apply (sublist_drop _ n)].
    eapply IH; [rewrite length_drop; simpl; lia|done..]. }
  assert (∀ n, c ∈ take n s' → c ∈ ch :: s') as Htake.
  { intros n Hin. right. eapply elem_of_sublist; [exact Hin|apply sublist_take]. }
  rewrite tokenize_chars_cons in H.
  case_bool_decide.
  { destruct (find "]"%char s') as [k|]; [|done].
    apply cons_seg_Ok in H as (segs' & H & ->).
    apply elem_of_cons in Hlit as [[= ->]|Hlit]; [|by eapply IH'].
    rewrite list_ascii_of_string_of_list_ascii in Hc. by eapply Htake. }
  destruct (is_x ch).
  { apply cons_seg_Ok in H as (segs' & H & ->).
    apply elem_of_cons in Hlit as [?|Hlit]; [done|by eapply IH']. }
  destruct (isdigit ch).
  { apply cons_digits_Ok in H as (_ & segs' & H & ->).
    apply elem_of_cons in Hlit as [?|Hlit]; [done|by eapply IH']. }
  apply cons_seg_Ok in H as (segs' & H & ->).
  apply elem_of_cons in Hlit as [[= ->]|Hlit]; [|by eapply IH'].
  simpl in Hc. rewrite list_ascii_of_string_of_list_ascii in Hc.
  apply elem_of_cons in Hc as [->|Hc]; [by left|by eapply Htake].
Qed.

Lemma separator_free_template tpl segs :
  tokenize_template tpl = Ok segs →
  "/"%char ∉ list_ascii_of_string tpl → separator_free segs.
Proof.
  intros Htok Hsep text Hlit Hin. apply Hsep.
  by eapply tokenize_literal_chars.
Qed.

Lemma counter_char_plain c :
  counter_char c → c ≠ "/"%char ∧ c ≠ "."%char.
Proof. intros [H| ->]; [|done]. split; intros ->; discriminate H. Qed.

(** A template with a counter and without a path separator in its literal
    text renders valid names for directory entries. *)
Lemma names_valid_template segs start candidates :
  ¬ no_counter segs → separator_free segs →
  Forall valid_path candidates →
  names_valid segs start candidates.
Proof.
  intros Hc Hsep Hcand i p base Hi Hb. unfold rendered in Hb.
  assert (valid_path p) as Hp by (by eapply Forall_lookup_1).
  apply valid_name_spec in Hp as (_ & Hp & _).
  destruct (render_loop_counter _ _ _ _ _ Hc Hb) as (c0 & Hin0 & Hc0).
  apply counter_char_plain in Hc0 as [Hs0 Hd0].
  apply valid_name_spec. split_and!.
  - intros He. apply (f_equal list_ascii_of_string) in He.
    rewrite chars_append in He. apply app_eq_nil in He as [He _].
    rewrite He in Hin0. by apply elem_of_nil in Hin0.
  - rewrite chars_append. intros [Hin|Hin]%elem_of_app.
    + destruct (render_loop_chars _ _ _ _ _ _ Hb Hin) as [Hcc|(text & Ht & Hct)].
      * by apply counter_char_plain in Hcc as [? _].
      * by apply (Hsep text).
    + by apply suffix_chars in Hin.
  - intros He. apply (f_equal list_ascii_of_string) in He.
    rewrite chars_append in He.
    assert (c0 ∈ list_ascii_of_string base ++ list_ascii_of_string (suffix p))
      as Hin by (apply elem_of_app; by left).
    rewrite He in Hin. simpl in Hin.
    by apply list_elem_of_singleton in Hin.
Qed.

End MainFacts.

(** * The claims *)

Section TemplateClaims.

(** A separator is none of the characters of a text given in full. *)
Ltac no_separator :=
  let Hin := fresh in
  intros Hin; vm_compute in Hin;
  repeat (apply elem_of_cons in Hin as [Hin|Hin]; [discriminate Hin|]);
  by apply elem_of_nil in Hin.

(** The plan of three directory entries, computed: each rendered base
    starts with a character of a counter or of a literal given in full. *)
Ltac plan_of_three :=
  let H1 := fresh in let H2 := fresh in let H3 := fresh in
  intros ? ? ? H1 H2 H3;
  unfold plan; cbn [negb andb has_x_segment existsb is_X orb count_d_segments
                    filter list_filter is_d Nat.eqb length init_d_counters
                    omap list_omap];
  repeat case_decide; try done;
  cbn [length Nat.eqb andb negb plan_loop];
  repeat
    (match goal with
     | |- context [render_from_segments ?g ?x ?d] =>
       let r := eval vm_compute in (render_from_segments g x d) in
       change (render_from_segments g x d) with r; cbv iota beta
     | |- context [with_name ?p (?b +:+ suffix ?p)] =>
       unfold with_name at 1;
       erewrite (valid_rendered_name p b);
       [cbv iota|done|reflexivity|discriminate|no_separator]
     end;
     cbn [Nat.ltb Nat.leb fmap list_fmap Z.add Pos.add Pos.succ]);
  reflexivity.

(** C4. Every counter segment, shared or per-run, contributes at its place
    in the rendered name a text that obeys the width rule: the plain
    decimal for a width of at most one, the decimal zero-padded to the
    width otherwise, and the whole decimal when it is longer than the
    width.  A run ["007"] renders 007, 008, 009 for the first three files
    and a run ["7"] renders 7, 8, 9. *)
Theorem counter_width_semantics segs1 segs2 width start_val x_val d_vals :
  ∃ text : Z → string,
    (∀ v, zero_padded width v (text v)) ∧
    render_from_segments (segs1 ++ X width :: segs2) x_val d_vals
    = (o1 ← render_loop segs1 x_val d_vals 0;
       o2 ← render_loop segs2 x_val d_vals (count_d_segments segs1);
       Some (o1 +:+ text x_val +:+ o2)) ∧
    render_from_segments (segs1 ++ D width start_val :: segs2) x_val d_vals
    = (o1 ← render_loop segs1 x_val d_vals 0;
       cur ← d_vals !! count_d_segments segs1;
       o2 ← render_loop segs2 x_val d_vals (S (count_d_segments segs1));
       Some (o1 +:+ text cur +:+ o2)) ∧
    tokenize_template "007" = Ok [D 3 7] ∧
    tokenize_template "7" = Ok [D 1 7] ∧
    (∀ p1 p2 p3, valid_path p1 → valid_path p2 → valid_path p3 →
       plan [D 3 7] x_val [p1; p2; p3]
       = Ok [(p1, sibling p1 ("007" +:+ suffix p1));
             (p2, sibling p2 ("008" +:+ suffix p2));
             (p3, sibling p3 ("009" +:+ suffix p3))]) ∧
    (∀ p1 p2 p3, valid_path p1 → valid_path p2 → valid_path p3 →
       plan [D 1 7] x_val [p1; p2; p3]
       = Ok [(p1, sibling p1 ("7" +:+ suffix p1));
             (p2, sibling p2 ("8" +:+ suffix p2));
             (p3, sibling p3 ("9" +:+ suffix p3))]).
Proof.
  exists (λ v, if (1 <? width)%nat then zfill width (str v) else str v).
  split_and!; try reflexivity; try plan_of_three.
  - intros v. apply counter_text_padded.
  - unfold render_from_segments. rewrite render_loop_app. cbn [render_loop].
    destruct (render_loop segs1 _ _ _) as [o1|]; [|done]. simpl.
    by destruct (render_loop segs2 _ _ _).
  - unfold render_from_segments. rewrite render_loop_app. cbn [render_loop].
    destruct (render_loop segs1 _ _ _) as [o1|]; [|done]. simpl.
    destruct (d_vals !! _) as [cur|]; [|done]. simpl.
    replace (S (count_d_segments segs1)) with (S (0 + count_d_segments segs1))
      by done.
    by destruct (render_loop segs2 _ _ _).
Qed.

(** C5. The planner starts the shared counter at [start] and every per-run
    counter at the value written in its digit run; the [i]-th candidate is
    rendered with the shared counter [i] steps further when the template
    has a shared segment, and every per-run counter [i] steps further.
    This holds of every plan that the planner returns, and it returns one
    whenever the template has a counter and every rendered name is a valid
    file name.  With the runs ["001"] and ["500"] three files get 001, 002,
    003 and 500, 501, 502. *)
Theorem plan_counters segs start candidates :
  (∀ pairs, plan segs start candidates = Ok pairs →
     pairs.*1 = candidates ∧
     ∀ (i : nat) p, candidates !! i = Some p →
       ∃ base,
         render_from_segments segs
           (if has_x_segment segs then start + Z.of_nat i else start)
           ((λ v, v + Z.of_nat i) <$> init_d_counters segs) = Some base ∧
         pairs !! i = Some (p, sibling p (base +:+ suffix p))) ∧
  (¬ no_counter segs → names_valid segs start candidates →
   ∃ pairs, plan segs start candidates = Ok pairs) ∧
  tokenize_template "x_001_500"
  = Ok [X 1; Lit "_"; D 3 1; Lit "_"; D 3 500] ∧
  init_d_counters [X 1; Lit "_"; D 3 1; Lit "_"; D 3 500] = [1; 500] ∧
  (∀ p1 p2 p3, valid_path p1 → valid_path p2 → valid_path p3 →
     plan [X 1; Lit "_"; D 3 1; Lit "_"; D 3 500] 1 [p1; p2; p3]
     = Ok [(p1, sibling p1 ("1_001_500" +:+ suffix p1));
           (p2, sibling p2 ("2_002_501" +:+ suffix p2));
           (p3, sibling p3 ("3_003_502" +:+ suffix p3))]) ∧
  (∀ p1 p2 p3, valid_path p1 → valid_path p2 → valid_path p3 →
     plan [Lit "_"; D 3 1; Lit "_"; D 3 500] start [p1; p2; p3]
     = Ok [(p1, sibling p1 ("_001_500" +:+ suffix p1));
           (p2, sibling p2 ("_002_501" +:+ suffix p2));
           (p3, sibling p3 ("_003_502" +:+ suffix p3))]).
Proof.
  split_and!; try reflexivity; try plan_of_three.
  - intros pairs Hp.
    assert (¬ no_counter segs) as Hc.
    { intros Hn. apply (plan_guard segs start candidates) in Hn. congruence. }
    destruct (plan_spec segs start candidates Hc) as [_ Hall].
    by apply Hall.
  - intros Hc Hv. destruct (plan_spec segs start candidates Hc) as [[H1 _] _].
    by apply H1.
Qed.

Lemma plan_counters_witness :
  ∃ pairs, plan [X 2; D 3 7] 5 [Samples.img_a; Samples.img_b] = Ok pairs.
Proof.
  apply (plan_counters [X 2; D 3 7] 5 [Samples.img_a; Samples.img_b]).
  - intros H. apply no_counter_spec in H as [H _]. vm_compute in H.
    discriminate H.
  - intros i p base Hi Hb.
    destruct i as [|[|i]]; simpl in Hi; try discriminate Hi;
      injection Hi as <-; vm_compute in Hb; injection Hb as <-; reflexivity.
Defined.

(** C6. A span in brackets becomes one literal segment holding the text
    between the brackets as written, digits and counter letters included,
    and the brackets are dropped; the renderer copies the text of a
    literal segment whatever the counters are.  So ["[x123]y"] followed by
    a digit run renders as [x123], [y] and the text of the counter. *)
Theorem bracket_literal pre inner rest segs :
  tokenize_template pre = Ok segs →
  "]"%char ∉ list_ascii_of_string inner →
  tokenize_template (pre +:+ "[" +:+ inner +:+ "]" +:+ rest)
  = prepend (segs ++ [Lit inner]) (tokenize_template rest) ∧
  (∀ segs1 segs2 x_val d_vals,
     render_from_segments (segs1 ++ Lit inner :: segs2) x_val d_vals
     = (o1 ← render_loop segs1 x_val d_vals 0;
        o2 ← render_loop segs2 x_val d_vals (count_d_segments segs1);
        Some (o1 +:+ inner +:+ o2))) ∧
  (∀ digits, digits ≠ [] → Forall (λ c, isdecimal c = true) digits →
     tokenize_chars (list_ascii_of_string "[x123]y" ++ digits)
     = Ok [Lit "x123"; Lit "y"; D (length digits) (int digits)] ∧
     ∀ x_val cur d_rest, ∃ text,
       zero_padded (length digits) cur text ∧
       render_from_segments
         [Lit "x123"; Lit "y"; D (length digits) (int digits)]
         x_val (cur :: d_rest)
       = Some ("x123" +:+ "y" +:+ text)).
Proof.
  intros Hpre Hni. split_and!.
  - unfold tokenize_template in *. rewrite !chars_append.
    change (list_ascii_of_string "[") with ["["%char].
    change (list_ascii_of_string "]") with ["]"%char].
    cbn [app].
    rewrite (tokenize_before_bracket _ _ _ Hpre).
    rewrite tokenize_bracket_span by done.
    rewrite string_of_list_ascii_of_string.
    destruct (tokenize_chars (list_ascii_of_string rest)); simpl; [|done].
    by rewrite <- app_assoc.
  - intros segs1 segs2 x_val d_vals.
    unfold render_from_segments. rewrite render_loop_app. cbn [render_loop].
    destruct (render_loop segs1 _ _ _) as [o1|]; [|done]. simpl.
    by destruct (render_loop segs2 _ _ _).
  - intros digits Hne Hall. split.
    + change (list_ascii_of_string "[x123]y" ++ digits)
        with ("["%char :: list_ascii_of_string "x123"
                ++ "]"%char :: "y"%char :: digits).
      rewrite tokenize_bracket_span.
      2:{ intros Hin. vm_compute in Hin.
          repeat (apply elem_of_cons in Hin as [Hin|Hin]; [discriminate Hin|]).
          by apply elem_of_nil in Hin. }
      rewrite tokenize_chars_cons.
      destruct digits as [|ch s']; [done|].
      pose proof Hall as [Hch _]%Forall_cons. apply decimal_digit in Hch.
      cbn [run_length]. rewrite (digit_not_plain _ Hch).
      change (bool_decide ("y"%char = "["%char)) with false.
      change (is_x "y"%char) with false.
      change (isdigit "y"%char) with false.
      cbn [drop take].
      rewrite (tokenize_digit_run _ Hne Hall). reflexivity.
    + intros x_val cur d_rest.
      exists (if (1 <? length digits)%nat then zfill (length digits) (str cur)
              else str cur).
      split; [apply counter_text_padded|].
      unfold render_from_segments. cbn. by rewrite append_nil_r.
Qed.

Lemma bracket_literal_witness :
  tokenize_template ("IMG_" +:+ "[" +:+ "x123" +:+ "]" +:+ "y7")
  = prepend ([Lit "IMG_"] ++ [Lit "x123"]) (tokenize_template "y7").
Proof.
  apply (bracket_literal "IMG_" "x123" "y7" [Lit "IMG_"]).
  - reflexivity.
  - intros Hin. vm_compute in Hin.
    repeat (apply elem_of_cons in Hin as [Hin|Hin]; [discriminate Hin|]).
    by apply elem_of_nil in Hin.
Defined.

(** C7. A pattern with an opening bracket that no closing bracket follows
    is meant to fail with the unbalanced-bracket error.  After a superscript
    two it does not: the scan takes the superscript for a digit run and
    stops in [int] before it reaches the bracket.  The run stops there all
    the same, and no file is touched. *)
Theorem unbalanced_bracket_superscript :
  "]"%char ∉ list_ascii_of_string "abc" ∧
  isdigit "178"%char = true ∧
  tokenize_template (String "178"%char "[abc")
  = Err (InvalidLiteral (String "178"%char EmptyString)) ∧
  tokenize_template (String "178"%char "[abc") ≠ Err UnbalancedBracket ∧
  ∀ folder start candidates dry_run stamp ts created_at w,
    main_rename folder (String "178"%char "[abc") start candidates
                dry_run stamp ts created_at w
    = (w, Err (InvalidLiteral (String "178"%char EmptyString))).
Proof.
  split_and!; [no_separator|reflexivity|reflexivity|discriminate|].
  intros. by apply main_rename_tokenize_err.
Qed.

(** C8. The planner fails with [TemplateHasNoCounter] exactly for the
    templates without a counter-bearing segment, and then [main] stops
    with no file touched; templates whose digits and counter letters all
    sit in bracket spans are among them.  With a counter segment present
    the planner yields its plan whenever every rendered name is a valid
    file name, which is so for directory entries and a template without
    path separator; the plan has one entry per candidate, with the
    rendered name next to the source as destination. *)
Theorem template_needs_counter segs start candidates :
  (plan segs start candidates = Err TemplateHasNoCounter ↔ no_counter segs) ∧
  (¬ no_counter segs →
   (names_valid segs start candidates →
    ∃ pairs, plan segs start candidates = Ok pairs) ∧
   (separator_free segs → Forall valid_path candidates →
    ∃ pairs, plan segs start candidates = Ok pairs) ∧
   (∀ pairs, plan segs start candidates = Ok pairs →
      pairs.*1 = candidates ∧
      ∀ (i : nat) p, candidates !! i = Some p →
        ∃ base,
          render_from_segments segs
            (if has_x_segment segs then start + Z.of_nat i else start)
            ((λ v, v + Z.of_nat i) <$> init_d_counters segs) = Some base ∧
          pairs !! i = Some (p, sibling p (base +:+ suffix p)))) ∧
  (∀ tpl, tokenize_template tpl = Ok segs →
     "/"%char ∉ list_ascii_of_string tpl → separator_free segs) ∧
  (∀ tpl, tokenize_template tpl = Ok segs → no_counter segs →
     ∀ folder dry_run stamp ts created_at w,
       main_rename folder tpl start candidates dry_run stamp ts created_at w
       = (w, Err TemplateHasNoCounter)) ∧
  (∀ tpl, AllBracketed (list_ascii_of_string tpl) →
     ∃ segs', tokenize_template tpl = Ok segs' ∧ no_counter segs' ∧
       ∀ folder dry_run stamp ts created_at w,
         main_rename folder tpl start candidates dry_run stamp ts created_at w
         = (w, Err TemplateHasNoCounter)).
Proof.
  split_and!.
  - apply plan_guard.
  - intros Hc. destruct (plan_spec segs start candidates Hc) as [[Hv _] Hall].
    split_and!; [done| |exact Hall].
    intros Hsep Hcand. by apply Hv, names_valid_template.
  - intros tpl. apply separator_free_template.
  - intros tpl Htok Hnc folder dry_run stamp ts created_at w.
    eapply main_rename_plan_err; [done|]. by apply plan_guard.
  - intros tpl Hb.
    destruct (tokenize_all_bracketed _ Hb) as (segs' & Htok & Hnc).
    exists segs'. split_and!; [done..|]. intros.
    eapply main_rename_plan_err; [done|]. by apply plan_guard.
Qed.

Lemma template_needs_counter_witness :
  ∃ segs', tokenize_template "[x123]abc" = Ok segs' ∧ no_counter segs' ∧
    ∀ folder dry_run stamp ts created_at w,
      main_rename folder "[x123]abc" 1 [Samples.img_a] dry_run
                  stamp ts created_at w
      = (w, Err TemplateHasNoCounter).
Proof.
  apply (template_needs_counter [] 1 [Samples.img_a]).
  apply (AllBracketed_span (list_ascii_of_string "x123")
                           (list_ascii_of_string "abc")).
  - no_separator.
  - repeat (apply AllBracketed_plain; [reflexivity|]).
    apply AllBracketed_nil.
Defined.

(** The claim C8 as written fails on the template [a/x]: it has a shared
    counter, and the planner stops on the first rendered name. *)
Lemma counter_template_with_separator :
  tokenize_template "a/x" = Ok [Lit "a/"; X 1] ∧
  ¬ no_counter [Lit "a/"; X 1] ∧
  plan [Lit "a/"; X 1] 1 [Samples.img_a] = Err (InvalidName "a/1.jpg") ∧
  (¬ ∃ pairs, plan [Lit "a/"; X 1] 1 [Samples.img_a] = Ok pairs) ∧
  ∀ folder dry_run stamp ts created_at w,
    main_rename folder "a/x" 1 [Samples.img_a] dry_run stamp ts created_at w
    = (w, Err (InvalidName "a/1.jpg")).
Proof.
  split_and!; [reflexivity| |reflexivity| |].
  - intros H. apply no_counter_spec in H as [H _]. vm_compute in H.
    discriminate H.
  - intros (pairs & H). vm_compute in H. discriminate H.
  - intros. by eapply main_rename_plan_err.
Qed.

End TemplateClaims.

Section EngineClaims.

(** Case analysis on the membership in a list given in full. *)
Ltac list_cases H :=
  repeat (apply elem_of_cons in H as [H|H]; [try subst|]);
  try (by apply elem_of_nil in H).




(** C2. The renames performed by a real run are, in order, the
    phase-one renames of all entries and then the phase-two renames: in
    every run, also one that fails, what was performed is an initial part
    of that sequence, so no temporary name is renamed to its destination
    before every source has its temporary name.  A swap of two existing
    files therefore completes with each file under the name of the other,
    and the record returned lists the pairs of the plan, none of which is
    a temporary name. *)
Theorem two_phase_rename_phases pairs stamp w :
  (∃ calls,
     trace (two_phase_rename pairs false stamp w).1 = trace w ++ calls ∧
     calls `prefix_of` (phase1_calls stamp pairs ++ phase2_calls stamp pairs) ∧
     ∀ mapping, (two_phase_rename pairs false stamp w).2 = Ok mapping →
       calls = phase1_calls stamp pairs ++ phase2_calls stamp pairs ∧
       mapping = (λ sd, mkEntry sd.1 sd.2) <$> pairs) ∧
  (∀ a b fa fb,
     pairs = [(a, b); (b, a)] → a ≠ b →
     files w !! a = Some fa → files w !! b = Some fb →
     files w !! temp_path stamp a = None →
     files w !! temp_path stamp b = None →
     ∃ w',
       two_phase_rename pairs false stamp w
       = (w', Ok [mkEntry a b; mkEntry b a]) ∧
       files w' = <[a := fb]> (<[b := fa]> (files w)) ∧
       trace w' = trace w ++ [SysRename a (temp_path stamp a);
                              SysRename b (temp_path stamp b);
                              SysRename (temp_path stamp a) b;
                              SysRename (temp_path stamp b) a]) ∧
  (plan_ready (files w) stamp pairs →
   ∀ item s, item ∈ (λ sd, mkEntry sd.1 sd.2) <$> pairs → s ∈ pairs.*1 →
     log_src item ≠ temp_path stamp s ∧ log_dst item ≠ temp_path stamp s).
Proof.
  split_and!.
  - apply two_phase_rename_trace.
  - intros a b fa fb -> Hab Ha Hb Hta Htb.
    destruct (two_phase_rename_swap a b fa fb stamp w) as (w' & Hrun & Hf);
      [done..|].
    exists w'. split_and!; [done..|].
    destruct (two_phase_rename_trace [(a, b); (b, a)] stamp w)
      as (calls & Htr & _ & Hok).
    rewrite Hrun in Htr, Hok. simpl in Htr, Hok.
    destruct (Hok _ eq_refl) as [-> _]. by rewrite Htr.
  - intros (Hnd & Hex & Htmp) item s
      ([s0 d0] & -> & Hin)%list_elem_of_fmap Hs. simpl.
    destruct (elem_of_fsts _ _ _ Hin) as [Hs0 Hd0].
    destruct (Htmp s Hs) as [Hnone Hni]. split.
    + intros ->. destruct (Hex _ Hs0) as [f Hf]. congruence.
    + by intros ->.
Qed.

Lemma two_phase_rename_phases_witness :
  ∃ w',
    two_phase_rename Samples.swap_plan false "S" Samples.two_images
    = (w', Ok [mkEntry Samples.img_a Samples.img_b;
               mkEntry Samples.img_b Samples.img_a]) ∧
    files w' = <[Samples.img_a := Blob 2]>
                 (<[Samples.img_b := Blob 1]> (files Samples.two_images)) ∧
    trace w'
    = trace Samples.two_images
      ++ [SysRename Samples.img_a (temp_path "S" Samples.img_a);
          SysRename Samples.img_b (temp_path "S" Samples.img_b);
          SysRename (temp_path "S" Samples.img_a) Samples.img_b;
          SysRename (temp_path "S" Samples.img_b) Samples.img_a].
Proof.
  destruct (two_phase_rename_phases Samples.swap_plan "S" Samples.two_images)
    as (_ & Hswap & _).
  apply (Hswap Samples.img_a Samples.img_b (Blob 1) (Blob 2));
    [reflexivity|discriminate|reflexivity..].
Defined.

(** C3. The collision guard only reads the directory.  On a plan whose
    destinations lie in one directory it accepts exactly the valid plans:
    it reports [DuplicateTarget] when two entries share a destination,
    already for two entries, and otherwise [TargetAlreadyExists] for a
    destination that exists and is not a source of the plan.  In [main] a
    rejected plan ends the run before any rename. *)
Theorem ensure_no_collisions_spec pairs w :
  (∀ d d', d ∈ pairs.*2 → d' ∈ pairs.*2 → parent d = parent d') →
  (ensure_no_collisions pairs w).1 = w ∧
  (ensure_no_collisions pairs w = (w, Ok tt) ↔ plan_valid (files w) pairs) ∧
  (¬ NoDup pairs.*2 →
   ensure_no_collisions pairs w = (w, Err DuplicateTarget)) ∧
  (NoDup pairs.*2 →
   ¬ (∀ d, d ∈ pairs.*2 → is_Some (files w !! d) → d ∈ pairs.*1) →
   ∃ d, d ∈ pairs.*2 ∧ is_Some (files w !! d) ∧ (d ∉ pairs.*1) ∧
     ensure_no_collisions pairs w
     = (w, Err (TargetAlreadyExists (name d)))) ∧
  (∀ s1 s2 d, ensure_no_collisions [(s1, d); (s2, d)] w
              = (w, Err DuplicateTarget)) ∧
  (∀ folder tpl start candidates dry_run stamp ts created_at segs e,
     tokenize_template tpl = Ok segs →
     plan segs start candidates = Ok pairs →
     (ensure_no_collisions pairs w).2 = Err e →
     main_rename folder tpl start candidates dry_run stamp ts created_at w
     = (w, Err e)).
Proof.
  intros Hdir. pose proof (same_parent_names _ Hdir) as Hnames.
  split_and!.
  - apply ensure_no_collisions_readonly.
  - split.
    + intros H. by apply ensure_no_collisions_Ok in H as [_ ?].
    + intros [Hnd Hval]. apply Hnames in Hnd.
      destruct (ensure_no_collisions_nodup pairs w Hnd)
        as [[H _]|(d & Hd & Hex & Hni & _)]; [done|].
      exfalso. by apply Hni, Hval.
  - intros Hnd. apply ensure_no_collisions_dup. by rewrite Hnames.
  - intros Hnd%Hnames Hbad.
    destruct (ensure_no_collisions_nodup pairs w Hnd)
      as [[_ H]|(d & Hd & Hex & Hni & Hrun)]; [done|].
    by exists d.
  - intros s1 s2 d. apply ensure_no_collisions_dup. simpl.
    intros Hnd. apply NoDup_cons in Hnd as [Hni _]. apply Hni. by left.
  - intros. by eapply main_rename_collision.
Qed.

Lemma ensure_no_collisions_spec_witness :
  ensure_no_collisions Samples.clash_plan Samples.two_images
  = (Samples.two_images, Err DuplicateTarget).
Proof.
  destruct (ensure_no_collisions_spec Samples.clash_plan Samples.two_images)
    as (_ & _ & Hdup & _).
  - intros d d' Hd Hd'. vm_compute in Hd, Hd'.
    list_cases Hd; list_cases Hd'; reflexivity.
  - apply Hdup. intros Hnd. vm_compute in Hnd.
    apply NoDup_cons in Hnd as [Hni _]. apply Hni. by left.
Defined.

(** C9. A preview run returns the record of the plan and leaves the world
    as it is; a real run that succeeds returns that same record.  In
    [main] a dry run performs no system call at all: no rename, and no
    log file is written. *)
Theorem preview_is_pure pairs stamp w :
  two_phase_rename pairs true stamp w
  = (w, Ok ((λ sd, mkEntry sd.1 sd.2) <$> pairs)) ∧
  (∀ w' mapping,
     two_phase_rename pairs false stamp w = (w', Ok mapping) →
     (two_phase_rename pairs true stamp w).2 = Ok mapping) ∧
  (∀ folder tpl start candidates ts created_at,
     (main_rename folder tpl start candidates true stamp ts created_at w).1
     = w).
Proof.
  split_and!.
  - apply two_phase_rename_dry.
  - intros w' mapping Hrun.
    destruct (two_phase_rename_trace pairs stamp w) as (calls & _ & _ & Hok).
    rewrite Hrun in Hok. destruct (Hok _ eq_refl) as [_ ->].
    by rewrite two_phase_rename_dry.
  - intros. apply main_rename_dry.
Qed.

Lemma preview_is_pure_witness :
  (two_phase_rename Samples.swap_plan true "S" Samples.two_images).2
  = Ok [mkEntry Samples.img_a Samples.img_b;
        mkEntry Samples.img_b Samples.img_a].
Proof.
  destruct (preview_is_pure Samples.swap_plan "S" Samples.two_images)
    as (_ & Hsame & _).
  eapply Hsame. vm_compute. reflexivity.
Defined.

(** C10. The undo checks every reversed pair before it renames anything:
    when some pair of the record fails a pre-check (its final path is
    missing, or its original path exists and is another path), the undo
    fails with the error of a failing pair and the world is untouched. *)
Theorem undo_precheck_atomic pairs dry_run w item :
  item ∈ pairs → ¬ undo_check_ok (files w) item →
  (∃ e bad,
     undo_pairs pairs dry_run w = (w, Err e) ∧
     bad ∈ pairs ∧ ¬ undo_check_ok (files w) bad ∧
     (e = UndoSourceMissing (log_dst bad)
      ∨ e = UndoTargetExists (log_src bad))) ∧
  (∀ log_file created_at,
     files w !! log_file = Some (LogDoc created_at pairs) →
     ∃ e, undo log_file dry_run w = (w, Err e)).
Proof.
  intros Hin Hbad.
  destruct (undo_pairs_rejected pairs dry_run w item Hin Hbad)
    as (e & bad & Hrun & Hb & Hnb & He).
  split; [by exists e, bad|].
  intros log_file created_at Hlog. exists e.
  unfold undo, bind, read_pairs. by rewrite Hlog.
Qed.

Lemma undo_precheck_atomic_witness :
  ∃ e bad,
    undo_pairs [mkEntry Samples.img_a Samples.img_c] false Samples.two_images
    = (Samples.two_images, Err e) ∧
    bad ∈ [mkEntry Samples.img_a Samples.img_c] ∧
    ¬ undo_check_ok (files Samples.two_images) bad ∧
    (e = UndoSourceMissing (log_dst bad) ∨ e = UndoTargetExists (log_src bad)).
Proof.
  apply (undo_precheck_atomic [mkEntry Samples.img_a Samples.img_c] false
           Samples.two_images (mkEntry Samples.img_a Samples.img_c)).
  - by left.
  - intros [[f Hf] _]. vm_compute in Hf. discriminate Hf.
Defined.

End EngineClaims.

(** * Further properties of the rename engine *)

Section EngineMore.

Ltac list_cases H :=
  repeat (apply elem_of_cons in H as [H|H]; [try subst|]);
  try (by apply elem_of_nil in H).

Lemma for_app {A} (l1 l2 : list A) body w :
  for_ (l1 ++ l2) body w = bind (for_ l1 body) (λ _, for_ l2 body) w.
Proof.
  revert w. induction l1 as [|x l1 IH]; intros w.
  { unfold bind. done. }
  change (for_ ((x :: l1) ++ l2) body w)
    with (bind (body x) (λ _, for_ (l1 ++ l2) body) w).
  change (for_ (x :: l1) body) with (bind (body x) (λ _, for_ l1 body)).
  unfold bind. destruct (body x w) as [w1 [[]|e]]; [|done].
  rewrite IH. done.
Qed.



(** X2. No rollback in phase one: when the sources up to some entry exist
    and that entry's source is missing, the real run stops there with the
    error of the missing source; the earlier files are left under their
    temporary names, nothing else has changed, and no phase-two rename has
    been made. *)
Theorem missing_source_stops_phase_one w done s d rest stamp :
  NoDup done.*1 →
  (∀ a, a ∈ done.*1 →
        is_Some (files w !! a) ∧ files w !! temp_path stamp a = None) →
  files w !! s = None →
  (∀ a, a ∈ done.*1 → temp_path stamp a ≠ s) →
  ∃ w',
    two_phase_rename (done ++ (s, d) :: rest) false stamp w
    = (w', Err (RenameSourceMissing s)) ∧
    trace w' = trace w ++ phase1_calls stamp done ∧
    (∀ a, a ∈ done.*1 →
          files w' !! temp_path stamp a = files w !! a ∧
          files w' !! a = None) ∧
    (∀ p, p ∉ done.*1 → p ∉ temp_path stamp <$> done.*1 →
          files w' !! p = files w !! p).
Proof.
  intros Hnd Hex Hs Hts.
  set (l1 := (λ sd : Path * Path, (sd.1, temp_path stamp sd.1)) <$> done).
  assert (l1.*1 = done.*1) as Hl11
    by (unfold l1; by rewrite <- list_fmap_compose).
  assert (l1.*2 = temp_path stamp <$> done.*1) as Hl12
    by (unfold l1; by rewrite <- !list_fmap_compose).
  assert (∀ a, a ∈ done.*1 → a ∉ temp_path stamp <$> done.*1) as Hst.
  { intros a Ha (a' & -> & Ha')%elem_of_temps.
    destruct (Hex a' Ha') as [_ Hnone]. destruct (Hex _ Ha) as [[f Hf] _].
    congruence. }
  destruct (for_rename_clean l1 w) as (m1 & Hrun1 & H1a & H1b & H1c).
  { split_and!; [by rewrite Hl11| |].
    - rewrite Hl12. apply NoDup_fmap_2; [apply temp_path_inj|done].
    - intros a b (sd & [= -> ->] & Hsd)%list_elem_of_fmap.
      assert (sd.1 ∈ done.*1) as Ha by (apply list_elem_of_fmap; eauto).
      destruct (Hex _ Ha) as [Hsome Hnone]. split; [done|].
      intros [f Hf]. congruence. }
  rewrite Hl11, Hl12 in *.
  eexists. split_and!.
  - unfold two_phase_rename. cbn [negb]. rewrite fmap_app, fmap_cons.
    fold l1. cbn [fst snd].
    erewrite bind_Err; [reflexivity|].
    rewrite for_app. rewrite (bind_Ok _ _ _ _ tt Hrun1).
    rewrite for_cons. apply bind_Err. unfold rename. cbn [fst snd files].
    rewrite H1c; [by rewrite Hs|..].
    + intros Ha. destruct (Hex _ Ha) as [[f Hf] _]. congruence.
    + intros (a & Heq & Ha)%elem_of_temps. by apply (Hts a Ha).
  - cbn [trace]. unfold phase1_calls, l1. by rewrite <- list_fmap_compose.
  - intros a Ha. cbn [files]. split.
    + apply H1a. apply list_elem_of_fmap in Ha as (sd & -> & Hsd).
      apply list_elem_of_fmap. by exists sd.
    + apply H1b; [done|by apply Hst].
  - intros p Hp1 Hp2. cbn [files]. by apply H1c.
Qed.

Lemma missing_source_stops_phase_one_witness :
  ∃ w',
    two_phase_rename Scenarios.gap_plan false "S" Samples.two_images
    = (w', Err (RenameSourceMissing Samples.img_c)) ∧
    trace w' = trace Samples.two_images
               ++ phase1_calls "S" [(Samples.img_a, mkPath "/photos" "001.jpg")] ∧
    (∀ a, a ∈ [(Samples.img_a, mkPath "/photos" "001.jpg")].*1 →
          files w' !! temp_path "S" a = files Samples.two_images !! a ∧
          files w' !! a = None) ∧
    (∀ p, p ∉ [(Samples.img_a, mkPath "/photos" "001.jpg")].*1 →
          p ∉ temp_path "S" <$> [(Samples.img_a, mkPath "/photos" "001.jpg")].*1 →
          files w' !! p = files Samples.two_images !! p).
Proof.
  apply (missing_source_stops_phase_one Samples.two_images
           [(Samples.img_a, mkPath "/photos" "001.jpg")]
           Samples.img_c (mkPath "/photos" "002.jpg") [] "S").
  - vm_compute. repeat constructor; intros H; list_cases H.
  - intros a H. vm_compute in H. list_cases H. vm_compute. eauto.
  - reflexivity.
  - intros a H. vm_compute in H. list_cases H. discriminate.
Defined.

(** The pre-check that stops [undo], and why. *)
Lemma undo_pairs_rejected_by pairs dry_run w item :
  item ∈ pairs → ¬ undo_check_ok (files w) item →
  ∃ e bad,
    undo_pairs pairs dry_run w = (w, Err e) ∧ bad ∈ pairs ∧
    ((files w !! log_dst bad = None ∧ e = UndoSourceMissing (log_dst bad))
     ∨ (is_Some (files w !! log_dst bad) ∧ is_Some (files w !! log_src bad) ∧
        log_src bad ≠ log_dst bad ∧ e = UndoTargetExists (log_src bad))).
Proof.
  intros Hin Hbad. unfold undo_pairs.
  match goal with |- context [bind (for_ ?l ?b) _ _] =>
    destruct (for_readonly b l w) as
      [[_ Hall]|(l1 & ft & l2 & e & Hl & _ & Hft & Hrun)] end.
  { intros ft _. rewrite undo_check_run. by eexists. }
  - exfalso. apply Hbad, undo_check_Ok.
    apply (Hall (log_dst item, log_src item)), undo_ops_elem. eauto.
  - assert (ft ∈ (λ item, (log_dst item, log_src item)) <$> reverse pairs)
      as (bad & -> & Hb)%undo_ops_elem.
    { rewrite Hl. apply elem_of_app. right. by left. }
    exists e, bad. rewrite (bind_Err _ _ _ _ _ Hrun).
    split_and!; [done..|].
    rewrite undo_check_run in Hft. cbn [fst snd] in Hft. unfold exists_ in Hft.
    destruct (decide (is_Some (files w !! log_dst bad))) as [Hd|Hd].
    + rewrite (bool_decide_eq_true_2 _ Hd) in Hft. cbn [negb] in Hft.
      destruct (decide (is_Some (files w !! log_src bad))) as [Hs|Hs].
      * rewrite (bool_decide_eq_true_2 _ Hs) in Hft. cbn [andb] in Hft.
        destruct (decide (log_src bad = log_dst bad)) as [He|He].
        { rewrite bool_decide_eq_false_2 in Hft by (intros H; by apply H).
          congruence. }
        rewrite bool_decide_eq_true_2 in Hft by done.
        right. split_and!; [done..|]. congruence.
      * rewrite (bool_decide_eq_false_2 _ Hs) in Hft. cbn [andb] in Hft.
        congruence.
    + rewrite (bool_decide_eq_false_2 _ Hd) in Hft. cbn [negb] in Hft.
      left. split; [|congruence].
      destruct (files w !! log_dst bad) eqn:E; [|done].
      exfalso. apply Hd. by eexists.
Qed.



(** X4. A dry run of the undo never changes anything: it performs the
    pre-checks only, succeeds exactly when every pair of the record passes
    them, and in every case leaves the world as it was; an unreadable log
    is reported without any change either. *)
Theorem undo_dry_run_pure log_file w :
  (undo log_file true w).1 = w ∧
  (∀ pairs,
     (undo_pairs pairs true w).1 = w ∧
     ((undo_pairs pairs true w).2 = Ok tt
      ↔ ∀ item, item ∈ pairs → undo_check_ok (files w) item)) ∧
  ((∀ created_at pairs, files w !! log_file ≠ Some (LogDoc created_at pairs)) →
   ∀ dry_run, undo log_file dry_run w = (w, Err (LogUnreadable log_file))).
Proof.
  assert (∀ pairs,
     (undo_pairs pairs true w).1 = w ∧
     ((undo_pairs pairs true w).2 = Ok tt
      ↔ ∀ item, item ∈ pairs → undo_check_ok (files w) item)) as Hpairs.
  { intros pairs.
    destruct (decide (Forall (undo_check_ok (files w)) pairs)) as [Hall|Hnall].
    - rewrite Forall_forall in Hall.
      rewrite (undo_pairs_checked pairs true w Hall). by split.
    - apply not_Forall_Exists in Hnall; [|apply _].
      apply Exists_exists in Hnall as (item & Hin & Hbad).
      destruct (undo_pairs_rejected_by pairs true w item Hin Hbad)
        as (e & bad & -> & _). split; [done|]. simpl. split; [done|].
      intros Hall. by destruct Hbad; apply Hall. }
  split_and!; [|done|].
  - unfold undo, bind, read_pairs.
    destruct (files w !! log_file) as [[id|created pairs]|]; [done| |done].
    apply Hpairs.
  - intros Hno dry_run. unfold undo, bind, read_pairs.
    destruct (files w !! log_file) as [[id|created pairs]|] eqn:E;
      [done| |done].
    by destruct (Hno created pairs).
Qed.

Lemma undo_dry_run_pure_witness :
  undo (Scenarios.log_path "/photos" "T") false Samples.two_images
  = (Samples.two_images,
     Err (LogUnreadable (Scenarios.log_path "/photos" "T"))).
Proof.
  destruct (undo_dry_run_pure (Scenarios.log_path "/photos" "T")
              Samples.two_images) as (_ & _ & H).
  apply H. intros created_at pairs Hlog. vm_compute in Hlog. discriminate Hlog.
Defined.



End EngineMore.

(** * Further properties of the template engine *)

Section TemplateMore.
Import Shape.

Lemma cons_seg_Err seg r e : cons_seg seg r = Err e → r = Err e.
Proof. destruct r; simpl; congruence. Qed.

Lemma forallb_false {A} (f : A → bool) l :
  forallb f l = false → ∃ x, x ∈ l ∧ f x = false.
Proof.
  induction l as [|x l IH]; simpl; [done|].
  destruct (f x) eqn:Hx; simpl.
  - intros (y & Hy & Hf)%IH. exists y. split; [by right|done].
  - intros _. exists x. split; [by left|done].
Qed.

Lemma cons_digits_Err width run r e :
  cons_digits width run r = Err e →
  r = Err e ∨
  (e = InvalidLiteral (string_of_list_ascii run) ∧
   ∃ c, c ∈ run ∧ isdecimal c = false).
Proof.
  unfold cons_digits, parse_int.
  destruct (forallb isdecimal run) eqn:Hall.
  - intros H. left. by apply cons_seg_Err in H.
  - intros [= <-]. right. split; [done|]. by apply forallb_false.
Qed.

(** The scanner fails in two ways only: on an opening bracket that no
    closing bracket follows, and in [int] on a digit that is not decimal. *)
Lemma tokenize_chars_Err s e :
  tokenize_chars s = Err e →
  (e = UnbalancedBracket ∧
   ∃ pre post, s = pre ++ "["%char :: post ∧ "]"%char ∉ post)
  ∨ (∃ run c, e = InvalidLiteral run ∧
       c ∈ s ∧ isdigit c = true ∧ isdecimal c = false).
Proof.
  induction s as [s IH] using list_length_ind. intros H.
  destruct s as [|ch s']; [done|].
  assert (∀ n, tokenize_chars (drop n s') = Err e →
            (e = UnbalancedBracket ∧
             ∃ pre post, ch :: s' = pre ++ "["%char :: post ∧ "]"%char ∉ post)
            ∨ (∃ run c, e = InvalidLiteral run ∧
                 c ∈ ch :: s' ∧ isdigit c = true ∧ isdecimal c = false))
    as IH'.
  { intros n Hn.
    destruct (IH (drop n s')) as [(-> & pre & post & Hs & Hni)
                                 |(run & c & -> & Hc & Hd & Hnd)];
      [rewrite length_drop; simpl; lia|done| |].
    - left. split; [done|]. exists (ch :: take n s' ++ pre), post.
      split; [|done]. simpl. by rewrite <- app_assoc, <- Hs, take_drop.
    - right. exists run, c. split_and!; [done| |done..].
      right. eapply elem_of_sublist; [exact Hc|apply sublist_drop]. }
  rewrite tokenize_chars_cons in H.
  case_bool_decide as Hch.
  { destruct (find "]"%char s') as [k|] eqn:Hf.
    - by apply cons_seg_Err, IH' in H.
    - injection H as <-. left. split; [done|]. exists [], s'. simpl.
      split; [by rewrite Hch|]. by apply find_None. }
  destruct (is_x ch); [by apply cons_seg_Err, IH' in H|].
  destruct (isdigit ch) eqn:Hd; [|by apply cons_seg_Err, IH' in H].
  apply cons_digits_Err in H as [H|(-> & c & Hc & Hnd)]; [by apply IH' in H|].
  right. eexists _, c. split_and!; [done| | |done].
  - apply elem_of_cons in Hc as [->|Hc]; [by left|right].
    eapply elem_of_sublist; [exact Hc|apply sublist_take].
  - apply elem_of_cons in Hc as [->|Hc]; [done|].
    by apply (proj1 (Forall_forall _ _) (run_length_take isdigit s')).
Qed.

(** X6. Tokenizing always ends: with the segments, with the
    unbalanced-bracket error, or with the error of [int] on a digit run.
    The first error is raised only for a pattern in which some opening
    bracket is followed by no closing bracket, the second only for a
    pattern that holds a digit which is not decimal; and a pattern whose
    digits are all decimal fails exactly when some opening bracket is
    followed by no closing bracket. *)
Theorem tokenize_outcome tpl :
  ((∃ segs, tokenize_template tpl = Ok segs)
   ∨ tokenize_template tpl = Err UnbalancedBracket
   ∨ ∃ run, tokenize_template tpl = Err (InvalidLiteral run)) ∧
  (tokenize_template tpl = Err UnbalancedBracket →
   ∃ pre post, list_ascii_of_string tpl = pre ++ "["%char :: post ∧
               "]"%char ∉ post) ∧
  (∀ run, tokenize_template tpl = Err (InvalidLiteral run) →
   ∃ c, c ∈ list_ascii_of_string tpl ∧
        isdigit c = true ∧ isdecimal c = false) ∧
  (decimal_digits (list_ascii_of_string tpl) →
   ((∃ segs, tokenize_template tpl = Ok segs)
    ∨ tokenize_template tpl = Err UnbalancedBracket) ∧
   (tokenize_template tpl = Err UnbalancedBracket ↔
    ∃ pre post, list_ascii_of_string tpl = pre ++ "["%char :: post ∧
                "]"%char ∉ post)).
Proof.
  unfold tokenize_template. split_and!.
  - destruct (tokenize_chars (list_ascii_of_string tpl)) as [segs|e] eqn:E.
    + left. by exists segs.
    + right. apply tokenize_chars_Err in E as [[-> _]|(run & c & -> & _)];
        [by left|right; by exists run].
  - intros H. by apply tokenize_chars_Err in H as [[_ ?]|(? & ? & ? & _)].
  - intros run H.
    apply tokenize_chars_Err in H as [[? _]|(? & c & _ & ? & ? & ?)]; [done|].
    by exists c.
  - intros Hdec. split.
    + destruct (tokenize_chars (list_ascii_of_string tpl)) as [segs|e] eqn:E.
      { left. by exists segs. }
      right.
      apply tokenize_chars_Err in E as [[-> _]|(run & c & -> & Hc & Hd & Hnd)];
        [done|].
      apply (proj1 (Forall_forall _ _) Hdec c Hc) in Hd. congruence.
    + split.
      * intros H. by apply tokenize_chars_Err in H as [[_ ?]|(? & ? & ? & _)].
      * intros (pre & post & Heq & Hni). rewrite Heq.
        apply tokenize_unbalanced; [|done].
        rewrite Heq in Hdec. by apply Forall_app in Hdec as [? _].
Qed.

Lemma run_length_drop_head p l c t :
  drop (run_length p l) l = c :: t → p c = false.
Proof.
  induction l as [|a l IH]; simpl; [done|].
  destruct (p a) eqn:Ha; simpl; [done|]. by intros [= -> _].
Qed.

Lemma run_length_app_all p l1 l2 :
  Forall (λ c, p c = true) l1 →
  run_length p (l1 ++ l2) = (length l1 + run_length p l2)%nat.
Proof.
  induction 1 as [|c l Hc _ IH]; simpl; [done|]. by rewrite Hc, IH.
Qed.

Lemma run_length_head_false p l :
  (∀ c t, l = c :: t → p c = false) → run_length p l = 0%nat.
Proof.
  destruct l as [|c t]; [done|]. intros H. simpl. by rewrite (H c t).
Qed.

Lemma digit_value c :
  isdecimal c = true → 0 ≤ Z.of_nat (nat_of_ascii c) - 48 ≤ 9.
Proof.
  unfold isdecimal. intros [H1 H2]%andb_true_iff.
  apply Nat.leb_le in H1, H2. lia.
Qed.

Lemma int_snoc l c :
  int (l ++ [c]) = 10 * int l + (Z.of_nat (nat_of_ascii c) - 48).
Proof. unfold int. by rewrite foldl_app. Qed.

(** The number written by a run of digits fits the width of the run. *)
Lemma int_bounds l :
  Forall (λ c, isdecimal c = true) l → 0 ≤ int l < 10 ^ Z.of_nat (length l).
Proof.
  induction l as [|c l IH] using rev_ind; intros Hall.
  { simpl. unfold int. simpl. lia. }
  apply Forall_app in Hall as [Hl Hc]. apply Forall_cons in Hc as [Hc _].
  specialize (IH Hl). pose proof (digit_value c Hc).
  rewrite int_snoc, length_app. simpl.
  replace (Z.of_nat (length l + 1)) with (Z.of_nat (length l) + 1) by lia.
  rewrite Z.pow_add_r by lia. lia.
Qed.

(** X7. The segments of a template are well formed: every counter has a
    width of at least one, every per-run counter starts at a natural
    number below ten to the power of its width, there are no more
    segments than characters, and the list is empty only for the empty
    template. *)
Theorem tokenize_well_formed tpl segs :
  tokenize_template tpl = Ok segs →
  Forall seg_wf segs ∧
  (length segs ≤ String.length tpl)%nat ∧
  (segs = [] ↔ tpl = EmptyString).
Proof.
  unfold tokenize_template.
  assert (String.length tpl = length (list_ascii_of_string tpl)) as ->.
  { induction tpl as [|c t IH]; simpl; [done|by rewrite IH]. }
  assert (tpl = EmptyString ↔ list_ascii_of_string tpl = []) as ->.
  { by destruct tpl. }
  generalize (list_ascii_of_string tpl) as s. clear tpl. intros s. revert segs.
  induction s as [s IH] using list_length_ind. intros segs H.
  destruct s as [|ch s'].
  { injection H as <-. by split_and!. }
  assert (∀ n segs', tokenize_chars (drop n s') = Ok segs' →
            Forall seg_wf segs' ∧ (length segs' ≤ length s')%nat) as IH'.
  { intros n segs' Hn. destruct (IH (drop n s') ltac:(rewrite length_drop; simpl; lia) _ Hn)
      as (Hwf & Hlen & _).
    split; [done|]. rewrite length_drop in Hlen. lia. }
  rewrite tokenize_chars_cons in H.
  assert (∀ seg r, seg_wf seg → cons_seg seg r = Ok segs →
            (∃ n, r = tokenize_chars (drop n s')) →
            Forall seg_wf segs ∧ (length segs ≤ length (ch :: s'))%nat ∧
            (segs = [] ↔ ch :: s' = [])) as Hstep.
  { intros seg r Hseg Hr [n ->].
    apply cons_seg_Ok in Hr as (segs' & Hr & ->).
    destruct (IH' _ _ Hr) as [Hwf Hlen].
    split_and!; [by constructor|simpl; lia|done]. }
  case_bool_decide.
  { destruct (find "]"%char s') as [k|]; [|done].
    eapply Hstep; [|done|by eexists]. done. }
  destruct (is_x ch).
  { eapply Hstep; [|done|by eexists]. simpl. lia. }
  destruct (isdigit ch) eqn:Hd.
  { clear Hstep. apply cons_digits_Ok in H as (Hdec & segs' & Hr & ->).
    destruct (IH' _ _ Hr) as [Hwf Hlen].
    split_and!; [constructor; [|done]|simpl; lia|done].
    simpl. split; [lia|].
    pose proof (int_bounds _ Hdec) as Hb.
    by rewrite length_cons, length_take_le in Hb by apply run_length_le. }
  eapply Hstep; [|done|by eexists]. done.
Qed.

Lemma tokenize_well_formed_witness :
  Forall seg_wf [Lit "IMG_"; X 3; Lit "-"; D 4 25] ∧
  (length [Lit "IMG_"; X 3; Lit "-"; D 4 25] ≤ String.length "IMG_xxx-0025")%nat ∧
  ([Lit "IMG_"; X 3; Lit "-"; D 4 25] = [] ↔ "IMG_xxx-0025" = EmptyString).
Proof.
  apply (tokenize_well_formed "IMG_xxx-0025"). reflexivity.
Defined.

(** X8. Runs are taken whole: a run of counter letters that ends at a
    character of another kind is one shared counter of the width of the
    run, a run of decimal digits that ends at a character which is no
    digit is one per-run counter whose width is the length of the run and
    whose initial value is the number written, and a run of other
    characters is one literal; a run of digits that holds a digit which is
    not decimal ends the scan with the error of [int]. *)
Theorem tokenize_runs run rest :
  run ≠ [] →
  (Forall (λ c, is_x c = true) run →
   (∀ c t, rest = c :: t → is_x c = false) →
   tokenize_chars (run ++ rest)
   = cons_seg (X (length run)) (tokenize_chars rest)) ∧
  (Forall (λ c, isdecimal c = true) run →
   (∀ c t, rest = c :: t → isdigit c = false) →
   tokenize_chars (run ++ rest)
   = cons_seg (D (length run) (int run)) (tokenize_chars rest)) ∧
  (Forall (λ c, is_plain c = true) run →
   (∀ c t, rest = c :: t → is_plain c = false) →
   tokenize_chars (run ++ rest)
   = cons_seg (Lit (string_of_list_ascii run)) (tokenize_chars rest)) ∧
  (Forall (λ c, isdigit c = true) run →
   ¬ Forall (λ c, isdecimal c = true) run →
   (∀ c t, rest = c :: t → isdigit c = false) →
   tokenize_chars (run ++ rest)
   = Err (InvalidLiteral (string_of_list_ascii run))).
Proof.
  intros Hne. destruct run as [|ch run']; [done|].
  rewrite <- app_comm_cons, tokenize_chars_cons. split_and!.
  - intros [Hch Hall]%Forall_cons Hrest.
    rewrite bool_decide_eq_false_2 by (intros ->; done). rewrite Hch.
    rewrite run_length_app_all, run_length_head_false, Nat.add_0_r by done.
    by rewrite drop_app_length.
  - intros Hdec Hrest.
    assert (Forall (λ c, isdigit c = true) (ch :: run')) as [Hch Hall]%Forall_cons.
    { eapply Forall_impl; [exact Hdec|]. intros c. apply decimal_digit. }
    rewrite bool_decide_eq_false_2 by (by apply digit_not_bracket).
    rewrite (digit_not_x _ Hch), Hch.
    rewrite run_length_app_all, run_length_head_false, Nat.add_0_r by done.
    rewrite drop_app_length, take_app_length.
    by rewrite cons_digits_decimal.
  - intros [Hch Hall]%Forall_cons Hrest.
    pose proof Hch as Hp. unfold is_plain in Hp.
    apply andb_true_iff in Hp as [Hp Hb]. apply andb_true_iff in Hp as [Hd Hx].
    apply negb_true_iff in Hb, Hd, Hx. rewrite Hb, Hx, Hd.
    rewrite run_length_app_all, run_length_head_false, Nat.add_0_r by done.
    by rewrite drop_app_length, take_app_length.
  - intros [Hch Hall]%Forall_cons Hnd Hrest.
    rewrite bool_decide_eq_false_2 by (by apply digit_not_bracket).
    rewrite (digit_not_x _ Hch), Hch.
    rewrite run_length_app_all, run_length_head_false, Nat.add_0_r by done.
    rewrite drop_app_length, take_app_length.
    unfold cons_digits, parse_int.
    destruct (forallb isdecimal (ch :: run')) eqn:E; [|done].
    by apply forallb_Forall in E.
Qed.

Lemma tokenize_runs_witness :
  tokenize_chars (list_ascii_of_string "0042" ++ list_ascii_of_string "_x")
  = cons_seg (D (length (list_ascii_of_string "0042"))
                (int (list_ascii_of_string "0042")))
             (tokenize_chars (list_ascii_of_string "_x")).
Proof.
  destruct (tokenize_runs (list_ascii_of_string "0042")
              (list_ascii_of_string "_x")) as (_ & Hd & _ & _).
  - discriminate.
  - apply Hd.
    + repeat constructor.
    + intros c t H. injection H as <- _. reflexivity.
Defined.

Lemma render_loop_short segs x_val d_vals d_idx :
  (0 < count_d_segments segs)%nat →
  (length d_vals < d_idx + count_d_segments segs)%nat →
  render_loop segs x_val d_vals d_idx = None.
Proof.
  revert d_idx. induction segs as [|seg segs IH]; intros d_idx Hpos H.
  { unfold count_d_segments in Hpos. simpl in Hpos. lia. }
  rewrite count_d_segments_cons in H, Hpos.
  destruct seg as [text|width|width start_val]; cbn [render_loop is_d] in *.
  - rewrite IH by lia. done.
  - rewrite IH by lia. done.
  - destruct (d_vals !! d_idx) as [cur|] eqn:Hcur; [|done]. simpl.
    apply lookup_lt_Some in Hcur.
    rewrite IH by lia. done.
Qed.

(** The renderer reads the per-run values only at the positions of the
    digit segments. *)
Lemma render_loop_ext segs x_val d1 d2 d_idx :
  (∀ i, (d_idx ≤ i < d_idx + count_d_segments segs)%nat → d1 !! i = d2 !! i) →
  render_loop segs x_val d1 d_idx = render_loop segs x_val d2 d_idx.
Proof.
  revert d_idx. induction segs as [|seg segs IH]; intros d_idx H; [done|].
  rewrite count_d_segments_cons in H.
  destruct seg as [text|width|width start_val]; cbn [render_loop is_d] in *.
  - rewrite (IH d_idx); [done|]. intros i Hi. apply H. lia.
  - rewrite (IH d_idx); [done|]. intros i Hi. apply H. lia.
  - rewrite (H d_idx) by lia. rewrite (IH (S d_idx)); [done|].
    intros i Hi. apply H. lia.
Qed.

(** X9. Rendering fails, with the index error of the per-run values,
    exactly when fewer values are given than the template has digit
    segments; values beyond that number are never read. *)
Theorem render_needs_values segs x_val d_vals :
  (render_from_segments segs x_val d_vals = None
   ↔ (length d_vals < count_d_segments segs)%nat) ∧
  render_from_segments segs x_val d_vals
  = render_from_segments segs x_val (take (count_d_segments segs) d_vals).
Proof.
  unfold render_from_segments. split.
  - split.
    + intros Hn. destruct (Nat.lt_ge_cases (length d_vals)
                             (count_d_segments segs)) as [|Hge]; [done|].
      destruct (render_loop_total segs x_val d_vals 0) as [o Ho];
        [simpl; lia|congruence].
    + intros Hlt. apply render_loop_short; simpl; lia.
  - apply render_loop_ext. intros i Hi.
    rewrite lookup_take. case_decide; [done|lia].
Qed.

(** *** The first name is the template *)

Lemma digit_char c :
  isdecimal c = true →
  c ∈ ["0"; "1"; "2"; "3"; "4"; "5"; "6"; "7"; "8"; "9"]%char.
Proof.
  intros H. pose proof (digit_value c H) as Hv.
  assert (c = ascii_of_nat (nat_of_ascii c)) as Hc
    by (symmetry; apply ascii_nat_embedding).
  remember (nat_of_ascii c) as n eqn:Hn. clear Hn H.
  assert (n = 48 ∨ n = 49 ∨ n = 50 ∨ n = 51 ∨ n = 52 ∨ n = 53
          ∨ n = 54 ∨ n = 55 ∨ n = 56 ∨ n = 57)%nat as Hcases by lia.
  clear Hv.
  repeat (destruct Hcases as [->|Hcases];
          [subst c; rewrite !elem_of_cons;
           repeat first [left; reflexivity | right]|]).
  subst. rewrite !elem_of_cons. repeat first [left; reflexivity | right].
Qed.

(** Case analysis on a character known to be a digit. *)
Ltac digit_cases H :=
  apply digit_char in H;
  repeat (apply elem_of_cons in H as [->|H]);
  [..|by apply elem_of_nil in H].

(** Evaluation of the tests on a concrete digit. *)
Ltac digit_eval :=
  repeat match goal with
  | |- context [digit_uint ?c ?d] =>
    let n := eval vm_compute in (nat_of_ascii c - 48)%nat in
    change (digit_uint c d)
      with (match n with
            | 0%nat => Decimal.D0 d | 1%nat => Decimal.D1 d
            | 2%nat => Decimal.D2 d | 3%nat => Decimal.D3 d
            | 4%nat => Decimal.D4 d | 5%nat => Decimal.D5 d
            | 6%nat => Decimal.D6 d | 7%nat => Decimal.D7 d
            | 8%nat => Decimal.D8 d | _ => Decimal.D9 d
            end);
    cbv iota
  | |- context [Z.of_nat (nat_of_ascii ?c)] =>
    let n := eval vm_compute in (Z.of_nat (nat_of_ascii c)) in
    change (Z.of_nat (nat_of_ascii c)) with n
  end.

Lemma uint_of_digits_cons c l :
  uint_of_digits (c :: l) = digit_uint c (uint_of_digits l).
Proof. reflexivity. Qed.

Lemma string_of_uint_digits l :
  Forall (λ c, isdecimal c = true) l →
  NilEmpty.string_of_uint (uint_of_digits l) = string_of_list_ascii l.
Proof.
  induction 1 as [|c l Hc _ IH]; [done|].
  rewrite uint_of_digits_cons.
  digit_cases Hc; digit_eval; simpl; by rewrite <- IH.
Qed.

Lemma of_uint_acc_digits l acc :
  Forall (λ c, isdecimal c = true) l →
  Z.pos (Pos.of_uint_acc (uint_of_digits l) acc)
  = foldl (λ a c, 10 * a + (Z.of_nat (nat_of_ascii c) - 48)) (Z.pos acc) l.
Proof.
  intros Hall. revert acc. induction Hall as [|c l Hc _ IH]; intros acc; [done|].
  rewrite uint_of_digits_cons. cbn [foldl].
  digit_cases Hc; digit_eval; cbn [Pos.of_uint_acc]; rewrite IH; f_equal; lia.
Qed.

(** [int] reads a run of digits as the standard library reads the
    numeral. *)
Lemma int_of_digits l :
  Forall (λ c, isdecimal c = true) l → int l = Z.of_uint (uint_of_digits l).
Proof.
  unfold int, Z.of_uint. induction 1 as [|c l Hc Hall IH]; [done|].
  pose proof (of_uint_acc_digits l) as Hacc.
  rewrite uint_of_digits_cons. cbn [foldl].
  digit_cases Hc; digit_eval; cbn [Pos.of_uint Z.of_N];
    first [ rewrite <- IH; f_equal; lia
          | rewrite (Hacc _ Hall); f_equal; lia ].
Qed.

Lemma str_int_digits l :
  Forall (λ c, isdecimal c = true) l →
  str (int l) = NilZero.string_of_uint (Decimal.unorm (uint_of_digits l)).
Proof.
  intros Hall. rewrite (int_of_digits l Hall). unfold str.
  change (Z.of_uint (uint_of_digits l))
    with (Z.of_int (Decimal.Pos (uint_of_digits l))).
  by rewrite DecimalZ.to_of.
Qed.

Lemma zeros_S n : zeros (S n) = String "0"%char (zeros n).
Proof. reflexivity. Qed.

Lemma zfill_succ n c s' :
  is_sign c = false → (String.length (String c s') ≤ n)%nat →
  zfill (S n) (String c s') = String "0"%char (zfill n (String c s')).
Proof.
  intros Hc Hlen.
  rewrite zfill_unsigned by (done || lia).
  destruct (Nat.eq_dec (String.length (String c s')) n) as [Heq|Hne].
  - rewrite (zfill_short n) by lia.
    replace (S n - String.length (String c s'))%nat with 1%nat by lia.
    done.
  - rewrite (zfill_unsigned n) by (done || lia).
    replace (S n - String.length (String c s'))%nat
      with (S (n - String.length (String c s'))) by lia.
    by rewrite zeros_S, append_cons.
Qed.

(** Padding the normalised numeral to the width of the numeral as written
    gives back what was written. *)
Lemma zfill_unorm d :
  d ≠ Decimal.Nil →
  zfill (String.length (NilEmpty.string_of_uint d))
        (NilZero.string_of_uint (Decimal.unorm d))
  = NilEmpty.string_of_uint d.
Proof.
  induction d as [|d IH|d _|d _|d _|d _|d _|d _|d _|d _|d _]; intros Hne;
    try done; try (apply zfill_short; simpl; lia).
  assert (d = Decimal.Nil ∨ d ≠ Decimal.Nil) as [->|Hd]
    by (destruct d; auto; right; discriminate).
  { reflexivity. }
  specialize (IH Hd).
  change (Decimal.unorm (Decimal.D0 d)) with (Decimal.unorm d).
  destruct (string_of_uint_head (Decimal.unorm d)) as (c & s' & Hs & Hc).
  rewrite Hs in *.
  change (NilEmpty.string_of_uint (Decimal.D0 d))
    with (String "0"%char (NilEmpty.string_of_uint d)).
  cbn [String.length].
  rewrite zfill_succ, IH; [done..|].
  pose proof (zfill_length (String.length (NilEmpty.string_of_uint d))
                (String c s')) as Hl.
  rewrite IH in Hl. lia.
Qed.

Lemma length_string_of_list_ascii l :
  String.length (string_of_list_ascii l) = length l.
Proof. induction l as [|c l IH]; simpl; [done|by rewrite IH]. Qed.

Lemma string_of_list_ascii_app l1 l2 :
  string_of_list_ascii (l1 ++ l2)
  = string_of_list_ascii l1 +:+ string_of_list_ascii l2.
Proof.
  induction l1 as [|c l1 IH]; [done|].
  simpl. by rewrite IH, append_cons.
Qed.

(** The text of a per-run counter at its initial value is the run of
    digits as written in the template. *)
Lemma digit_run_text run :
  run ≠ [] → Forall (λ c, isdecimal c = true) run →
  (if (1 <? length run)%nat then zfill (length run) (str (int run))
   else str (int run))
  = string_of_list_ascii run.
Proof.
  intros Hne Hall.
  assert (uint_of_digits run ≠ Decimal.Nil) as Hd.
  { destruct run as [|c run']; [done|]. rewrite uint_of_digits_cons.
    apply Forall_cons in Hall as [Hc _].
    digit_cases Hc; digit_eval; discriminate. }
  pose proof (zfill_unorm _ Hd) as Hz.
  rewrite (string_of_uint_digits _ Hall), length_string_of_list_ascii in Hz.
  rewrite (str_int_digits _ Hall).
  destruct (Nat.ltb_spec 1 (length run)) as [|Hle]; [done|].
  rewrite <- Hz. symmetry. apply zfill_short.
  destruct (string_of_uint_head (Decimal.unorm (uint_of_digits run)))
    as (c & s' & -> & _).
  simpl. lia.
Qed.

Lemma init_d_counters_cons_D width start_val segs :
  init_d_counters (D width start_val :: segs) = start_val :: init_d_counters segs.
Proof. reflexivity. Qed.

Lemma render_template_chars s x_val :
  Forall plain_or_digit s → decimal_digits s →
  ∃ segs,
    tokenize_chars s = Ok segs ∧
    ∀ pre,
      render_loop segs x_val (pre ++ init_d_counters segs) (length pre)
      = Some (string_of_list_ascii s).
Proof.
  induction s as [s IH] using list_length_ind. intros Hall Hdec.
  destruct s as [|ch s'].
  { exists []. by split. }
  pose proof Hdec as Hdec0.
  apply Forall_cons in Hall as [[Hx Hb] Hall].
  apply Forall_cons in Hdec as [_ Hdec].
  assert (∀ n, ∃ segs, tokenize_chars (drop n s') = Ok segs ∧
            ∀ pre, render_loop segs x_val (pre ++ init_d_counters segs)
                     (length pre)
                   = Some (string_of_list_ascii (drop n s'))) as IH'.
  { intros n. apply IH; [rewrite length_drop; simpl; lia| |];
      by apply Forall_drop. }
  rewrite tokenize_chars_cons, bool_decide_eq_false_2, Hx by done.
  destruct (isdigit ch) eqn:Hd.
  - set (n := run_length isdigit s').
    pose proof (decimal_run ch s' Hdec0 Hd) as Hrun. fold n in Hrun.
    rewrite cons_digits_decimal by done.
    destruct (IH' n) as (segs & -> & Hr). eexists. split; [done|].
    intros pre. rewrite init_d_counters_cons_D. cbn [render_loop].
    rewrite list_lookup_middle by done. simpl.
    rewrite (cons_middle _ pre), app_assoc.
    replace (S (length pre)) with (length (pre ++ [int (ch :: take n s')]))
      by (rewrite length_app; simpl; lia).
    rewrite Hr. simpl. f_equal.
    pose proof (digit_run_text (ch :: take n s')) as Ht.
    rewrite length_cons, length_take_le in Ht by apply run_length_le.
    rewrite Ht; [|done|done].
    rewrite <- string_of_list_ascii_app.
    by rewrite <- app_comm_cons, take_drop.
  - set (n := run_length is_plain s').
    destruct (IH' n) as (segs & -> & Hr). eexists. split; [done|].
    intros pre. cbn [render_loop init_d_counters omap].
    change (omap _ segs) with (init_d_counters segs).
    rewrite Hr. simpl. f_equal.
    rewrite append_cons, <- string_of_list_ascii_app.
    by rewrite take_drop.
Qed.

(** X10. The template is the first name: for a template without brackets
    and counter letters whose digits are all decimal, rendering with the
    counters at their initial values gives back the template as written,
    leading zeros included.  So every plan that the planner returns names
    the first candidate after the template, followed by the extension of
    the file; and it returns a plan when the template holds a digit and no
    path separator and the candidates are directory entries. *)
Theorem first_name_is_template tpl :
  Forall plain_or_digit (list_ascii_of_string tpl) →
  decimal_digits (list_ascii_of_string tpl) →
  ∃ segs,
    tokenize_template tpl = Ok segs ∧
    (∀ x_val,
       render_from_segments segs x_val (init_d_counters segs) = Some tpl) ∧
    (∀ start p rest pairs,
       plan segs start (p :: rest) = Ok pairs →
       ∃ more, pairs = (p, sibling p (tpl +:+ suffix p)) :: more) ∧
    (¬ no_counter segs → "/"%char ∉ list_ascii_of_string tpl →
     ∀ start candidates, Forall valid_path candidates →
       ∃ pairs, plan segs start candidates = Ok pairs).
Proof.
  intros Hall Hdec.
  destruct (render_template_chars _ 0 Hall Hdec) as (segs & Htok & _).
  exists segs. split; [done|].
  assert (∀ x_val,
    render_from_segments segs x_val (init_d_counters segs) = Some tpl) as Hr.
  { intros x_val.
    destruct (render_template_chars _ x_val Hall Hdec) as (segs' & Htok' & Hr).
    assert (segs' = segs) as -> by congruence.
    specialize (Hr []). simpl in Hr.
    by rewrite string_of_list_ascii_of_string in Hr. }
  split_and!; [done| |].
  - intros start p rest pairs Hp.
    assert (¬ no_counter segs) as Hc.
    { intros Hn. apply (plan_guard segs start (p :: rest)) in Hn. congruence. }
    destruct (plan_spec segs start (p :: rest) Hc) as [_ Hspec].
    destruct (Hspec pairs Hp) as [_ Hi].
    destruct (Hi 0%nat p eq_refl) as (base & Hbase & Hhead).
    rewrite rendered_0, Hr in Hbase. injection Hbase as <-.
    destruct pairs as [|pd more]; [done|]. simpl in Hhead.
    injection Hhead as ->. by exists more.
  - intros Hc Hsep start candidates Hcand.
    destruct (plan_spec segs start candidates Hc) as [[Hv _] _].
    apply Hv, names_valid_template; [done| |done].
    by eapply separator_free_template.
Qed.

Lemma first_name_is_template_witness :
  ∃ segs,
    tokenize_template "IMG_0042" = Ok segs ∧
    (∀ x_val,
       render_from_segments segs x_val (init_d_counters segs)
       = Some "IMG_0042") ∧
    (∀ start p rest pairs,
       plan segs start (p :: rest) = Ok pairs →
       ∃ more, pairs = (p, sibling p ("IMG_0042" +:+ suffix p)) :: more) ∧
    (¬ no_counter segs → "/"%char ∉ list_ascii_of_string "IMG_0042" →
     ∀ start candidates, Forall valid_path candidates →
       ∃ pairs, plan segs start candidates = Ok pairs).
Proof.
  apply (first_name_is_template "IMG_0042").
  - repeat (constructor; [split; [reflexivity|discriminate]|]). constructor.
  - repeat (constructor;
            [intros H; vm_compute; vm_compute in H;
             first [reflexivity|discriminate H]|]).
    constructor.
Defined.

(** X20. A pattern with an opening bracket that no closing bracket follows
    fails to tokenize with the unbalanced-bracket error when the digits
    before that bracket are all decimal, and the run stops there: no file
    is touched. *)
Theorem unbalanced_bracket_fails pre post :
  decimal_digits (list_ascii_of_string pre) →
  "]"%char ∉ list_ascii_of_string post →
  tokenize_template (pre +:+ String "["%char post) = Err UnbalancedBracket ∧
  ∀ folder start candidates dry_run stamp ts created_at w,
    main_rename folder (pre +:+ String "["%char post) start candidates
                dry_run stamp ts created_at w
    = (w, Err UnbalancedBracket).
Proof.
  intros Hdec Hni.
  assert (tokenize_template (pre +:+ String "["%char post)
          = Err UnbalancedBracket) as Htok.
  { unfold tokenize_template. rewrite chars_append. simpl.
    by apply tokenize_unbalanced. }
  split; [done|]. intros. by apply main_rename_tokenize_err.
Qed.

Lemma unbalanced_bracket_fails_witness :
  tokenize_template "abc[def" = Err UnbalancedBracket ∧
  ∀ folder start candidates dry_run stamp ts created_at w,
    main_rename folder "abc[def" start candidates dry_run stamp ts created_at w
    = (w, Err UnbalancedBracket).
Proof.
  apply (unbalanced_bracket_fails "abc" "def").
  - repeat (constructor;
            [intros H; vm_compute; vm_compute in H;
             first [reflexivity|discriminate H]|]).
    constructor.
  - intros Hin. vm_compute in Hin.
    repeat (apply elem_of_cons in Hin as [Hin|Hin]; [discriminate Hin|]).
    by apply elem_of_nil in Hin.
Defined.

End TemplateMore.

(** * Extensions and images *)

Section Extensions.
Import Selection.








End Extensions.

(** * The selection of the candidates *)

Section SelectionFacts.
Import Selection.

Ltac list_cases H :=
  repeat (apply elem_of_cons in H as [H|H]; [try subst|]);
  try (by apply elem_of_nil in H).

Lemma weird_not_clean c : c ∈ weird_symbols → ¬ clean_char c.
Proof.
  intros Hw [Ha|Hs].
  - unfold weird_symbols in Hw. simpl in Hw. list_cases Hw; discriminate Ha.
  - unfold weird_symbols, common_seps in *. simpl in Hw, Hs.
    list_cases Hw; list_cases Hs; discriminate Hs.
Qed.

Lemma existsb_false {A} (f : A → bool) l :
  Forall (λ x, f x = false) l → existsb f l = false.
Proof. induction 1 as [|x l Hx _ IH]; simpl; [done|]. by rewrite Hx, IH. Qed.

Lemma clean_no_weird s :
  Forall clean_char s →
  existsb (λ c, bool_decide (c ∈ weird_symbols)) s = false.
Proof.
  intros Hall. apply existsb_false. eapply Forall_impl; [exact Hall|].
  intros c Hc. simpl. apply bool_decide_eq_false_2.
  intros Hw. by apply (weird_not_clean c).
Qed.

Lemma clean_non_alnum s :
  Forall clean_char s →
  filter (λ c, negb (isalnum c)
               && negb (bool_decide (c ∈ common_seps)) = true) s = [].
Proof.
  induction 1 as [|c l Hc _ IH]; [done|].
  rewrite filter_cons, IH. case_decide as Hd; [|done].
  apply andb_true_iff in Hd as [Ha Hs]. apply negb_true_iff in Ha, Hs.
  destruct Hc as [Hc|Hc]; [congruence|].
  by rewrite bool_decide_eq_true_2 in Hs.
Qed.

Lemma length_chars (s : string) :
  String.length s = length (list_ascii_of_string s).
Proof. induction s as [|c t IH]; simpl; [done|by rewrite IH]. Qed.

(** X12. On names made of alphanumeric characters and the separators
    [_-. ] only, the classifier of messy names looks at the length and the
    mix alone: a name of fewer than 18 characters is never messy, a name
    that has a separator is messy exactly from 24 characters on, and no
    messy name is shorter than 18 characters. *)
Theorem clean_names_messy stem :
  Forall clean_char (list_ascii_of_string stem) →
  ((String.length stem < 18)%nat → is_messy_name stem = false) ∧
  ((∃ c, c ∈ common_seps ∧ c ∈ list_ascii_of_string stem) →
   is_messy_name stem = (24 <=? String.length stem)%nat) ∧
  (is_messy_name stem = true → (18 ≤ String.length stem)%nat).
Proof.
  intros Hclean.
  rewrite (length_chars stem).
  unfold is_messy_name.
  set (s := list_ascii_of_string stem) in *.
  rewrite (clean_no_weird s Hclean), (clean_non_alnum s Hclean).
  change (3 <=? length (@nil ascii))%nat with false. cbv iota.
  split_and!.
  - intros Hlen. case_bool_decide; [done|].
    rewrite (proj2 (Nat.leb_gt 24 (length s))) by lia.
    rewrite (proj2 (Nat.leb_gt 18 (length s))) by lia.
    by rewrite andb_false_r.
  - intros (c & Hsep & Hin).
    assert (existsb (λ c, bool_decide (c ∈ s)) common_seps = true) as ->.
    { apply existsb_exists. exists c. split.
      - by apply list_elem_of_In.
      - by apply bool_decide_eq_true_2. }
    case_bool_decide as He.
    { rewrite He in Hin. by apply elem_of_nil in Hin. }
    cbn [negb andb]. by destruct (24 <=? length s)%nat.
  - case_bool_decide as He; [done|].
    destruct (Nat.leb_spec 24 (length s)); [lia|].
    destruct (Nat.leb_spec 18 (length s)); [lia|].
    by rewrite andb_false_r.
Qed.

Lemma clean_names_messy_witness :
  is_messy_name "IMG_0042" = false.
Proof.
  destruct (clean_names_messy "IMG_0042") as (Hshort & _ & _).
  - simpl.
    repeat (apply Forall_cons; split;
            [first [left; reflexivity
                   |right; unfold common_seps; simpl; rewrite !elem_of_cons;
                    repeat first [left; reflexivity | right]]|]).
    apply Forall_nil_2.
  - apply Hshort. simpl. lia.
Defined.

Lemma lstrip_suffix s : lstrip s `suffix_of` s.
Proof.
  induction s as [|c t IH]; simpl; [done|].
  destruct (isspace c); [by apply suffix_cons_r|done].
Qed.

Lemma lstrip_head s a : head (lstrip s) = Some a → isspace a = false.
Proof.
  induction s as [|c t IH]; simpl; [done|].
  destruct (isspace c) eqn:E; [done|]. simpl. by intros [= <-].
Qed.

Lemma lstrip_id s a : head s = Some a → isspace a = false → lstrip s = s.
Proof. destruct s as [|c t]; simpl; [done|]. by intros [= ->] ->. Qed.

Lemma strip_sub s c : c ∈ strip s → c ∈ s.
Proof.
  unfold strip. rewrite elem_of_reverse. intros Hc.
  destruct (lstrip_suffix (reverse (lstrip s))) as [k1 E1].
  destruct (lstrip_suffix s) as [k2 E2].
  rewrite E2. apply elem_of_app. right.
  apply elem_of_reverse. rewrite E1. apply elem_of_app. by right.
Qed.

Lemma strip_ends s :
  strip s ≠ [] →
  ∃ a b, head (strip s) = Some a ∧ last (strip s) = Some b ∧
         isspace a = false ∧ isspace b = false.
Proof.
  unfold strip. intros Hne.
  set (y := lstrip s) in *.
  destruct (lstrip_suffix (reverse y)) as [k Ek].
  set (z := lstrip (reverse y)) in *.
  assert (z ≠ []) as Hz.
  { intros E. apply Hne. by rewrite E. }
  destruct z as [|b z'] eqn:Ez; [done|].
  assert (isspace b = false) as Hb.
  { apply (lstrip_head (reverse y)). fold z. by rewrite Ez. }
  assert (y = reverse (b :: z') ++ reverse k) as Ey.
  { rewrite <- reverse_app, <- Ek. by rewrite reverse_involutive. }
  destruct (reverse (b :: z')) as [|a r] eqn:Er.
  { apply (f_equal length) in Er. rewrite length_reverse in Er. done. }
  exists a, b. split_and!; [done| |  |done].
  - rewrite <- Er. rewrite last_reverse. done.
  - apply (lstrip_head s). fold y. by rewrite Ey.
Qed.

Lemma split_no_sep sep s x : x ∈ split sep s → sep ∉ x.
Proof.
  revert x. induction s as [|c t IH]; simpl; intros x Hx.
  - apply list_elem_of_singleton in Hx as ->. apply not_elem_of_nil.
  - case_bool_decide as Hc.
    + apply elem_of_cons in Hx as [->|Hx]; [apply not_elem_of_nil|by apply IH].
    + destruct (split sep t) as [|h r] eqn:E.
      * apply list_elem_of_singleton in Hx as ->.
        intros Hin. apply list_elem_of_singleton in Hin. congruence.
      * apply elem_of_cons in Hx as [->|Hx].
        -- intros Hin. apply elem_of_cons in Hin as [Hin|Hin]; [congruence|].
           by apply (IH h); [left|].
        -- apply IH. by right.
Qed.

(** X13. Whatever the text given to [--src-prefix], every prefix that
    [parse_prefixes] returns is tidy: it is not empty, holds no comma and
    neither starts nor ends with white space. *)
Theorem parse_prefixes_tidy raw : Forall tidy (parse_prefixes raw).
Proof.
  unfold parse_prefixes. case_bool_decide; [by apply Forall_nil_2|].
  apply Forall_fmap, Forall_forall. intros x Hx.
  apply list_elem_of_filter in Hx as [Hne Hx].
  unfold tidy. simpl. rewrite list_ascii_of_string_of_list_ascii. split.
  - intros Hin. apply strip_sub in Hin. by apply (split_no_sep _ _ _ Hx).
  - by apply strip_ends.
Qed.

Lemma split_whole sep h : sep ∉ h → split sep h = [h].
Proof.
  induction h as [|c t IH]; simpl; [done|]. intros Hn.
  apply not_elem_of_cons in Hn as [Hc Hn].
  rewrite bool_decide_eq_false_2 by congruence. by rewrite IH.
Qed.

Lemma split_app sep h rest :
  sep ∉ h → split sep (h ++ sep :: rest) = h :: split sep rest.
Proof.
  induction h as [|c t IH]; simpl; intros Hn.
  - by rewrite bool_decide_eq_true_2.
  - apply not_elem_of_cons in Hn as [Hc Hn].
    rewrite bool_decide_eq_false_2 by congruence. by rewrite IH.
Qed.

Lemma strip_id s a b :
  head s = Some a → last s = Some b →
  isspace a = false → isspace b = false → strip s = s.
Proof.
  intros Hh Hl Ha Hb. unfold strip.
  rewrite (lstrip_id s a Hh Ha).
  rewrite (lstrip_id (reverse s) b); [apply reverse_involutive| |done].
  by rewrite head_reverse.
Qed.

Lemma tidy_strip p :
  tidy p → strip (list_ascii_of_string p) = list_ascii_of_string p.
Proof. intros (_ & a & b & Hh & Hl & Ha & Hb). by apply (strip_id _ a b). Qed.

Lemma tidy_nonempty p : tidy p → list_ascii_of_string p ≠ [].
Proof. intros (_ & a & b & Hh & _) E. by rewrite E in Hh. Qed.

Lemma concat_cons2 sep p q l :
  String.concat sep (p :: q :: l) = p +:+ sep +:+ String.concat sep (q :: l).
Proof. reflexivity. Qed.

Lemma split_concat l :
  Forall tidy l → l ≠ [] →
  split ","%char (list_ascii_of_string (String.concat "," l))
  = list_ascii_of_string <$> l.
Proof.
  induction 1 as [|p l Hp Hl IH]; [done|]. intros _.
  destruct l as [|q l].
  - simpl. apply split_whole, Hp.
  - rewrite concat_cons2, !chars_append.
    change (list_ascii_of_string ",") with [","%char].
    rewrite <- app_comm_cons, app_nil_l.
    rewrite split_app by apply Hp. rewrite IH by done. by rewrite fmap_cons.
Qed.

(** X14. Reading back a list of tidy prefixes joined by commas gives the
    list again: [parse_prefixes] splits at the commas only, keeps the order
    and the duplicates, and changes no prefix that has no white space at
    its ends. *)
Theorem parse_prefixes_join l :
  Forall tidy l → parse_prefixes (String.concat "," l) = l.
Proof.
  intros Hl. unfold parse_prefixes.
  destruct l as [|p l]; [done|].
  rewrite bool_decide_eq_false_2.
  2:{ intros E. apply (f_equal list_ascii_of_string) in E.
      apply Forall_cons in Hl as [Hp _]. apply tidy_nonempty in Hp.
      destruct l as [|q l]; simpl in E; [done|].
      rewrite chars_append in E. simpl in E.
      by apply app_eq_nil in E as [E _]. }
  rewrite split_concat by done.
  induction Hl as [|x l' Hx Hl' IH]; [done|].
  rewrite fmap_cons, filter_cons.
  rewrite decide_True by (rewrite tidy_strip by done; by apply tidy_nonempty).
  rewrite fmap_cons, tidy_strip, string_of_list_ascii_of_string by done.
  f_equal. apply IH.
Qed.

Lemma parse_prefixes_join_witness :
  parse_prefixes "IMG,DSC_" = ["IMG"; "DSC_"]%string.
Proof.
  apply (parse_prefixes_join ["IMG"; "DSC_"]%string).
  repeat (apply Forall_cons; split;
          [split; [simpl; rewrite !not_elem_of_cons;
                   split_and!; [discriminate..|apply not_elem_of_nil]
                  |eexists _, _; split_and!; reflexivity]|]).
  apply Forall_nil_2.
Defined.

Lemma lookup_count_add k' key c :
  lookup_count k' (count_add key c)
  = if bool_decide (k' = key) then S (lookup_count key c)
    else lookup_count k' c.
Proof.
  induction c as [|[k0 n] r IH]; simpl.
  - repeat case_bool_decide; congruence.
  - repeat (case_bool_decide; simpl; try congruence).
Qed.

Lemma keys_count_add key c k' :
  k' ∈ (count_add key c).*1 ↔ k' = key ∨ k' ∈ c.*1.
Proof.
  induction c as [|[k0 n] r IH]; simpl.
  - rewrite list_elem_of_singleton, elem_of_nil. naive_solver.
  - case_bool_decide as E; simpl; rewrite !elem_of_cons; [naive_solver|].
    rewrite IH. naive_solver.
Qed.

Lemma NoDup_count_add key c : NoDup c.*1 → NoDup (count_add key c).*1.
Proof.
  induction c as [|[k0 n] r IH]; simpl; intros Hnd.
  - apply NoDup_singleton.
  - apply NoDup_cons in Hnd as [Hk Hnd].
    case_bool_decide as E; simpl.
    + by apply NoDup_cons.
    + apply NoDup_cons. split; [|by apply IH].
      rewrite keys_count_add. naive_solver.
Qed.

Lemma pos_count_add key c :
  Forall (λ kv, (1 ≤ kv.2)%nat) c →
  Forall (λ kv, (1 ≤ kv.2)%nat) (count_add key c).
Proof.
  induction 1 as [|[k0 n] r Hn Hr IH]; simpl.
  - apply Forall_singleton. simpl. lia.
  - case_bool_decide; apply Forall_cons; split; simpl in *; try done. lia.
Qed.

Lemma Counter_inv items c :
  NoDup c.*1 → Forall (λ kv, (1 ≤ kv.2)%nat) c →
  let C := foldl (λ c key, count_add key c) c items in
  NoDup C.*1 ∧ Forall (λ kv, (1 ≤ kv.2)%nat) C ∧
  (∀ k, lookup_count k C
        = (lookup_count k c + length (filter (λ x, x = k) items))%nat) ∧
  (∀ k, k ∈ C.*1 ↔ k ∈ c.*1 ∨ k ∈ items).
Proof.
  revert c. induction items as [|x items IH]; intros c Hnd Hpos; simpl.
  - split_and!; [done..| |].
    + intros k. simpl. lia.
    + intros k. rewrite elem_of_nil. naive_solver.
  - destruct (IH (count_add x c)) as (H1 & H2 & H3 & H4);
      [by apply NoDup_count_add|by apply pos_count_add|].
    split_and!; [done..| |].
    + intros k. rewrite H3, lookup_count_add, filter_cons.
      case_bool_decide as E; [subst k; rewrite decide_True by done|
                              rewrite decide_False by congruence];
        simpl; lia.
    + intros k. rewrite H4, keys_count_add, elem_of_cons. naive_solver.
Qed.

Lemma lookup_count_elem c k n :
  NoDup c.*1 → (k, n) ∈ c → lookup_count k c = n.
Proof.
  induction c as [|[k0 m] r IH]; simpl; intros Hnd Hin.
  - by apply elem_of_nil in Hin.
  - apply NoDup_cons in Hnd as [Hk Hnd].
    apply elem_of_cons in Hin as [[= -> ->]|Hin].
    + by rewrite bool_decide_eq_true_2.
    + rewrite bool_decide_eq_false_2; [by apply IH|].
      intros ->. apply Hk. apply list_elem_of_fmap. by exists (k, n).
Qed.

Lemma lookup_count_absent c k : k ∉ c.*1 → lookup_count k c = 0%nat.
Proof.
  induction c as [|[k0 m] r IH]; simpl; [done|]. intros Hn.
  apply not_elem_of_cons in Hn as [Hk Hn].
  rewrite bool_decide_eq_false_2 by congruence. by apply IH.
Qed.

Lemma insert_desc_perm x l : insert_desc x l ≡ₚ x :: l.
Proof.
  induction l as [|y r IH]; simpl; [done|].
  destruct (y.2 <=? x.2)%nat; [done|]. rewrite IH. apply Permutation_swap.
Qed.

Lemma sorted_perm c : foldr insert_desc [] c ≡ₚ c.
Proof.
  induction c as [|x c IH]; simpl; [done|].
  by rewrite insert_desc_perm, IH.
Qed.

Lemma insert_desc_sorted x l :
  StronglySorted by_count l → StronglySorted by_count (insert_desc x l).
Proof.
  induction l as [|y r IH]; simpl; intros Hs.
  - apply StronglySorted_cons. split; [done|constructor].
  - apply StronglySorted_cons in Hs as Hs'. destruct Hs' as [Hy Hr].
    destruct (Nat.leb_spec (y.2) (x.2)) as [Hle|Hlt].
    + apply StronglySorted_cons. split; [|done].
      apply Forall_cons. split; [done|].
      eapply Forall_impl; [exact Hy|]. unfold by_count. intros z Hz. lia.
    + apply StronglySorted_cons. split; [|by apply IH].
      rewrite insert_desc_perm. apply Forall_cons. split; [|done].
      unfold by_count. lia.
Qed.

Lemma sorted_sorted c : StronglySorted by_count (foldr insert_desc [] c).
Proof.
  induction c as [|x c IH]; simpl; [constructor|by apply insert_desc_sorted].
Qed.

Lemma take_sorted {A} (R : relation A) n l :
  StronglySorted R l → StronglySorted R (take n l).
Proof.
  revert n. induction l as [|a l IH]; intros [|n] Hs; simpl;
    try constructor.
  - apply IH. by apply StronglySorted_cons in Hs as [_ ?].
  - apply StronglySorted_cons in Hs as [Ha _].
    apply Forall_forall. intros z Hz.
    eapply (proj1 (Forall_forall _ _) Ha), elem_of_sublist;
      [exact Hz|apply sublist_take].
Qed.

Lemma slice_length k s :
  (k ≤ String.length s)%nat → String.length (slice_to k s) = k.
Proof.
  intros Hk. unfold slice_to.
  rewrite length_chars, list_ascii_of_string_of_list_ascii.
  apply length_take_le. by rewrite <- length_chars.
Qed.

Lemma startswith_slice s pfx :
  startswith s pfx = true ↔
  (String.length pfx ≤ String.length s)%nat
  ∧ slice_to (String.length pfx) s = pfx.
Proof.
  unfold startswith, slice_to. rewrite bool_decide_eq_true. split.
  - intros [t Et]. rewrite !length_chars, Et, length_app. split; [lia|].
    rewrite take_app_length. apply string_of_list_ascii_of_string.
  - intros [_ E]. apply (f_equal list_ascii_of_string) in E.
    rewrite list_ascii_of_string_of_list_ascii in E. rewrite <- E at 1.
    apply prefix_take.
Qed.

Lemma count_slices stems pfx :
  length (filter (λ x, x = pfx)
            (slice_to (String.length pfx) <$>
               filter (λ s, (String.length pfx ≤ String.length s)%nat) stems))
  = matching stems pfx.
Proof.
  unfold matching. induction stems as [|s stems IH]; [done|].
  rewrite !filter_cons.
  destruct (decide (startswith s pfx = true)) as [Hs|Hs].
  - apply startswith_slice in Hs as Hs'. destruct Hs' as [Hlen Hsl].
    rewrite decide_True by done. rewrite fmap_cons, filter_cons.
    rewrite decide_True by done. simpl. by rewrite IH.
  - case_decide as Hlen; [|done].
    rewrite fmap_cons, filter_cons. rewrite decide_False; [done|].
    intros Hsl. apply Hs, startswith_slice. by split.
Qed.

Lemma suggest_prefixes_inv stems k :
  let C := Counter (slice_to k <$>
                      filter (λ s, (k ≤ String.length s)%nat) stems) in
  NoDup C.*1 ∧ Forall (λ kv, (1 ≤ kv.2)%nat) C ∧
  (∀ pfx, String.length pfx = k → lookup_count pfx C = matching stems pfx) ∧
  (∀ pfx, pfx ∈ C.*1 → String.length pfx = k).
Proof.
  intros C.
  destruct (Counter_inv
              (slice_to k <$> filter (λ s, (k ≤ String.length s)%nat) stems)
              []) as (H1 & H2 & H3 & H4); [constructor..|].
  fold (Counter (slice_to k <$>
                   filter (λ s, (k ≤ String.length s)%nat) stems)) in *.
  fold C in H1, H2, H3, H4.
  split_and!; [done..| |].
  - intros pfx <-. rewrite H3. simpl. apply count_slices.
  - intros pfx Hin. apply H4 in Hin as [Hin|Hin];
      [by apply elem_of_nil in Hin|].
    apply list_elem_of_fmap in Hin as (s & -> & Hs).
    apply list_elem_of_filter in Hs as [Hlen _]. by apply slice_length.
Qed.

(** X15. Every suggestion tells the truth about the folder: its prefix has
    exactly [k] characters and its count is the number of the stems that
    start with this prefix, which is at least one. *)
Theorem suggest_prefixes_counts stems k topn pfx cnt :
  (pfx, cnt) ∈ suggest_prefixes stems k topn →
  String.length pfx = k ∧ (1 ≤ cnt)%nat ∧ cnt = matching stems pfx.
Proof.
  intros Hin. unfold suggest_prefixes, most_common in Hin.
  destruct (suggest_prefixes_inv stems k) as (Hnd & Hpos & Hcnt & Hlen).
  eapply elem_of_sublist in Hin; [|apply sublist_take].
  rewrite sorted_perm in Hin.
  assert (String.length pfx = k) as Hk.
  { apply Hlen, list_elem_of_fmap. by exists (pfx, cnt). }
  split_and!; [done| |].
  - by apply (proj1 (Forall_forall _ _) Hpos (pfx, cnt)).
  - rewrite <- (Hcnt pfx Hk). symmetry. by apply lookup_count_elem.
Qed.

Lemma suggest_prefixes_counts_witness :
  String.length "IMG" = 3%nat ∧ (1 ≤ 2)%nat
  ∧ 2%nat = matching ["IMG_1"; "DSC_7"; "IMG_2"; "ab"]%string "IMG".
Proof.
  apply (suggest_prefixes_counts _ 3 10 "IMG" 2).
  vm_compute. left.
Defined.

(** X16. The first suggestion, the one [interactive_choose_prefix] offers
    by default, is a most common prefix: no text of [k] characters starts
    more stems than it does. *)
Theorem suggest_prefixes_best stems k topn best n rest pfx :
  suggest_prefixes stems k topn = (best, n) :: rest →
  String.length pfx = k →
  (matching stems pfx ≤ n)%nat.
Proof.
  intros Hs Hk. unfold suggest_prefixes, most_common in Hs.
  destruct (suggest_prefixes_inv stems k) as (Hnd & Hpos & Hcnt & Hlen).
  set (C := Counter (slice_to k <$>
                       filter (λ s, (k ≤ String.length s)%nat) stems)) in *.
  rewrite <- (Hcnt pfx Hk).
  pose proof (sorted_sorted C) as Hsorted.
  pose proof (sorted_perm C) as Hperm.
  destruct (foldr insert_desc [] C) as [|x L] eqn:EL.
  { by rewrite take_nil in Hs. }
  destruct topn as [|topn]; [done|]. simpl in Hs.
  injection Hs as -> _.
  apply StronglySorted_cons in Hsorted as [Hall _].
  destruct (decide (pfx ∈ C.*1)) as [Hin|Hout].
  - apply list_elem_of_fmap in Hin as ([p m] & -> & Hin). simpl.
    rewrite (lookup_count_elem C p m Hnd Hin).
    rewrite <- Hperm in Hin. apply elem_of_cons in Hin as [[= _ ->]|Hin].
    + done.
    + apply (proj1 (Forall_forall _ _) Hall (p, m) Hin).
  - rewrite lookup_count_absent by done. lia.
Qed.

Lemma suggest_prefixes_best_witness :
  (matching ["IMG_1"; "DSC_7"; "IMG_2"; "ab"]%string "DSC" ≤ 2)%nat.
Proof.
  apply (suggest_prefixes_best _ 3 10 "IMG" 2 [("DSC", 1%nat)]%string "DSC");
    reflexivity.
Defined.

(** X17. The suggestions list each prefix once, by decreasing count, and
    there are at most [topn] of them. *)
Theorem suggest_prefixes_order stems k topn :
  NoDup (suggest_prefixes stems k topn).*1 ∧
  StronglySorted by_count (suggest_prefixes stems k topn) ∧
  (length (suggest_prefixes stems k topn) ≤ topn)%nat.
Proof.
  unfold suggest_prefixes, most_common.
  destruct (suggest_prefixes_inv stems k) as (Hnd & _).
  split_and!.
  - rewrite fmap_take. eapply sublist_NoDup; [|apply sublist_take].
    by rewrite sorted_perm.
  - apply take_sorted, sorted_sorted.
  - rewrite length_take. lia.
Qed.

Lemma suggestion_matches stems k topn pfx :
  pfx ∈ (suggest_prefixes stems k topn).*1 →
  String.length pfx = k ∧ ∃ s, s ∈ stems ∧ startswith s pfx = true.
Proof.
  unfold suggest_prefixes, most_common. intros Hin.
  rewrite fmap_take in Hin.
  eapply elem_of_sublist in Hin; [|apply sublist_take].
  rewrite sorted_perm in Hin.
  destruct (Counter_inv
              (slice_to k <$> filter (λ s, (k ≤ String.length s)%nat) stems)
              []) as (_ & _ & _ & H4); [constructor..|].
  apply H4 in Hin as [Hin|Hin]; [by apply elem_of_nil in Hin|].
  apply list_elem_of_fmap in Hin as (s & -> & Hs).
  apply list_elem_of_filter in Hs as [Hlen Hs].
  pose proof (slice_length k s Hlen) as Hk. split; [done|].
  exists s. split; [done|]. apply startswith_slice. rewrite Hk.
  split; [done|]. done.
Qed.

Lemma no_example_false stems cand :
  no_example stems cand = false →
  ∃ s, s ∈ stems ∧ startswith s cand = true.
Proof.
  unfold no_example. intros Hf. apply bool_decide_eq_false in Hf.
  destruct (filter _ stems) as [|s r] eqn:E; [done|].
  exists s. assert (s ∈ filter (λ s, startswith s cand = true) stems) as Hs.
  { rewrite E. by left. }
  apply list_elem_of_filter in Hs as [? ?]. done.
Qed.

(** What the loop can confirm: the default prefix, a suggestion, or a typed
    text that matches a stem. *)
Lemma ask_Chosen stems suggestions best_pref inputs pref :
  ask stems suggestions best_pref inputs = Chosen pref →
  pref = best_pref ∨ pref ∈ suggestions.*1
  ∨ (pref ≠ EmptyString ∧ ∃ s, s ∈ stems ∧ startswith s pref = true).
Proof.
  induction inputs as [inputs IH] using list_length_ind.
  destruct inputs as [|a rest]; simpl; [done|].
  case_bool_decide; [intros [= <-]; by left|].
  case_bool_decide.
  2:{ apply IH. simpl. lia. }
  destruct rest as [|c rest1]; [done|].
  case_bool_decide; [done|].
  destruct (isdigit_str (strip_str c)).
  - destruct (parse_int _) as [idx|e]; [|done].
    destruct (_ && _).
    2:{ apply IH. simpl. lia. }
    destruct (suggestions !! _) as [[cand n]|] eqn:El; [|done].
    destruct rest1 as [|y rest2]; [done|].
    case_bool_decide.
    + intros [= <-]. right. left. apply list_elem_of_fmap.
      exists (cand, n). split; [done|]. by eapply list_elem_of_lookup_2.
    + apply IH. simpl. lia.
  - case_bool_decide as Hemp.
    { apply IH. simpl. lia. }
    destruct (no_example stems (strip_str c)) eqn:Hex.
    { apply IH. simpl. lia. }
    destruct rest1 as [|y rest2]; [done|].
    case_bool_decide.
    + intros [= <-]. right. right. split; [done|].
      by apply no_example_false.
    + apply IH. simpl. lia.
Qed.

Lemma ask_no_IndexError stems suggestions best_pref inputs :
  ask stems suggestions best_pref inputs ≠ IndexError.
Proof.
  induction inputs as [inputs IH] using list_length_ind.
  destruct inputs as [|a rest]; simpl; [done|].
  case_bool_decide; [done|].
  case_bool_decide.
  2:{ apply IH. simpl. lia. }
  destruct rest as [|c rest1]; [done|].
  case_bool_decide; [done|].
  destruct (isdigit_str (strip_str c)).
  - destruct (parse_int _) as [idx|e]; [|done].
    destruct (_ && _) eqn:Hb.
    2:{ apply IH. simpl. lia. }
    apply andb_true_iff in Hb as [Hlo Hhi].
    apply Z.leb_le in Hlo, Hhi.
    destruct (lookup_lt_is_Some_2 suggestions (Z.to_nat (idx - 1)))
      as [[cand n] El]; [lia|].
    rewrite El.
    destruct rest1 as [|y rest2]; [done|].
    case_bool_decide; [done|]. apply IH. simpl. lia.
  - case_bool_decide.
    { apply IH. simpl. lia. }
    destruct (no_example stems (strip_str c)).
    { apply IH. simpl. lia. }
    destruct rest1 as [|y rest2]; [done|].
    case_bool_decide; [done|]. apply IH. simpl. lia.
Qed.

(** The error of [int] comes from a typed line made of digits one of
    which is not decimal. *)
Lemma ask_ValueError stems suggestions best_pref inputs :
  ask stems suggestions best_pref inputs = ValueError →
  ∃ line c, line ∈ inputs ∧ c ∈ list_ascii_of_string line ∧
            isdigit c = true ∧ isdecimal c = false.
Proof.
  induction inputs as [inputs IH] using list_length_ind.
  assert (∀ l', (length l' < length inputs)%nat → l' `suffix_of` inputs →
            ask stems suggestions best_pref l' = ValueError →
            ∃ line c, line ∈ inputs ∧ c ∈ list_ascii_of_string line ∧
                      isdigit c = true ∧ isdecimal c = false) as IH'.
  { intros l' Hlen [k ->] H.
    destruct (IH l' Hlen H) as (line & c & Hin & Hc).
    exists line, c. split; [|done]. apply elem_of_app. by right. }
  clear IH. destruct inputs as [|a rest]; simpl; [done|].
  case_bool_decide; [done|].
  case_bool_decide.
  2:{ apply IH'; [simpl; lia|]. by exists [a]. }
  destruct rest as [|c rest1]; [done|].
  case_bool_decide; [done|].
  destruct (isdigit_str (strip_str c)) eqn:Hdig.
  - unfold parse_int.
    destruct (forallb isdecimal (list_ascii_of_string (strip_str c))) eqn:Hall.
    + destruct (_ && _).
      2:{ apply IH'; [simpl; lia|]. by exists [a; c]. }
      destruct (suggestions !! _) as [[cand n]|]; [|done].
      destruct rest1 as [|y rest2]; [done|].
      case_bool_decide; [done|].
      apply IH'; [simpl; lia|]. by exists [a; c; y].
    + intros _. apply forallb_false in Hall as (ch & Hch & Hnd).
      exists c, ch. split_and!; [by right; left| | |done].
      * unfold strip_str in Hch.
        rewrite list_ascii_of_string_of_list_ascii in Hch.
        by apply strip_sub.
      * unfold isdigit_str in Hdig. apply andb_true_iff in Hdig as [_ Hdig].
        apply forallb_Forall in Hdig.
        by apply (proj1 (Forall_forall _ _) Hdig).
  - case_bool_decide.
    { apply IH'; [simpl; lia|]. by exists [a; c]. }
    destruct (no_example stems (strip_str c)).
    { apply IH'; [simpl; lia|]. by exists [a; c]. }
    destruct rest1 as [|y rest2]; [done|].
    case_bool_decide; [done|].
    apply IH'; [simpl; lia|]. by exists [a; c; y].
Qed.

Lemma length_nonempty s : (1 ≤ String.length s)%nat → s ≠ EmptyString.
Proof. intros Hl ->. simpl in Hl. lia. Qed.

(** X18. A prefix confirmed in the dialogue always selects something:
    whatever the user types, a prefix returned by
    [interactive_choose_prefix] is not empty and at least one of the messy
    files has a stem that starts with it, so the candidate list that [main]
    builds from it is never empty. *)
Theorem chosen_prefix_matches messy k inputs pref :
  (1 ≤ k)%nat →
  interactive_choose_prefix messy k inputs = Chosen pref →
  pref ≠ EmptyString ∧ chosen_candidates messy pref ≠ [].
Proof.
  intros Hk. unfold interactive_choose_prefix.
  case_bool_decide; [done|].
  destruct (suggest_prefixes (stem <$> messy) k 10) as [|[best n] sugg] eqn:Es;
    [done|].
  intros Hask. apply ask_Chosen in Hask.
  assert (pref ≠ EmptyString
          ∧ ∃ s, s ∈ stem <$> messy ∧ startswith s pref = true)
    as [Hne (s & Hs & Hst)].
  { destruct Hask as [->|[Hin|Hty]]; [| |done].
    - destruct (suggestion_matches (stem <$> messy) k 10 best) as [Hl Hm].
      { rewrite Es. by left. }
      split; [apply length_nonempty; lia|done].
    - rewrite <- Es in Hin.
      destruct (suggestion_matches (stem <$> messy) k 10 pref Hin) as [Hl Hm].
      split; [apply length_nonempty; lia|done]. }
  split; [done|].
  apply list_elem_of_fmap in Hs as (p & -> & Hp).
  intros E.
  assert (p ∈ chosen_candidates messy pref) as Hin.
  { apply list_elem_of_filter. by split. }
  rewrite E in Hin. by apply elem_of_nil in Hin.
Qed.

Lemma chosen_prefix_matches_witness :
  ("DSC"%string ≠ EmptyString) ∧
  chosen_candidates
    [mkPath "/photos" "IMG_1.jpg"; mkPath "/photos" "DSC_7.png";
     mkPath "/photos" "IMG_2.jpg"] "DSC" ≠ [].
Proof.
  apply (chosen_prefix_matches _ 3 ["n"; " 2 "; "Y"]%string "DSC");
    [lia|reflexivity].
Defined.

(** X19. The number typed in the dialogue never raises an index error:
    [suggestions] is indexed only inside its bounds.  The dialogue ends
    with the error of [int] only when a typed line holds a digit that is
    not decimal, and [interactive_choose_prefix] asks nothing and returns
    [None] when no stem has [k] characters. *)
Theorem dialogue_outcomes messy k inputs :
  interactive_choose_prefix messy k inputs ≠ IndexError ∧
  (interactive_choose_prefix messy k inputs = ValueError →
   ∃ line c, line ∈ inputs ∧ c ∈ list_ascii_of_string line ∧
             isdigit c = true ∧ isdecimal c = false) ∧
  (Forall (λ p, (String.length (stem p) < k)%nat) messy →
   interactive_choose_prefix messy k inputs = NoChoice).
Proof.
  unfold interactive_choose_prefix. split_and!.
  - case_bool_decide; [done|].
    destruct (suggest_prefixes _ k 10) as [|[best n] sugg]; [done|].
    apply ask_no_IndexError.
  - case_bool_decide; [done|].
    destruct (suggest_prefixes _ k 10) as [|[best n] sugg]; [done|].
    apply ask_ValueError.
  - intros Hshort. case_bool_decide; [done|].
    destruct (suggest_prefixes _ k 10) as [|[best n] sugg] eqn:Es; [done|].
    destruct (suggestion_matches (stem <$> messy) k 10 best)
      as [Hl (s & Hs & Hst)].
    { rewrite Es. by left. }
    apply list_elem_of_fmap in Hs as (p & -> & Hp).
    apply startswith_slice in Hst as [Hlen _].
    pose proof (proj1 (Forall_forall _ _) Hshort p Hp) as Hlt. simpl in Hlt.
    lia.
Qed.

End SelectionFacts.
